(** * Pickr: the colour engine of [src/app/page.tsx]

    A shallow embedding of the colour mathematics and of the session
    handlers of the [ProfessionalColorSuite] component, followed by the
    properties of the specification, each settled on the embedding.

    JavaScript numbers are IEEE 754 binary64 values; they are modelled by
    Rocq's primitive floats, whose [+], [-], [*], [/] and comparisons are
    the binary64 ones.  The built-ins the program calls ([Math.max],
    [Math.min], [Math.round], [%], [toString], [toFixed], [padStart],
    [slice], [parseInt]) are written out in module [JS] from their
    ECMAScript definitions. *)

From Stdlib Require Import ZArith List Bool Lia Permutation.
From Stdlib Require Import Ascii String.
From Stdlib Require Import Floats Uint63.
From Stdlib Require Strings.Byte.
Import ListNotations.

Set Warnings "-inexact-float".

(** ** JavaScript built-ins *)

Module JS.

Local Open Scope float_scope.

(** The type [number]. *)
Definition number : Type := float.

(** An integer as a [number]; exact for [|z| < 2^53]. *)
Definition of_Z (z : Z) : number :=
  if (z <? 0)%Z then - of_uint63 (Uint63.of_Z (- z)) else of_uint63 (Uint63.of_Z z).

(** A byte of a [Uint8ClampedArray] read as a [number]. *)
Definition of_byte (b : Init.Byte.byte) : number :=
  of_Z (Z.of_N (Strings.Byte.to_N b)).

(** ToBoolean on a number: NaN and the zeros are falsy.  ([x === y] on
    numbers is [x =? y]: NaN differs from itself and the two zeros are
    equal.) *)
Definition falsy (x : number) : bool := is_nan x || PrimFloat.is_zero x.

(** [x || d] on numbers. *)
Definition or_else (x d : number) : number := if falsy x then d else x.

(** *** [Math.max] and [Math.min]

    One step of the fold of ECMAScript's [Math.max]: NaN is contagious and
    [+0] is larger than [-0]. *)
Definition Math_max2 (x y : number) : number :=
  if x <? y then y
  else if y <? x then x
  else if x =? y then (if get_sign x then y else x)
  else nan.

Definition Math_min2 (x y : number) : number :=
  if x <? y then x
  else if y <? x then y
  else if x =? y then (if get_sign x then x else y)
  else nan.

Definition Math_max (xs : list number) : number :=
  fold_left Math_max2 xs neg_infinity.

Definition Math_min (xs : list number) : number :=
  fold_left Math_min2 xs infinity.

(** *** [Math.round]

    The integral number closest to [x], the one nearer to +infinity on a
    tie.  [frshiftexp x] is [(m, e)] with [x = m * 2^(e - 2101)] and
    [0.5 <= |m| < 1]; its [e] is [0] exactly when [x] is a zero, an
    infinity or NaN (the exponent of a finite non-zero number is at least
    [1028]).  With [mant = |m| * 2^53] the 53-bit mantissa,
    [|x| = mant / 2^sh] for [sh = 2101 + 53 - e]; from [e >= 2101 + 53]
    on, [x] is integral already. *)
Definition ebias : int := 2101%uint63.

(** [floor (mant / 2^sh + 1/2)], and [ceil (mant / 2^sh - 1/2)] when the
    number is negative ([neg]); below one quarter ([e < 2100]) this is [0]
    and the shift is not computed. *)
Definition half_up (mant e : int) (neg : bool) : int :=
  if Uint63.ltb e (ebias - 1)%uint63 then 0%uint63
  else
    let sh := (ebias + 53 - e)%uint63 in
    let half := (1 << (sh - 1))%uint63 in
    if neg then ((mant + half - 1) >> sh)%uint63
    else ((mant + half) >> sh)%uint63.

Definition Math_round (x : number) : number :=
  let (m, e) := frshiftexp x in
  if Uint63.eqb e 0 || Uint63.leb (ebias + 53)%uint63 e then x
  else if x <? 0 then - of_uint63 (half_up (normfr_mantissa m) e true)
  else of_uint63 (half_up (normfr_mantissa m) e false).

(** *** The exact value of a number

    [Prim2SF] gives sign, mantissa and exponent: the value is
    [(-1)^s * m * 2^e]. *)

(** [x % y]: the remainder of the truncated division, computed exactly,
    with the sign of the dividend.  Both numbers are written over the
    smaller of their two exponents; the remainder [R] is below [2^53] and
    [R * 2^e] is a binary64 number. *)
Definition rem (x y : number) : number :=
  match Prim2SF x, Prim2SF y with
  | S754_nan, _ | _, S754_nan => nan
  | S754_infinity _, _ => nan
  | _, S754_zero _ => nan
  | _, S754_infinity _ => x
  | S754_zero _, _ => x
  | S754_finite sx mx ex, S754_finite _ my ey =>
      let e := Z.min ex ey in
      let X := Z.shiftl (Zpos mx) (ex - e) in
      let Y := Z.shiftl (Zpos my) (ey - e) in
      let R := Z.modulo X Y in
      let r := Z.ldexp (of_uint63 (Uint63.of_Z R)) e in
      if sx then - r else r
  end.

(** *** Strings *)

Local Open Scope string_scope.

Definition digit_char (d : Z) : ascii :=
  ascii_of_nat (Z.to_nat (if (d <? 10)%Z then 48 + d else 87 + d)).

(** The digits of a non-negative integer in [radix], most significant
    first; [fuel] bounds their number. *)
Fixpoint int_digits (fuel : nat) (radix n : Z) (acc : string) : string :=
  match fuel with
  | O => acc
  | S fuel' =>
      let acc' := String (digit_char (n mod radix)) acc in
      if (n / radix =? 0)%Z then acc' else int_digits fuel' radix (n / radix) acc'
  end.

Definition int_string (radix n : Z) : string :=
  int_digits (S (Z.to_nat (Z.log2 n))) radix n "".

(** The digits of the fraction [num / den], [0 <= num < den], until it is
    exhausted. *)
Fixpoint frac_digits (fuel : nat) (radix num den : Z) : string :=
  match fuel with
  | O => ""
  | S fuel' =>
      if (num =? 0)%Z then ""
      else String (digit_char (num * radix / den))
                  (frac_digits fuel' radix ((num * radix) mod den) den)
  end.

(** [x.toString(radix)] and the string a template literal makes of [x].
    NaN, the infinities and every integral number below [10^21] print as
    ECMAScript defines them, which is all this program prints.  A
    fraction prints as its exact expansion (engines may print fewer
    digits) and the exponent notation of large decimals is not used. *)
Definition Number_toString (radix : Z) (x : number) : string :=
  match Prim2SF x with
  | S754_nan => "NaN"
  | S754_infinity s => if s then "-Infinity" else "Infinity"
  | S754_zero _ => "0"
  | S754_finite s m e =>
      let den := Z.shiftl 1 (- e) in
      let ip := if (0 <=? e)%Z then Z.shiftl (Zpos m) e else (Zpos m / den)%Z in
      let fp := if (0 <=? e)%Z then 0%Z else (Zpos m mod den)%Z in
      (if s then "-" else "") ++ int_string radix ip
      ++ (if (fp =? 0)%Z then "" else "." ++ frac_digits (Z.to_nat (- e)) radix fp den)
  end.

(** [s.padStart(n, fill)] for a one-character [fill]. *)
Definition padStart (n : nat) (fill : ascii) (s : string) : string :=
  String.concat "" (repeat (String fill "") (n - String.length s)) ++ s.

(** [s.slice(i, j)] for indices [0 <= i <= j]. *)
Definition slice (i j : nat) (s : string) : string := substring i (j - i) s.

(** The value of a hexadecimal digit, in either case. *)
Definition hex_value (c : ascii) : option Z :=
  let n := Z.of_nat (nat_of_ascii c) in
  if ((48 <=? n) && (n <=? 57))%Z then Some (n - 48)%Z
  else if ((97 <=? n) && (n <=? 102))%Z then Some (n - 87)%Z
  else if ((65 <=? n) && (n <=? 70))%Z then Some (n - 55)%Z
  else None.

Fixpoint hex_prefix (s : string) (acc : option Z) : option Z :=
  match s with
  | EmptyString => acc
  | String c s' =>
      match hex_value c with
      | Some d => hex_prefix s' (Some (match acc with Some a => 16 * a + d | None => d end)%Z)
      | None => acc
      end
  end.

Definition is_white (c : ascii) : bool :=
  let n := nat_of_ascii c in
  (n =? 32)%nat || ((9 <=? n)%nat && (n <=? 13)%nat).

Fixpoint trim_start (s : string) : string :=
  match s with
  | String c s' => if is_white c then trim_start s' else s
  | EmptyString => s
  end.

(** [parseInt(s, 16)]: leading white space, a sign and a [0x] prefix are
    skipped, the longest prefix of hexadecimal digits is read, and NaN
    is the result when there is none.  (The value is exact below [2^53].) *)
Definition parseInt16 (s : string) : number :=
  let s := trim_start s in
  let '(neg, s) :=
    match s with
    | String "-" s' => (true, s')
    | String "+" s' => (false, s')
    | _ => (false, s)
    end in
  let s :=
    match s with
    | String "0" (String "x" s') | String "0" (String "X" s') => s'
    | _ => s
    end in
  match hex_prefix s None with
  | Some n => if neg then (- of_Z n)%float else of_Z n
  | None => nan
  end.

(** [x.toFixed(digits)] for [|x| < 10^21]: the integer [n] with
    [n / 10^digits] closest to [|x|], the larger one on a tie, printed with
    [digits] decimals. *)
Definition toFixed (digits : nat) (x : number) : string :=
  match Prim2SF x with
  | S754_nan => "NaN"
  | S754_infinity s => if s then "-Infinity" else "Infinity"
  | S754_zero _ | S754_finite _ _ _ =>
      let '(num, den) :=
        match Prim2SF x with
        | S754_finite _ m e =>
            if (0 <=? e)%Z then (Z.shiftl (Zpos m) e, 1%Z) else (Zpos m, Z.shiftl 1 (- e))
        | _ => (0%Z, 1%Z)
        end in
      let n := ((2 * num * 10 ^ Z.of_nat digits + den) / (2 * den))%Z in
      let ds := padStart (S digits) "0" (int_string 10 n) in
      let k := (String.length ds - digits)%nat in
      (if (x <? 0)%float then "-" else "")
      ++ substring 0 k ds
      ++ (if (digits =? 0)%nat then "" else "." ++ substring k digits ds)
  end.

End JS.
Import JS.

(** ** The data model *)

Record RGB := { r : number; g : number; b : number }.
Record HSL := { h : number; s : number; l : number }.

(** [interface ColorData]. *)
Record ColorData := {
  hex : string;
  rgb : RGB;
  hsl : HSL;
  cmyk : string
}.

(** ** Colour mathematics *)

Section ColorMath.

Local Open Scope string_scope.
Local Open Scope float_scope.

(** [toHex], the local function of [calculateColorDetails]. *)
Definition toHex (c : number) : string := padStart 2 "0" (Number_toString 16 c).

(** [calculateColorDetails(r, g, b)].  The variables [h] and [s], both
    assigned inside [if (max !== min)], are the two components of the pair
    [hs]. *)
Definition calculateColorDetails (r g b : number) : ColorData :=
  let hex := "#" ++ toHex r ++ toHex g ++ toHex b in
  let r_ := r / 255 in
  let g_ := g / 255 in
  let b_ := b / 255 in
  let max := Math_max [r_; g_; b_] in
  let min := Math_min [r_; g_; b_] in
  let l := (max + min) / 2 in
  let hs :=
    if negb (max =? min) then
      let d := max - min in
      let s := if 0.5 <? l then d / (2 - max - min) else d / (max + min) in
      let h :=
        if max =? r_ then (g_ - b_) / d + (if g_ <? b_ then 6 else 0)
        else if max =? g_ then (b_ - r_) / d + 2
        else (r_ - g_) / d + 4 in
      (h / 6, s)
    else (0, 0) in
  let k := 1 - Math_max [r_; g_; b_] in
  let c := or_else ((1 - r_ - k) / (1 - k)) 0 in
  let m := or_else ((1 - g_ - k) / (1 - k)) 0 in
  let y := or_else ((1 - b_ - k) / (1 - k)) 0 in
  {| hex := hex;
     rgb := {| r := r; g := g; b := b |};
     hsl := {| h := Math_round (fst hs * 360);
               s := Math_round (snd hs * 100);
               l := Math_round (l * 100) |};
     cmyk := Number_toString 10 (Math_round (c * 100)) ++ ", "
             ++ Number_toString 10 (Math_round (m * 100)) ++ ", "
             ++ Number_toString 10 (Math_round (y * 100)) ++ ", "
             ++ Number_toString 10 (Math_round (k * 100)) |}.

(** The computation of [updateFromHSL(h, s, l)]: the RGB triple it hands
    to [calculateColorDetails]. *)
Definition hslToRgb (h s l : number) : RGB :=
  let s_ := s / 100 in
  let l_ := l / 100 in
  let a := s_ * Math_min [l_; 1 - l_] in
  let f := fun n : number =>
    let k := rem (n + h / 30) 12 in
    l_ - a * Math_max [Math_min [k - 3; 9 - k; 1]; -1] in
  {| r := Math_round (f 0 * 255);
     g := Math_round (f 8 * 255);
     b := Math_round (f 4 * 255) |}.

End ColorMath.

(** ** Contrast

    [Math.pow] is implementation-approximated in ECMAScript; the contrast
    computation takes it as a parameter. *)

Record Contrast := { ratio : string; onWhite : string; isDark : bool }.

Section ContrastRatio.

Local Open Scope float_scope.

Variable Math_pow : number -> number -> number.

(** [getL], the channel linearisation inside the [contrast] memo. *)
Definition getL (c : number) : number :=
  let s := c / 255 in
  if s <=? 0.03928 then s / 12.92 else Math_pow ((s + 0.055) / 1.055) 2.4.

(** The relative luminance [L] of the memo. *)
Definition luminance (c : RGB) : number :=
  0.2126 * getL (r c) + 0.7152 * getL (g c) + 0.0722 * getL (b c).

(** The value of the [contrast] memo for the current [colorData]. *)
Definition contrast (colorData : ColorData) : Contrast :=
  let L := luminance (rgb colorData) in
  {| ratio := toFixed 2 ((L + 0.05) / 0.05);
     onWhite := toFixed 2 (1.05 / (L + 0.05));
     isDark := L <? 0.5 |}.

End ContrastRatio.

(** ** The session

    The React state of the component that the colour engine reads and
    writes.  ([copied] and [cursorPos] only drive the clipboard feedback and
    the loupe and are left out.) *)

Record State := {
  image : option string;
  colorData : ColorData;
  palette : list string;
  history : list string
}.

Local Open Scope string_scope.
Local Open Scope float_scope.

(** The initial values of the four [useState] hooks. *)
Definition initial_state : State :=
  {| image := None;
     colorData :=
       {| hex := "#6366f1";
          rgb := {| r := 99; g := 102; b := 241 |};
          hsl := {| h := 239; s := 84; l := 67 |};
          cmyk := "60, 58, 0, 5" |};
     palette := [];
     history := [] |}.

Definition setImage (v : option string) (st : State) : State :=
  {| image := v; colorData := colorData st; palette := palette st; history := history st |}.

Definition setColorData (v : ColorData) (st : State) : State :=
  {| image := image st; colorData := v; palette := palette st; history := history st |}.

Definition setPalette (v : list string) (st : State) : State :=
  {| image := image st; colorData := colorData st; palette := v; history := history st |}.

Definition setHistory (f : list string -> list string) (st : State) : State :=
  {| image := image st; colorData := colorData st; palette := palette st;
     history := f (history st) |}.

(** *** The DOM objects behind the refs

    The four bytes of the [data] of a one-pixel [ImageData]. *)
Definition ImageData : Type := (Byte.byte * Byte.byte * Byte.byte * Byte.byte)%type.

Definition data0 (d : ImageData) : number := of_byte (fst (fst (fst d))).
Definition data1 (d : ImageData) : number := of_byte (snd (fst (fst d))).
Definition data2 (d : ImageData) : number := of_byte (snd (fst d)).

Record DOMRect := { left : number; top : number; rect_width : number; rect_height : number }.

(** The [<img>] element: its natural size, its place on screen, and its
    decoded bitmap as [getImageData(x, y, 1, 1)] reads it once the image is
    drawn at the origin of a canvas. *)
Record HTMLImageElement := {
  naturalWidth : number;
  naturalHeight : number;
  getBoundingClientRect : DOMRect;
  bitmap : number -> number -> ImageData
}.

(** The hidden [<canvas>]: its size, whether [getContext('2d')] yields a
    context, and what [getImageData(x, y, 1, 1)] reads from it. *)
Record HTMLCanvasElement := {
  width : number;
  height : number;
  has_context : bool;
  getImageData : number -> number -> ImageData
}.

Record MouseEvent := { clientX : number; clientY : number }.

(** *** Handlers *)

(** [Array.prototype.includes] on strings. *)
Definition includes (x : string) (xs : list string) : bool :=
  existsb (String.eqb x) xs.

(** [pickColor(e)], with the elements the two refs hold.  Its last line is
    [if (!history.includes(result.hex))
       setHistory(prev => [result.hex, ...prev].slice(0, 12))]. *)
Definition pickColor (e : MouseEvent) (canvas : option HTMLCanvasElement)
    (img : option HTMLImageElement) (st : State) : State :=
  match canvas, img with
  | Some canvas, Some img =>
      let rect := getBoundingClientRect img in
      let x := ((clientX e - left rect) / rect_width rect) * naturalWidth img in
      let y := ((clientY e - top rect) / rect_height rect) * naturalHeight img in
      if has_context canvas then
        let data := getImageData canvas x y in
        let result := calculateColorDetails (data0 data) (data1 data) (data2 data) in
        let st' := setColorData result st in
        if negb (includes (hex result) (history st))
        then setHistory (fun prev => firstn 12 (hex result :: prev)) st'
        else st'
      else st
  | _, _ => st
  end.

(** The history [pickColor] leaves when it picks [hex]: the recording
    operation of the selection history. *)
Definition record (history : list string) (hex : string) : list string :=
  if negb (includes hex history) then firstn 12 (hex :: history) else history.

(** The sample points of [extractPalette]. *)
Definition points : list (number * number) :=
  [(0.2, 0.2); (0.5, 0.2); (0.8, 0.5); (0.3, 0.8); (0.7, 0.7)].

(** [extractPalette()]: the canvas takes the natural size of the image, the
    image is drawn on it, and one pixel is read at each sample point.  The
    canvas it leaves behind is returned with the state. *)
Definition extractPalette (canvas : option HTMLCanvasElement)
    (img : option HTMLImageElement) (st : State) : option HTMLCanvasElement * State :=
  match canvas, img with
  | Some canvas, Some img =>
      if has_context canvas then
        let canvas :=
          {| width := naturalWidth img; height := naturalHeight img;
             has_context := true; getImageData := bitmap img |} in
        let p := map (fun pt : number * number =>
                        let d := getImageData canvas (width canvas * fst pt)
                                                     (height canvas * snd pt) in
                        hex (calculateColorDetails (data0 d) (data1 d) (data2 d)))
                     points in
        (Some canvas, setPalette p st)
      else (Some canvas, st)
  | _, _ => (canvas, st)
  end.

(** [updateFromHSL(h, s, l)]. *)
Definition updateFromHSL (h s l : number) (st : State) : State :=
  let c := hslToRgb h s l in
  setColorData (calculateColorDetails (r c) (g c) (b c)) st.

(** [handleKeyDown]: [if (e.key === 'Escape' && image) setImage(null)]; an
    empty string is falsy like [null]. *)
Definition truthy (image : option string) : bool :=
  match image with
  | Some s => negb (String.eqb s "")
  | None => false
  end.

Definition handleKeyDown (key : string) (st : State) : State :=
  if String.eqb key "Escape" && truthy (image st) then setImage None st else st.

(** The [onClick] of a palette swatch and of a history swatch. *)
Definition swatchClick (hex : string) (st : State) : State :=
  let r := parseInt16 (slice 1 3 hex) in
  let g := parseInt16 (slice 3 5 hex) in
  let b := parseInt16 (slice 5 7 hex) in
  setColorData (calculateColorDetails r g b) st.

(** *** Events

    Everything that calls a state setter of the engine.  [FileLoaded] is
    the [onload] of the [FileReader] of the paste handler and of the file
    input; the two buttons call [setImage(null)]; a swatch click carries the
    index of the swatch in the rendered list and does nothing when no such
    swatch is rendered. *)
Inductive Event :=
| FileLoaded (dataUrl : string)
| KeyDown (key : string)
| RestartProject
| ResetProject
| ImageOnLoad (canvas : option HTMLCanvasElement) (img : option HTMLImageElement)
| ImageClick (e : MouseEvent) (canvas : option HTMLCanvasElement)
    (img : option HTMLImageElement)
| PaletteSwatch (i : nat)
| HistorySwatch (i : nat)
| HueSlider (value : number)
| SaturationSlider (value : number)
| LightnessSlider (value : number).

Definition step (st : State) (ev : Event) : State :=
  match ev with
  | FileLoaded dataUrl => setImage (Some dataUrl) st
  | KeyDown key => handleKeyDown key st
  | RestartProject => setImage None st
  | ResetProject => setImage None st
  | ImageOnLoad canvas img => snd (extractPalette canvas img st)
  | ImageClick e canvas img => pickColor e canvas img st
  | PaletteSwatch i =>
      match nth_error (palette st) i with
      | Some hex => swatchClick hex st
      | None => st
      end
  | HistorySwatch i =>
      match nth_error (history st) i with
      | Some hex => swatchClick hex st
      | None => st
      end
  | HueSlider v =>
      updateFromHSL v (s (hsl (colorData st))) (l (hsl (colorData st))) st
  | SaturationSlider v =>
      updateFromHSL (h (hsl (colorData st))) v (l (hsl (colorData st))) st
  | LightnessSlider v =>
      updateFromHSL (h (hsl (colorData st))) (s (hsl (colorData st))) v st
  end.

Definition run (st : State) (evs : list Event) : State := fold_left step evs st.

(** * Definitions for the statements and the proofs *)

(** ** Exhaustive checks over integer ranges

    Several properties below are decided by evaluating the code on every
    input of a finite range.  [forall_from n k i p] evaluates [p] at the
    [n] consecutive integers from [i] on; [k] is the same counter as a
    [nat], which bounds the inner loops. *)

Fixpoint forall_from (n k : nat) (i : int) (p : nat -> int -> bool) : bool :=
  match n with
  | O => true
  | S n' => if p k i then forall_from n' (S k) (i + 1)%uint63 p else false
  end.

Definition forall_below (n : nat) (p : nat -> int -> bool) : bool :=
  forall_from n 0 0%uint63 p.

(** ** Integral numbers *)

(** [x] is the integer [z], for some [z] between [lo] and [hi]. *)
Definition is_integer_in (lo hi : Z) (x : number) : Prop :=
  exists z, (lo <= z <= hi)%Z /\ x = JS.of_Z z.

(** [round_nat x] is [Some n] when [Math.round x] is the non-negative
    integer [n], read off the definition of [Math_round]. *)
Definition round_nat (x : number) : option int :=
  if PrimFloat.Leibniz.eqb x 0 then Some 0%uint63
  else
    let (m, e) := frshiftexp x in
    if negb (Uint63.eqb e 0 || Uint63.leb (ebias + 53)%uint63 e) && negb (x <? 0)
    then Some (half_up (normfr_mantissa m) e false)
    else None.

(** A check that [Math.round x] is an integer between [0] and [bound]. *)
Definition round_le (bound : int) (x : number) : bool :=
  match round_nat x with
  | Some n => Uint63.leb n bound
  | None => false
  end.

(** The decimal numeral of a non-negative integer. *)
Definition decimal (z : Z) : string := int_string 10 z.

(** [Number_toString 10] prints the integer [k] as its decimal numeral. *)
Definition decimal_check (k : nat) (i : int) : bool :=
  String.eqb (Number_toString 10 (of_uint63 i)) (decimal (Z.of_nat k)).

(** ** The hex field *)

(** A lowercase hexadecimal digit, [[0-9a-f]]. *)
Definition lower_hex_digit (c : ascii) : bool :=
  let n := nat_of_ascii c in
  ((48 <=? n) && (n <=? 57) || (97 <=? n) && (n <=? 102))%nat.

(** The regular expression [/^#[0-9a-f]{6}$/]. *)
Definition matches_hex_pattern (s : string) : bool :=
  match s with
  | String "#" (String d1 (String d2 (String d3 (String d4 (String d5 (String d6 EmptyString)))))) =>
      forallb lower_hex_digit [d1; d2; d3; d4; d5; d6]
  | _ => false
  end.

(** [toHex] of the channel [i] is two lowercase hexadecimal digits that
    [parseInt] reads back as [i]. *)
Definition toHex_check (_ : nat) (i : int) : bool :=
  let c := of_uint63 i in
  match toHex c with
  | String d1 (String d2 EmptyString) =>
      lower_hex_digit d1 && lower_hex_digit d2
      && PrimFloat.Leibniz.eqb (parseInt16 (String d1 (String d2 EmptyString))) c
  | _ => false
  end.

(** ** Normalised channels

    [chan z] is the channel [z] divided by 255, as [calculateColorDetails]
    computes [r_], [g_] and [b_]; [chan_int] is the same on a machine
    integer. *)

Definition chan (z : Z) : number := JS.of_Z z / 255.

Definition chan_int (i : int) : number := of_uint63 i / 255.

(** The channels are ordered as the integers are, none is NaN, infinite or
    negative. *)
Definition chan_order_check (k : nat) (j : int) : bool :=
  let cj := chan_int j in
  negb (cj <? cj) && (cj =? cj) && negb (get_sign cj)
  && (neg_infinity <? cj) && (cj <? infinity) && negb (infinity <? cj)
  && forall_below k (fun _ i =>
       let ci := chan_int i in
       (ci <? cj) && negb (cj <? ci) && negb (ci =? cj) && negb (cj =? ci)).

(** ** The HSL block of [calculateColorDetails]

    The expressions of the block, as functions of the normalised channels:
    [l], the [s] of the chromatic branch, and [h / 6] for [h = n + c], where
    [n] is the quotient of one of the three branches and [c] its offset. *)

Definition lightness (max min : number) : number := (max + min) / 2.

Definition saturation (max min : number) : number :=
  if 0.5 <? (max + min) / 2 then (max - min) / (2 - max - min)
  else (max - min) / (max + min).

Definition turn (c n : number) : number := (n + c) / 6.

(** The HSL block once [max] and [min] are known to be the channels [M] and
    [m]. *)
Definition hsl_of_channels (r g b M m : Z) : HSL :=
  let hs :=
    if negb (M =? m)%Z then
      (if (M =? r)%Z
       then turn (if (g <? b)%Z then 6 else 0) ((chan g - chan b) / (chan M - chan m))
       else if (M =? g)%Z
       then turn 2 ((chan b - chan r) / (chan M - chan m))
       else turn 4 ((chan r - chan g) / (chan M - chan m)),
       saturation (chan M) (chan m))
    else (0, 0) in
  {| h := Math_round (fst hs * 360);
     s := Math_round (snd hs * 100);
     l := Math_round (lightness (chan M) (chan m) * 100) |}.

(** Saturation and lightness depend on the largest and the smallest channel
    only: one check per pair [m <= M]. *)
Definition sl_check (kM : nat) (M : int) : bool :=
  let cM := chan_int M in
  forall_below (S kM) (fun _ m =>
    let cm := chan_int m in
    round_le 100 (lightness cM cm * 100)
    && (Uint63.eqb m M || round_le 100 (saturation cM cm * 100))).

(** The hue depends on all three channels: one check per triple of a
    largest channel [mx] and two channels [x], [y] below it, not both equal
    to it, for the three offsets of the three branches. *)
Definition hue_check (kmx : nat) (mx : int) : bool :=
  let cmx := chan_int mx in
  forall_below (S kmx) (fun _ x =>
    let cx := chan_int x in
    forall_below (S kmx) (fun _ y =>
      let cy := chan_int y in
      (Uint63.eqb x mx && Uint63.eqb y mx)
      || (let n := (cx - cy) / (cmx - (if Uint63.ltb x y then cx else cy)) in
          round_le 360 (turn (if Uint63.ltb x y then 6 else 0) n * 360)
          && round_le 360 (turn 2 n * 360)
          && round_le 360 (turn 4 n * 360)))).

(** ** The CMYK block of [calculateColorDetails]

    [k = 1 - max], and [(1 - channel - k) / (1 - k) || 0]. *)

Definition key (max : number) : number := 1 - max.

Definition ink (channel k : number) : number :=
  or_else ((1 - channel - k) / (1 - k)) 0.

(** Each ink depends on its channel and on the largest channel only. *)
Definition ink_check (kM : nat) (M : int) : bool :=
  let k := key (chan_int M) in
  round_le 100 (k * 100)
  && forall_below (S kM) (fun _ x => round_le 100 (ink (chan_int x) k * 100)).

(** [k] is 1 for no largest channel but 0. *)
Definition key_one_check (_ : nat) (M : int) : bool :=
  negb (PrimFloat.Leibniz.eqb (key (chan_int M)) 1) || Uint63.eqb M 0.

(** ** The session *)

(** The colour [pickColor] reads under the pointer. *)
Definition picked (e : MouseEvent) (canvas : HTMLCanvasElement) (img : HTMLImageElement)
  : ColorData :=
  let rect := getBoundingClientRect img in
  let d := getImageData canvas
             ((clientX e - left rect) / rect_width rect * naturalWidth img)
             ((clientY e - top rect) / rect_height rect * naturalHeight img) in
  calculateColorDetails (data0 d) (data1 d) (data2 d).

(** The hex of the pixel of [img] at the normalised position [(px, py)], as
    [extractPalette] samples it. *)
Definition sample (img : HTMLImageElement) (px py : number) : string :=
  let d := bitmap img (naturalWidth img * px) (naturalHeight img * py) in
  hex (calculateColorDetails (data0 d) (data1 d) (data2 d)).

(** A [ColorData] is consistent when it is what the converter makes of its
    own [rgb] field. *)
Definition consistent (c : ColorData) : Prop :=
  c = calculateColorDetails (r (rgb c)) (g (rgb c)) (b (rgb c)).

(** An example session: an image of one colour, (16, 32, 48), shown at its
    natural size of 10 by 10 pixels, is loaded and one of its pixels is
    picked. *)
Definition example_img : HTMLImageElement :=
  {| naturalWidth := 10; naturalHeight := 10;
     getBoundingClientRect :=
       {| left := 0; top := 0; rect_width := 10; rect_height := 10 |};
     bitmap := fun _ _ => (Byte.x10, Byte.x20, Byte.x30, Byte.xff) |}.

Definition example_canvas : HTMLCanvasElement :=
  {| width := 300; height := 150; has_context := true;
     getImageData := fun _ _ => (Byte.x00, Byte.x00, Byte.x00, Byte.x00) |}.

Definition example_drawn : option HTMLCanvasElement :=
  fst (extractPalette (Some example_canvas) (Some example_img) initial_state).

Definition example_session : list Event :=
  [FileLoaded "data:image/png;base64,iVBORw0KGgo=";
   ImageOnLoad (Some example_canvas) (Some example_img);
   ImageClick {| clientX := 3; clientY := 4 |} example_drawn (Some example_img)].

(** ** Reads within the image *)

(** The point [(x, y)] lies on the bitmap of [img]: the reads of
    [getImageData] there return pixels of the image, the others transparent
    black. *)
Definition inside (img : HTMLImageElement) (x y : number) : bool :=
  (0 <=? x) && (x <? naturalWidth img) && (0 <=? y) && (y <? naturalHeight img).

(** The coordinate a sample point gives on a side of [w] pixels lies on
    that side, for the five factors of [points]. *)
Definition sample_inside (w : number) : bool :=
  forallb (fun c => (0 <=? w * c) && (w * c <? w)) [0.2; 0.3; 0.5; 0.7; 0.8].

(** [sample_inside] for the 2048 sides from [2048 * hi + 1] on. *)
Definition sizes_check (_ : nat) (hi : int) : bool :=
  forall_below 2048 (fun _ lo => sample_inside (of_uint63 (hi * 2048 + lo + 1))).

(** ** From HSL to RGB

    The expressions of [hslToRgb]: the clamped triangular wave at hue [h]
    and phase [n], the chroma [a], and a channel before rounding, from the
    lightness [l_], the chroma and the value [t] of the wave. *)

Definition wave (h n : number) : number :=
  let k := rem (n + h / 30) 12 in
  Math_max [Math_min [k - 3; 9 - k; 1]; -1].

Definition chroma (s l : number) : number :=
  s / 100 * Math_min [l / 100; 1 - l / 100].

Definition level (l_ a t : number) : number := (l_ - a * t) * 255.

(** ** From RGB back to HSL

    The round trip is decided by evaluation on machine integers.
    [hue_turns] is the [h] of the HSL block before it is scaled to degrees,
    for channels [r], [g], [b] whose largest is [M] and smallest [m], on
    machine integers. *)

Definition hue_turns (r g b M m : int) : number :=
  if Uint63.eqb M r
  then turn (if Uint63.ltb g b then 6 else 0)
            ((chan_int g - chan_int b) / (chan_int M - chan_int m))
  else if Uint63.eqb M g
  then turn 2 ((chan_int b - chan_int r) / (chan_int M - chan_int m))
  else turn 4 ((chan_int r - chan_int g) / (chan_int M - chan_int m)).

(** [n] and [x] differ by at most 1. *)
Definition near (n x : int) : bool := Uint63.leb n (x + 1) && Uint63.leb x (n + 1).

(** The hues [n <= 360] and [x] differ by at most 1 on the colour wheel:
    by at most 1, or by 359 or 360. *)
Definition near_turn (n x : int) : bool :=
  Uint63.leb n 360 && (near n x || Uint63.leb (n + 359) x || Uint63.leb (x + 359) n).

(** The three phases of the wave at each integral hue from 0 to 360. *)
Definition wave_table : list (int * (number * number * number)) :=
  Eval vm_compute in
    List.map (fun k => let i := Uint63.of_Z (Z.of_nat k) in
                       let h := of_uint63 i in (i, (wave h 0, wave h 8, wave h 4)))
             (seq 0 361).

(** The row [k] of [wave_table] is the hue [i] with its three phases. *)
Definition wave_table_check (k : nat) (i : int) : bool :=
  match nth_error wave_table k with
  | Some (j, (t0, t8, t4)) =>
      Uint63.eqb j i
      && PrimFloat.Leibniz.eqb t0 (wave (of_uint63 i) 0)
      && PrimFloat.Leibniz.eqb t8 (wave (of_uint63 i) 8)
      && PrimFloat.Leibniz.eqb t4 (wave (of_uint63 i) 4)
  | None => false
  end.

(** For a lightness [l_], a chroma [a], two integers [lo <= hi] and a row of
    the table: the three channels are integers between [lo] and [hi], one
    of them is [hi] and one is [lo], and, when [hi - lo] is at least 38,
    the hue of the three channels is near the hue of the row. *)
Definition hue_ok (l_ a : number) (lo hi : int) (row : int * (number * number * number))
  : bool :=
  let '(hue, (t0, t8, t4)) := row in
  match round_nat (level l_ a t0), round_nat (level l_ a t8), round_nat (level l_ a t4) with
  | Some n0, Some n8, Some n4 =>
      Uint63.leb lo n0 && Uint63.leb n0 hi
      && Uint63.leb lo n8 && Uint63.leb n8 hi
      && Uint63.leb lo n4 && Uint63.leb n4 hi
      && (Uint63.eqb n0 hi || Uint63.eqb n8 hi || Uint63.eqb n4 hi)
      && (Uint63.eqb n0 lo || Uint63.eqb n8 lo || Uint63.eqb n4 lo)
      && (Uint63.ltb (hi - lo) 38
          || match round_nat (hue_turns n0 n8 n4 hi lo * 360) with
             | Some n => near_turn n hue
             | None => false
             end)
  | _, _, _ => false
  end.

(** For a saturation [s] and a lightness [l]: the channel of the wave value
    [1] is an integer [lo], that of [-1] an integer [hi] with
    [lo <= hi <= 255], the lightness of [hi] and [lo] is [l], their
    saturation is near [s] when [hi - lo] is at least 56, and [hue_ok] holds
    at every hue of the table. *)
Definition roundtrip_ok (s l : int) : bool :=
  let l_ := of_uint63 l / 100 in
  let a := chroma (of_uint63 s) (of_uint63 l) in
  match round_nat (level l_ a 1), round_nat (level l_ a (-1)) with
  | Some lo, Some hi =>
      Uint63.leb lo hi && Uint63.leb hi 255
      && PrimFloat.Leibniz.eqb
           (Math_round (lightness (chan_int hi) (chan_int lo) * 100)) (of_uint63 l)
      && (Uint63.ltb (hi - lo) 56
          || match round_nat (saturation (chan_int hi) (chan_int lo) * 100) with
             | Some n => near n s
             | None => false
             end)
      && forallb (hue_ok l_ a lo hi) wave_table
  | _, _ => false
  end.

(** * Definitions for the further properties *)

(** ** Well-formed colours

    The values the interface can show: channels from 0 to 255, a hue
    within the range of the hue slider, saturation and lightness within
    the range of theirs, and a hex string that names the channels. *)

Definition valid_rgb (c : RGB) : Prop :=
  is_integer_in 0 255 (r c) /\ is_integer_in 0 255 (g c) /\ is_integer_in 0 255 (b c).

Definition valid_hsl (c : HSL) : Prop :=
  is_integer_in 0 360 (h c) /\ is_integer_in 0 100 (s c) /\ is_integer_in 0 100 (l c).

Definition valid_color (c : ColorData) : Prop :=
  valid_rgb (rgb c) /\ valid_hsl (hsl c)
  /\ matches_hex_pattern (hex c) = true
  /\ parseInt16 (slice 1 3 (hex c)) = r (rgb c)
  /\ parseInt16 (slice 3 5 (hex c)) = g (rgb c)
  /\ parseInt16 (slice 5 7 (hex c)) = b (rgb c).

(** The hex string the converter makes of three channels from 0 to 255. *)
Definition pixel_hex (x : string) : Prop :=
  exists r g b : Z,
    (0 <= r <= 255)%Z /\ (0 <= g <= 255)%Z /\ (0 <= b <= 255)%Z
    /\ x = hex (calculateColorDetails (JS.of_Z r) (JS.of_Z g) (JS.of_Z b)).

(** What an [<input type="range">] with the bounds of the three sliders can
    report: an integer from [min="0"] to [max="360"] for the hue, to
    [max="100"] for saturation and lightness. *)
Definition slider_ok (ev : Event) : Prop :=
  match ev with
  | HueSlider v => is_integer_in 0 360 v
  | SaturationSlider v | LightnessSlider v => is_integer_in 0 100 v
  | _ => True
  end.

(** The lists of swatches a session can hold. *)
Definition swatches_ok (st : State) : Prop :=
  Forall pixel_hex (history st) /\ NoDup (history st)
  /\ (List.length (history st) <= 12)%nat
  /\ Forall pixel_hex (palette st)
  /\ (palette st = [] \/ List.length (palette st) = 5%nat).

(** An event that finds no canvas to read: a ref is still [null], or
    [getContext('2d')] yields none. *)
Definition no_canvas (ev : Event) : Prop :=
  match ev with
  | ImageOnLoad canvas img | ImageClick _ canvas img =>
      match canvas, img with
      | Some canvas, Some _ => has_context canvas = false
      | _, _ => True
      end
  | _ => True
  end.

(** ** Colours without chroma

    [grey l] is the channel [hslToRgb] gives to the lightness [l] when the
    chroma is 0. *)

Definition grey (l : number) : number := Math_round (l / 100 * 255).

(** The chroma is 0 at saturation 0, at lightness 0 and at lightness 100. *)
Definition chroma_zero_check (_ : nat) (i : int) : bool :=
  let x := of_uint63 i in
  PrimFloat.Leibniz.eqb (chroma 0 x) 0
  && PrimFloat.Leibniz.eqb (chroma x 0) 0
  && PrimFloat.Leibniz.eqb (chroma x 100) 0.

(** At the lightness [l] and chroma 0, every phase of the wave at every hue
    of the table gives the same channel, an integer up to 255, and the
    converter reads the lightness [l] off that grey. *)
Definition grey_check (_ : nat) (l : int) : bool :=
  let l_ := of_uint63 l / 100 in
  match round_nat (l_ * 255) with
  | Some v =>
      Uint63.leb v 255
      && PrimFloat.Leibniz.eqb
           (Math_round (lightness (chan_int v) (chan_int v) * 100)) (of_uint63 l)
      && forallb (fun row : int * (number * number * number) =>
                    let '(_, (t0, t8, t4)) := row in
                    PrimFloat.Leibniz.eqb (level l_ 0 t0) (l_ * 255)
                    && PrimFloat.Leibniz.eqb (level l_ 0 t8) (l_ * 255)
                    && PrimFloat.Leibniz.eqb (level l_ 0 t4) (l_ * 255)) wave_table
  | None => false
  end.

(** ** The ink of the largest channel *)

Definition max_ink_check (_ : nat) (M : int) : bool :=
  PrimFloat.Leibniz.eqb (ink (chan_int M) (key (chan_int M))) 0.

(** ** The two branches of [getL] *)

(** The channel [c] takes the linear branch if and only if it is at most
    10. *)
Definition linear_check (_ : nat) (c : int) : bool :=
  Bool.eqb (of_uint63 c / 255 <=? 0.03928) (Uint63.leb c 10).

(** The colours of channels up to 10 are dark, whatever [Math.pow]. *)
Definition dark_check (_ : nat) (r : int) : bool :=
  forall_below 11 (fun _ g =>
    forall_below 11 (fun _ b =>
      luminance (fun _ _ => 0)
        {| r := of_uint63 r; g := of_uint63 g; b := of_uint63 b |} <? 0.5)).

(** ** Handlers and renders

    A handler is a closure of the render that created it: what it reads of
    [image], [colorData], [palette] and [history] is the state of that
    render, while the updater it hands to [setHistory] receives the state
    the updates queued before it have produced.  [pickColor] and [step]
    above take the two states to be the same, every event being handled
    after the re-render the previous one caused.  [pickColor_on] and
    [step_on] keep them apart: [rendered] is the state of the render whose
    handlers run, [st] the state the queued updates have produced so far. *)
Definition pickColor_on (rendered : State) (e : MouseEvent)
    (canvas : option HTMLCanvasElement) (img : option HTMLImageElement)
    (st : State) : State :=
  match canvas, img with
  | Some canvas, Some img =>
      let rect := getBoundingClientRect img in
      let x := ((clientX e - left rect) / rect_width rect) * naturalWidth img in
      let y := ((clientY e - top rect) / rect_height rect) * naturalHeight img in
      if has_context canvas then
        let data := getImageData canvas x y in
        let result := calculateColorDetails (data0 data) (data1 data) (data2 data) in
        let st' := setColorData result st in
        if negb (includes (hex result) (history rendered))
        then setHistory (fun prev => firstn 12 (hex result :: prev)) st'
        else st'
      else st
  | _, _ => st
  end.

Definition step_on (rendered st : State) (ev : Event) : State :=
  match ev with
  | FileLoaded dataUrl => setImage (Some dataUrl) st
  | KeyDown key =>
      if String.eqb key "Escape" && truthy (image rendered) then setImage None st else st
  | RestartProject => setImage None st
  | ResetProject => setImage None st
  | ImageOnLoad canvas img => snd (extractPalette canvas img st)
  | ImageClick e canvas img => pickColor_on rendered e canvas img st
  | PaletteSwatch i =>
      match nth_error (palette rendered) i with
      | Some hex => swatchClick hex st
      | None => st
      end
  | HistorySwatch i =>
      match nth_error (history rendered) i with
      | Some hex => swatchClick hex st
      | None => st
      end
  | HueSlider v =>
      updateFromHSL v (s (hsl (colorData rendered))) (l (hsl (colorData rendered))) st
  | SaturationSlider v =>
      updateFromHSL (h (hsl (colorData rendered))) v (l (hsl (colorData rendered))) st
  | LightnessSlider v =>
      updateFromHSL (h (hsl (colorData rendered))) (s (hsl (colorData rendered))) v st
  end.

(** The events handled by the handlers of the render of [st], before the
    next render. *)
Definition batch (st : State) (evs : list Event) : State :=
  fold_left (step_on st) evs st.

(** A session as a list of such batches, with a render after each. *)
Definition run_batches (st : State) (batches : list (list Event)) : State :=
  fold_left batch batches st.

(** A history of at most 12 hex strings of pixels. *)
Definition history_ok (st : State) : Prop :=
  Forall pixel_hex (history st) /\ (List.length (history st) <= 12)%nat.

(** ** Loading an image

    [handlePaste] reads the items of the clipboard in turn and hands every
    file of an item whose type contains "image" to a [FileReader] of its
    own; the [onload] of each reader is a [FileLoaded] event.  A file is
    identified with the data URL its reader yields.  [handlePaste] is
    given the [items] of [e.clipboardData], if any, and returns the files
    it starts to read, in the order of the items. *)

(** [String.prototype.indexOf]. *)
Definition indexOf (s searchString : string) : Z :=
  match index 0 searchString s with
  | Some n => Z.of_nat n
  | None => (-1)%Z
  end.

Record DataTransferItem := { type : string; getAsFile : option string }.

Definition handlePaste (items : option (list DataTransferItem)) : list string :=
  match items with
  | None => []
  | Some items =>
      flat_map (fun item =>
                  if negb (indexOf (type item) "image" =? -1)%Z
                  then match getAsFile item with
                       | Some blob => [blob]
                       | None => []
                       end
                  else [])
               items
  end.

(** The [onChange] of the file input: the first of the chosen files, if any,
    is handed to a [FileReader]. *)
Definition fileInputChange (files : option (list string)) : list string :=
  match files with
  | Some (file :: _) => [file]
  | _ => []
  end.

(** ** Lightness and the channels *)

Definition member (t : number) (ts : list number) : bool :=
  existsb (PrimFloat.Leibniz.eqb t) ts.

Fixpoint dedup (xs : list number) : list number :=
  match xs with
  | [] => []
  | x :: xs' => if member x xs' then dedup xs' else x :: dedup xs'
  end.

(** The values the wave takes in [wave_table]. *)
Definition wave_values : list number :=
  Eval vm_compute in
    dedup (flat_map (fun row : int * (number * number * number) =>
                       let '(_, (t0, t8, t4)) := row in [t0; t8; t4])
                    wave_table).

Definition wave_values_check (row : int * (number * number * number)) : bool :=
  let '(_, (t0, t8, t4)) := row in
  member t0 wave_values && member t8 wave_values && member t4 wave_values.

(** The channel of the wave value [t] at saturation [s] and lightness [l],
    when it is a non-negative integer. *)
Definition channel (s l : int) (t : number) : option int :=
  round_nat (level (of_uint63 l / 100) (chroma (of_uint63 s) (of_uint63 l)) t).

(** At saturation [s], for every value of the wave, the channel does not
    go down from a lightness to the next, and stays at most 255. *)
Definition lightness_step_check (_ : nat) (s : int) : bool :=
  forallb (fun t =>
    forall_below 100 (fun _ l =>
      match channel s l t, channel s (l + 1) t with
      | Some n, Some n' => Uint63.leb n n' && Uint63.leb n' 255
      | _, _ => false
      end)) wave_values.

(** ** Saturation and the channels *)

(** At lightness [l], the channel of the wave value [-1] does not go down,
    and that of the wave value [1] does not go up, from a saturation to the
    next. *)
Definition saturation_step_check (_ : nat) (l : int) : bool :=
  forall_below 100 (fun _ s =>
    match channel s l (-1), channel (s + 1) l (-1), channel s l 1, channel (s + 1) l 1 with
    | Some hi, Some hi', Some lo, Some lo' => Uint63.leb hi hi' && Uint63.leb lo' lo
    | _, _, _, _ => false
    end).

(** ** The sector of the hue

    A degree count within bounds. *)
Definition round_between (lo hi : int) (x : number) : bool :=
  match round_nat x with
  | Some n => Uint63.leb lo n && Uint63.leb n hi
  | None => false
  end.

(** For a largest channel [mx] and two channels [x], [y] below it, not both
    equal to it: the hue of the first branch ([mx] red, [x] green, [y]
    blue) is within 60 degrees of red, on the side of the larger of green
    and blue; that of the second ([mx] green, [x] blue, [y] red, red not
    largest) is within 60 degrees of green; that of the third ([mx] blue,
    [x] red, [y] green, neither largest) within 60 degrees of blue. *)
Definition hue_sector_check (kmx : nat) (mx : int) : bool :=
  let cmx := chan_int mx in
  forall_below (S kmx) (fun _ x =>
    let cx := chan_int x in
    forall_below (S kmx) (fun _ y =>
      let cy := chan_int y in
      (Uint63.eqb x mx && Uint63.eqb y mx)
      || (let n := (cx - cy) / (cmx - (if Uint63.ltb x y then cx else cy)) in
          (if Uint63.ltb x y then round_between 300 360 (turn 6 n * 360)
           else round_between 0 60 (turn 0 n * 360))
          && (Uint63.eqb y mx || round_between 60 180 (turn 2 n * 360))
          && (Uint63.eqb x mx || Uint63.eqb y mx
              || round_between 180 300 (turn 4 n * 360))))).

(** ** Binary64 rounding

    JavaScript numbers are IEEE 754 binary64 values; [Prim2SF] gives the
    sign, mantissa and exponent of one, and [SFadd], [SFmul] and [SFdiv]
    specify [+], [*] and [/].  The definitions below serve to bound the
    results of these operations. *)

Section Binary64.

Local Open Scope Z_scope.

(** The number of binary digits of a mantissa. *)
Definition digits (m : positive) : Z := Z.pos (digits2_pos m).

(** Whether bits were lost in the right shifts of a mantissa. *)
Definition inexact (x : shr_record) : bool := shr_r x || shr_s x.

(** The result of rounding a positive value whose mantissa, once shifted
    to the exponent [e], is [m] (at most [2 ^ 53]). *)
Definition pack (m e : Z) : spec_float :=
  if m =? 0 then S754_zero false
  else if m <? 2 ^ 53 then
    if e <=? 971 then S754_finite false (Z.to_pos m) e else S754_infinity false
  else
    if e + 1 <=? 971 then S754_finite false (Z.to_pos (2 ^ 52)) (e + 1)
    else S754_infinity false.

(** A non-negative finite binary64 value. *)
Inductive ranged : spec_float -> Prop :=
| ranged_zero (s : bool) : ranged (S754_zero s)
| ranged_finite (m : positive) (e : Z) :
    bounded prec emax m e = true -> ranged (S754_finite false m e).

(** The value of a non-negative finite binary64 number, in units of
    [2 ^ -1074]. *)
Definition weightSF (x : spec_float) : Z :=
  match x with
  | S754_finite false m e => Z.pos m * 2 ^ (e + 1074)
  | _ => 0
  end.

(** The same for a JavaScript number. *)
Definition weight (x : float) : Z := weightSF (Prim2SF x).

End Binary64.

(** The linear branch of [getL] and the argument it gives [Math.pow] both
    lie between 0 and 1, for the channel [c]. *)
Definition unit_check (_ : nat) (c : int) : bool :=
  let s := of_uint63 c / 255 in
  (0 <=? s / 12.92) && (s / 12.92 <=? 1)
  && (0 <=? (s + 0.055) / 1.055) && ((s + 0.055) / 1.055 <=? 1).

(** * Verification *)

(** [split_andb H] splits the boolean conjunction [H] into its conjuncts and
    turns each [negb b = true] into [b = false]. *)
Ltac split_andb H :=
  repeat (apply andb_prop in H as [H ?]);
  repeat match goal with
         | H' : negb _ = true |- _ => apply negb_true_iff in H'
         end.

(** ** Exhaustive checks over integer ranges *)

Lemma int_add_succ (i : int) (j : nat) :
  (i + 1 + Uint63.of_Z (Z.of_nat j))%uint63 = (i + Uint63.of_Z (Z.of_nat (S j)))%uint63.
Proof.
  apply Uint63.to_Z_inj.
  rewrite !Uint63.add_spec, !Uint63.of_Z_spec.
  rewrite Z.add_mod_idemp_l, Z.add_mod_idemp_r, Z.add_mod_idemp_r
    by (compute; discriminate).
  f_equal. rewrite Nat2Z.inj_succ.
  change (Uint63.to_Z 1) with 1%Z. lia.
Qed.

Lemma int_add_zero (i : int) : (i + Uint63.of_Z 0)%uint63 = i.
Proof.
  apply Uint63.to_Z_inj.
  rewrite Uint63.add_spec, Uint63.of_Z_spec.
  rewrite Z.add_mod_idemp_r by (compute; discriminate).
  rewrite Z.add_0_r.
  apply Z.mod_small, Uint63.to_Z_bounded.
Qed.

Lemma forall_from_spec (p : nat -> int -> bool) :
  forall n k i, forall_from n k i p = true ->
  forall j, (j < n)%nat -> p (k + j)%nat (i + Uint63.of_Z (Z.of_nat j))%uint63 = true.
Proof.
  induction n as [|n IH]; intros k i H j Hj; [lia|].
  simpl in H. destruct (p k i) eqn:Hp; [|discriminate].
  destruct j as [|j].
  - rewrite Nat.add_0_r. simpl Z.of_nat. now rewrite int_add_zero.
  - rewrite <- int_add_succ, <- plus_n_Sm.
    apply (IH (S k) (i + 1)%uint63 H j). lia.
Qed.

Lemma forall_below_spec (n : nat) (p : nat -> int -> bool) :
  forall_below n p = true ->
  forall z, (0 <= z < Z.of_nat n)%Z -> p (Z.to_nat z) (Uint63.of_Z z) = true.
Proof.
  intros H z Hz.
  pose proof (forall_from_spec p n 0%nat 0%uint63 H (Z.to_nat z)) as Hs.
  rewrite Z2Nat.id in Hs by lia. simpl in Hs.
  replace (0 + Uint63.of_Z z)%uint63 with (Uint63.of_Z z) in Hs.
  - apply Hs. lia.
  - apply Uint63.to_Z_inj.
    rewrite Uint63.add_spec, Uint63.of_Z_spec.
    change (Uint63.to_Z 0) with 0%Z. now rewrite Z.add_0_l, Z.mod_mod.
Qed.

Lemma of_Z_nonneg (z : Z) : (0 <= z)%Z -> JS.of_Z z = of_uint63 (Uint63.of_Z z).
Proof.
  intros Hz. unfold JS.of_Z.
  destruct (Z.ltb_spec z 0); [lia | reflexivity].
Qed.

Lemma float_eq (x y : float) : PrimFloat.Leibniz.eqb x y = true -> x = y.
Proof. apply FloatAxioms.Leibniz.eqb_spec. Qed.

(** ** The hex field *)

Lemma toHex_sweep : forall_below 256 toHex_check = true.
Proof. vm_compute. reflexivity. Qed.

Lemma toHex_channel (z : Z) :
  (0 <= z <= 255)%Z ->
  exists d1 d2,
    toHex (JS.of_Z z) = String d1 (String d2 EmptyString)
    /\ lower_hex_digit d1 = true /\ lower_hex_digit d2 = true
    /\ parseInt16 (String d1 (String d2 EmptyString)) = JS.of_Z z.
Proof.
  intros Hz.
  pose proof (forall_below_spec 256 toHex_check toHex_sweep z ltac:(lia)) as H.
  rewrite of_Z_nonneg by lia.
  unfold toHex_check in H.
  destruct (toHex (of_uint63 (Uint63.of_Z z))) as [|d1 [|d2 [|? ?]]]; try discriminate.
  apply andb_prop in H as [H H3]. apply andb_prop in H as [H1 H2].
  exists d1, d2. repeat split; auto using float_eq.
Qed.

(** The hex string of three channels, and its decoding. *)
Lemma hex_of_channels (r g b : Z) :
  (0 <= r <= 255)%Z -> (0 <= g <= 255)%Z -> (0 <= b <= 255)%Z ->
  exists r1 r2 g1 g2 b1 b2,
    toHex (JS.of_Z r) = String r1 (String r2 EmptyString)
    /\ toHex (JS.of_Z g) = String g1 (String g2 EmptyString)
    /\ toHex (JS.of_Z b) = String b1 (String b2 EmptyString)
    /\ forallb lower_hex_digit [r1; r2; g1; g2; b1; b2] = true
    /\ parseInt16 (String r1 (String r2 EmptyString)) = JS.of_Z r
    /\ parseInt16 (String g1 (String g2 EmptyString)) = JS.of_Z g
    /\ parseInt16 (String b1 (String b2 EmptyString)) = JS.of_Z b.
Proof.
  intros Hr Hg Hb.
  destruct (toHex_channel r Hr) as (r1 & r2 & Er & Hr1 & Hr2 & Pr).
  destruct (toHex_channel g Hg) as (g1 & g2 & Eg & Hg1 & Hg2 & Pg).
  destruct (toHex_channel b Hb) as (b1 & b2 & Eb & Hb1 & Hb2 & Pb).
  exists r1, r2, g1, g2, b1, b2.
  cbn [forallb]. rewrite Hr1, Hr2, Hg1, Hg2, Hb1, Hb2.
  repeat split; assumption.
Qed.

(** What a swatch click reads back from the hex string of three channels. *)
Lemma hex_decode (r g b : Z) :
  (0 <= r <= 255)%Z -> (0 <= g <= 255)%Z -> (0 <= b <= 255)%Z ->
  let hex := hex (calculateColorDetails (JS.of_Z r) (JS.of_Z g) (JS.of_Z b)) in
  parseInt16 (slice 1 3 hex) = JS.of_Z r
  /\ parseInt16 (slice 3 5 hex) = JS.of_Z g
  /\ parseInt16 (slice 5 7 hex) = JS.of_Z b.
Proof.
  intros Hr Hg Hb.
  destruct (hex_of_channels r g b Hr Hg Hb)
    as (r1 & r2 & g1 & g2 & b1 & b2 & Er & Eg & Eb & _ & Pr & Pg & Pb).
  cbv zeta. unfold calculateColorDetails, hex. rewrite Er, Eg, Eb.
  cbn [append slice substring Nat.sub]. repeat split; assumption.
Qed.

(** C1. For channels in [0, 255] the [hex] field is [#] followed by six
    lowercase hexadecimal digits, two per channel, seven characters in all,
    and reading the three pairs back with [parseInt(hex.slice(i, i + 2), 16)]
    gives the channels again. *)
Theorem hex_roundtrip (r g b : Z) :
  (0 <= r <= 255)%Z -> (0 <= g <= 255)%Z -> (0 <= b <= 255)%Z ->
  let hex := hex (calculateColorDetails (JS.of_Z r) (JS.of_Z g) (JS.of_Z b)) in
  String.length hex = 7%nat
  /\ matches_hex_pattern hex = true
  /\ hex = "#" ++ toHex (JS.of_Z r) ++ toHex (JS.of_Z g) ++ toHex (JS.of_Z b)
  /\ String.length (toHex (JS.of_Z r)) = 2%nat
  /\ String.length (toHex (JS.of_Z g)) = 2%nat
  /\ String.length (toHex (JS.of_Z b)) = 2%nat
  /\ parseInt16 (slice 1 3 hex) = JS.of_Z r
  /\ parseInt16 (slice 3 5 hex) = JS.of_Z g
  /\ parseInt16 (slice 5 7 hex) = JS.of_Z b.
Proof.
  intros Hr Hg Hb.
  pose proof (hex_decode r g b Hr Hg Hb) as Hd.
  destruct (hex_of_channels r g b Hr Hg Hb)
    as (r1 & r2 & g1 & g2 & b1 & b2 & Er & Eg & Eb & Hdig & _).
  cbv zeta in Hd |- *. revert Hd.
  unfold calculateColorDetails, hex. rewrite Er, Eg, Eb.
  cbn [append String.length matches_hex_pattern]. rewrite Hdig.
  intros (Pr & Pg & Pb). repeat split; assumption.
Qed.

Lemma hex_roundtrip_witness :
  let hex := hex (calculateColorDetails (JS.of_Z 99) (JS.of_Z 102) (JS.of_Z 241)) in
  String.length hex = 7%nat
  /\ matches_hex_pattern hex = true
  /\ hex = "#" ++ toHex (JS.of_Z 99) ++ toHex (JS.of_Z 102) ++ toHex (JS.of_Z 241)
  /\ String.length (toHex (JS.of_Z 99)) = 2%nat
  /\ String.length (toHex (JS.of_Z 102)) = 2%nat
  /\ String.length (toHex (JS.of_Z 241)) = 2%nat
  /\ parseInt16 (slice 1 3 hex) = JS.of_Z 99
  /\ parseInt16 (slice 3 5 hex) = JS.of_Z 102
  /\ parseInt16 (slice 5 7 hex) = JS.of_Z 241.
Proof. apply (hex_roundtrip 99 102 241); lia. Defined.

(** ** Integral results of [Math.round] *)

Lemma round_nat_spec (x : number) (n : int) :
  round_nat x = Some n -> Math_round x = of_uint63 n.
Proof.
  unfold round_nat. destruct (PrimFloat.Leibniz.eqb x 0) eqn:E0.
  - apply float_eq in E0. subst x. intros [= <-]. reflexivity.
  - unfold Math_round. destruct (frshiftexp x) as [m e].
    destruct (Uint63.eqb e 0 || Uint63.leb (ebias + 53)%uint63 e); [discriminate|].
    destruct (x <? 0); [discriminate|].
    cbn [negb andb]. now intros [= <-].
Qed.

Lemma of_uint63_of_Z (n : int) : of_uint63 n = JS.of_Z (Uint63.to_Z n).
Proof.
  rewrite of_Z_nonneg by apply Uint63.to_Z_bounded.
  now rewrite Uint63.of_to_Z.
Qed.

Lemma round_le_spec (bound : int) (x : number) :
  round_le bound x = true ->
  is_integer_in 0 (Uint63.to_Z bound) (Math_round x).
Proof.
  unfold round_le. destruct (round_nat x) as [n|] eqn:E; [|discriminate].
  intros Hb. apply Uint63.leb_spec in Hb.
  exists (Uint63.to_Z n). split.
  - pose proof (Uint63.to_Z_bounded n). lia.
  - rewrite (round_nat_spec _ _ E). apply of_uint63_of_Z.
Qed.

(** ** Normalised channels *)

Lemma chan_int_of_Z (z : Z) : (0 <= z)%Z -> chan_int (Uint63.of_Z z) = chan z.
Proof. intros Hz. unfold chan, chan_int. now rewrite of_Z_nonneg. Qed.

Lemma to_Z_of_Z_small (z : Z) : (0 <= z <= 255)%Z -> Uint63.to_Z (Uint63.of_Z z) = z.
Proof.
  intros Hz. rewrite Uint63.of_Z_spec. apply Z.mod_small.
  split; [lia|]. apply Z.le_lt_trans with 255%Z; [lia | reflexivity].
Qed.

Lemma chan_order_sweep : forall_below 256 chan_order_check = true.
Proof. vm_compute. reflexivity. Qed.

Lemma chan_diag (z : Z) :
  (0 <= z <= 255)%Z ->
  (chan z <? chan z) = false /\ (chan z =? chan z) = true
  /\ get_sign (chan z) = false
  /\ (neg_infinity <? chan z) = true /\ (chan z <? infinity) = true
  /\ (infinity <? chan z) = false.
Proof.
  intros Hz.
  pose proof (forall_below_spec 256 _ chan_order_sweep z ltac:(lia)) as H.
  unfold chan_order_check in H. rewrite chan_int_of_Z in H by lia.
  split_andb H. repeat split; assumption.
Qed.

Lemma chan_lt (i j : Z) :
  (0 <= i < j)%Z -> (j <= 255)%Z ->
  (chan i <? chan j) = true /\ (chan j <? chan i) = false
  /\ (chan i =? chan j) = false /\ (chan j =? chan i) = false.
Proof.
  intros Hi Hj.
  pose proof (forall_below_spec 256 _ chan_order_sweep j ltac:(lia)) as H.
  unfold chan_order_check in H. rewrite chan_int_of_Z in H by lia.
  apply andb_prop in H as [_ H].
  pose proof (forall_below_spec _ _ H i ltac:(lia)) as H'.
  cbv beta zeta in H'. rewrite chan_int_of_Z in H' by lia.
  split_andb H'. repeat split; assumption.
Qed.

Lemma chan_ltb (i j : Z) :
  (0 <= i <= 255)%Z -> (0 <= j <= 255)%Z -> (chan i <? chan j) = (i <? j)%Z.
Proof.
  intros Hi Hj. destruct (Z.ltb_spec i j) as [L | L].
  - now apply chan_lt.
  - destruct (Z.eq_dec i j) as [-> | N].
    + now apply chan_diag.
    + apply (chan_lt j i); lia.
Qed.

Lemma chan_eqb (i j : Z) :
  (0 <= i <= 255)%Z -> (0 <= j <= 255)%Z -> (chan i =? chan j) = (i =? j)%Z.
Proof.
  intros Hi Hj. destruct (Z.eqb_spec i j) as [-> | N].
  - now apply chan_diag.
  - destruct (Z.lt_ge_cases i j).
    + apply (chan_lt i j); lia.
    + apply (chan_lt j i); lia.
Qed.

Lemma Math_max2_chan (i j : Z) :
  (0 <= i <= 255)%Z -> (0 <= j <= 255)%Z ->
  Math_max2 (chan i) (chan j) = chan (Z.max i j).
Proof.
  intros Hi Hj. unfold Math_max2.
  rewrite !chan_ltb, chan_eqb by lia.
  destruct (chan_diag i Hi) as (_ & _ & -> & _ & _ & _).
  destruct (Z.ltb_spec i j); [f_equal; lia|].
  destruct (Z.ltb_spec j i); [f_equal; lia|].
  destruct (Z.eqb_spec i j); [f_equal; lia | lia].
Qed.

Lemma Math_min2_chan (i j : Z) :
  (0 <= i <= 255)%Z -> (0 <= j <= 255)%Z ->
  Math_min2 (chan i) (chan j) = chan (Z.min i j).
Proof.
  intros Hi Hj. unfold Math_min2.
  rewrite !chan_ltb, chan_eqb by lia.
  destruct (chan_diag i Hi) as (_ & _ & -> & _ & _ & _).
  destruct (Z.ltb_spec i j); [f_equal; lia|].
  destruct (Z.ltb_spec j i); [f_equal; lia|].
  destruct (Z.eqb_spec i j); [f_equal; lia | lia].
Qed.

Lemma Math_max_chan (i j k : Z) :
  (0 <= i <= 255)%Z -> (0 <= j <= 255)%Z -> (0 <= k <= 255)%Z ->
  Math_max [chan i; chan j; chan k] = chan (Z.max (Z.max i j) k).
Proof.
  intros Hi Hj Hk. unfold Math_max. cbn [fold_left].
  replace (Math_max2 neg_infinity (chan i)) with (chan i).
  - rewrite !Math_max2_chan by lia. reflexivity.
  - unfold Math_max2. now destruct (chan_diag i Hi) as (_ & _ & _ & -> & _ & _).
Qed.

Lemma Math_min_chan (i j k : Z) :
  (0 <= i <= 255)%Z -> (0 <= j <= 255)%Z -> (0 <= k <= 255)%Z ->
  Math_min [chan i; chan j; chan k] = chan (Z.min (Z.min i j) k).
Proof.
  intros Hi Hj Hk. unfold Math_min. cbn [fold_left].
  replace (Math_min2 infinity (chan i)) with (chan i).
  - rewrite !Math_min2_chan by lia. reflexivity.
  - unfold Math_min2.
    now destruct (chan_diag i Hi) as (_ & _ & _ & _ & -> & ->).
Qed.

(** ** The HSL block of [calculateColorDetails] *)

Lemma hsl_calculateColorDetails (r g b : Z) :
  (0 <= r <= 255)%Z -> (0 <= g <= 255)%Z -> (0 <= b <= 255)%Z ->
  hsl (calculateColorDetails (JS.of_Z r) (JS.of_Z g) (JS.of_Z b))
  = hsl_of_channels r g b (Z.max (Z.max r g) b) (Z.min (Z.min r g) b).
Proof.
  intros Hr Hg Hb.
  unfold calculateColorDetails. cbn [hsl]. cbv zeta.
  change (JS.of_Z r / 255) with (chan r).
  change (JS.of_Z g / 255) with (chan g).
  change (JS.of_Z b / 255) with (chan b).
  rewrite Math_max_chan, Math_min_chan by lia.
  rewrite !chan_eqb, chan_ltb by lia.
  unfold hsl_of_channels, turn, saturation, lightness.
  destruct (negb _); [|reflexivity].
  destruct (_ =? r)%Z; [reflexivity|].
  destruct (_ =? g)%Z; reflexivity.
Qed.

Lemma sl_sweep : forall_below 256 sl_check = true.
Proof. vm_compute. reflexivity. Qed.

Lemma sl_range (M m : Z) :
  (0 <= m <= M)%Z -> (M <= 255)%Z ->
  is_integer_in 0 100 (Math_round (lightness (chan M) (chan m) * 100))
  /\ (m <> M -> is_integer_in 0 100 (Math_round (saturation (chan M) (chan m) * 100))).
Proof.
  intros Hm HM.
  pose proof (forall_below_spec 256 _ sl_sweep M ltac:(lia)) as H.
  unfold sl_check in H. rewrite chan_int_of_Z in H by lia.
  pose proof (forall_below_spec _ _ H m ltac:(lia)) as H'.
  cbv beta zeta in H'. rewrite chan_int_of_Z in H' by lia.
  apply andb_prop in H' as [Hl Hs]. split.
  - exact (round_le_spec _ _ Hl).
  - intros N. apply orb_prop in Hs as [E | Hs].
    + apply Uint63.eqb_spec in E. apply (f_equal Uint63.to_Z) in E.
      rewrite !to_Z_of_Z_small in E by lia. contradiction.
    + exact (round_le_spec _ _ Hs).
Qed.

Lemma hue_sweep : forall_below 256 hue_check = true.
Proof. vm_compute. reflexivity. Qed.

Lemma hue_range (mx x y : Z) :
  (0 <= x <= mx)%Z -> (0 <= y <= mx)%Z -> (mx <= 255)%Z -> (Z.min x y < mx)%Z ->
  let n := (chan x - chan y) / (chan mx - chan (Z.min x y)) in
  is_integer_in 0 360 (Math_round (turn (if (x <? y)%Z then 6 else 0) n * 360))
  /\ is_integer_in 0 360 (Math_round (turn 2 n * 360))
  /\ is_integer_in 0 360 (Math_round (turn 4 n * 360)).
Proof.
  intros Hx Hy Hmx Hmin.
  pose proof (forall_below_spec 256 _ hue_sweep mx ltac:(lia)) as H.
  unfold hue_check in H. rewrite chan_int_of_Z in H by lia.
  pose proof (forall_below_spec _ _ H x ltac:(lia)) as H1.
  cbv beta zeta in H1. rewrite chan_int_of_Z in H1 by lia.
  pose proof (forall_below_spec _ _ H1 y ltac:(lia)) as H2.
  cbv beta zeta in H2. rewrite chan_int_of_Z in H2 by lia.
  clear H H1.
  assert (Hlt : Uint63.ltb (Uint63.of_Z x) (Uint63.of_Z y) = (x <? y)%Z).
  { destruct (Z.ltb_spec x y) as [L | L].
    - apply Uint63.ltb_spec. rewrite !to_Z_of_Z_small by lia. exact L.
    - apply not_true_is_false. intros C. apply Uint63.ltb_spec in C.
      rewrite !to_Z_of_Z_small in C by lia. lia. }
  rewrite Hlt in H2.
  apply orb_prop in H2 as [E | H2].
  - apply andb_prop in E as [Ex Ey].
    apply Uint63.eqb_spec in Ex. apply (f_equal Uint63.to_Z) in Ex.
    apply Uint63.eqb_spec in Ey. apply (f_equal Uint63.to_Z) in Ey.
    rewrite !to_Z_of_Z_small in Ex, Ey by lia. lia.
  - replace (chan (Z.min x y)) with (if (x <? y)%Z then chan x else chan y)
      by (destruct (Z.ltb_spec x y); f_equal; lia).
    apply andb_prop in H2 as [H2 H4]. apply andb_prop in H2 as [H0 H2].
    cbv zeta. repeat split; apply (round_le_spec 360); assumption.
Qed.

(** C3, amended. For channels in [0, 255] the hue is an integer in
    [0, 360], the bound 360 included, and saturation and lightness are
    integers in [0, 100]. *)
Theorem hsl_ranges (r g b : Z) :
  (0 <= r <= 255)%Z -> (0 <= g <= 255)%Z -> (0 <= b <= 255)%Z ->
  let c := hsl (calculateColorDetails (JS.of_Z r) (JS.of_Z g) (JS.of_Z b)) in
  is_integer_in 0 360 (h c) /\ is_integer_in 0 100 (s c) /\ is_integer_in 0 100 (l c).
Proof.
  intros Hr Hg Hb. cbv zeta.
  rewrite hsl_calculateColorDetails by assumption.
  remember (Z.max (Z.max r g) b) as M eqn:EM.
  remember (Z.min (Z.min r g) b) as m eqn:Em.
  assert (HmM : (0 <= m <= M)%Z /\ (M <= 255)%Z) by lia.
  destruct (sl_range M m) as [Hl Hs]; [lia | lia |].
  unfold hsl_of_channels. cbn [h s l].
  destruct (Z.eqb_spec M m) as [E | N]; cbn [negb fst snd].
  - repeat split; [exists 0%Z; split; [lia | reflexivity] .. | exact Hl].
  - split; [| split; [apply Hs; congruence | exact Hl]].
    destruct (Z.eqb_spec M r) as [Er | Nr].
    + replace m with (Z.min g b) by lia. rewrite Er.
      apply (hue_range r g b); lia.
    + destruct (Z.eqb_spec M g) as [Eg | Ng].
      * replace m with (Z.min b r) by lia. rewrite Eg.
        apply (hue_range g b r); lia.
      * replace m with (Z.min r g) by lia. replace M with b by lia.
        apply (hue_range b r g); lia.
Qed.

Lemma hsl_ranges_witness :
  let c := hsl (calculateColorDetails (JS.of_Z 255) (JS.of_Z 0) (JS.of_Z 1)) in
  is_integer_in 0 360 (h c) /\ is_integer_in 0 100 (s c) /\ is_integer_in 0 100 (l c).
Proof. apply (hsl_ranges 255 0 1); lia. Defined.

(** C3 as stated fails: the hue of RGB (255, 0, 1) is 360, which is not
    below 360. *)
Lemma hue_reaches_360 :
  let c := hsl (calculateColorDetails (JS.of_Z 255) (JS.of_Z 0) (JS.of_Z 1)) in
  h c = 360 /\ (h c <? 360) = false.
Proof. vm_compute. split; reflexivity. Qed.

(** ** The CMYK block of [calculateColorDetails] *)

Lemma cmyk_calculateColorDetails (r g b : Z) :
  (0 <= r <= 255)%Z -> (0 <= g <= 255)%Z -> (0 <= b <= 255)%Z ->
  cmyk (calculateColorDetails (JS.of_Z r) (JS.of_Z g) (JS.of_Z b))
  = let k := key (chan (Z.max (Z.max r g) b)) in
    Number_toString 10 (Math_round (ink (chan r) k * 100)) ++ ", "
    ++ Number_toString 10 (Math_round (ink (chan g) k * 100)) ++ ", "
    ++ Number_toString 10 (Math_round (ink (chan b) k * 100)) ++ ", "
    ++ Number_toString 10 (Math_round (k * 100)).
Proof.
  intros Hr Hg Hb.
  unfold calculateColorDetails. cbn [cmyk]. cbv zeta.
  change (JS.of_Z r / 255) with (chan r).
  change (JS.of_Z g / 255) with (chan g).
  change (JS.of_Z b / 255) with (chan b).
  rewrite Math_max_chan by lia.
  reflexivity.
Qed.

Lemma decimal_sweep : forall_below 101 decimal_check = true.
Proof. vm_compute. reflexivity. Qed.

Lemma Number_toString_decimal (z : Z) :
  (0 <= z <= 100)%Z -> Number_toString 10 (JS.of_Z z) = decimal z.
Proof.
  intros Hz.
  pose proof (forall_below_spec 101 _ decimal_sweep z ltac:(lia)) as H.
  unfold decimal_check in H. rewrite Z2Nat.id in H by lia.
  rewrite of_Z_nonneg by lia. now apply String.eqb_eq.
Qed.

Lemma ink_sweep : forall_below 256 ink_check = true.
Proof. vm_compute. reflexivity. Qed.

Lemma ink_range (M x : Z) :
  (0 <= x <= M)%Z -> (M <= 255)%Z ->
  is_integer_in 0 100 (Math_round (key (chan M) * 100))
  /\ is_integer_in 0 100 (Math_round (ink (chan x) (key (chan M)) * 100)).
Proof.
  intros Hx HM.
  pose proof (forall_below_spec 256 _ ink_sweep M ltac:(lia)) as H.
  unfold ink_check in H. rewrite chan_int_of_Z in H by lia.
  apply andb_prop in H as [Hk H].
  pose proof (forall_below_spec _ _ H x ltac:(lia)) as H'.
  cbv beta in H'. rewrite chan_int_of_Z in H' by lia.
  split; apply (round_le_spec 100); assumption.
Qed.

Lemma key_one_sweep : forall_below 256 key_one_check = true.
Proof. vm_compute. reflexivity. Qed.

Lemma key_one (M : Z) : (0 <= M <= 255)%Z -> key (chan M) = 1 -> M = 0%Z.
Proof.
  intros HM E.
  pose proof (forall_below_spec 256 _ key_one_sweep M ltac:(lia)) as H.
  unfold key_one_check in H. rewrite chan_int_of_Z, E in H by lia.
  cbn in H. apply Uint63.eqb_spec in H. apply (f_equal Uint63.to_Z) in H.
  now rewrite to_Z_of_Z_small in H by lia.
Qed.

(** C7. For channels in [0, 255] the [cmyk] string is the four decimal
    numerals of [Math.round] of 100 times [(1 - channel - K) / (1 - K) || 0]
    and [K], each an integer in [0, 100], where [K] is 1 minus the largest
    channel over 255; when [K = 1], that is for black, the three quotients
    are replaced by 0 and the string is "0, 0, 0, 100". *)
Theorem cmyk_components (r g b : Z) :
  (0 <= r <= 255)%Z -> (0 <= g <= 255)%Z -> (0 <= b <= 255)%Z ->
  let K := 1 - Math_max [JS.of_Z r / 255; JS.of_Z g / 255; JS.of_Z b / 255] in
  let quotient := fun channel : Z => (1 - JS.of_Z channel / 255 - K) / (1 - K) in
  (exists c m y k : Z,
      (0 <= c <= 100)%Z /\ (0 <= m <= 100)%Z /\ (0 <= y <= 100)%Z /\ (0 <= k <= 100)%Z
      /\ cmyk (calculateColorDetails (JS.of_Z r) (JS.of_Z g) (JS.of_Z b))
         = decimal c ++ ", " ++ decimal m ++ ", " ++ decimal y ++ ", " ++ decimal k
      /\ JS.of_Z c = Math_round (or_else (quotient r) 0 * 100)
      /\ JS.of_Z m = Math_round (or_else (quotient g) 0 * 100)
      /\ JS.of_Z y = Math_round (or_else (quotient b) 0 * 100)
      /\ JS.of_Z k = Math_round (K * 100))
  /\ K = 1 - JS.of_Z (Z.max (Z.max r g) b) / 255
  /\ (K = 1 ->
      or_else (quotient r) 0 = 0 /\ or_else (quotient g) 0 = 0
      /\ or_else (quotient b) 0 = 0
      /\ cmyk (calculateColorDetails (JS.of_Z r) (JS.of_Z g) (JS.of_Z b))
         = "0, 0, 0, 100")
  /\ cmyk (calculateColorDetails 0 0 0) = "0, 0, 0, 100".
Proof.
  intros Hr Hg Hb. cbv beta zeta.
  change (JS.of_Z r / 255) with (chan r).
  change (JS.of_Z g / 255) with (chan g).
  change (JS.of_Z b / 255) with (chan b).
  rewrite Math_max_chan by lia.
  fold (key (chan (Z.max (Z.max r g) b))).
  fold (ink (chan r) (key (chan (Z.max (Z.max r g) b)))).
  fold (ink (chan g) (key (chan (Z.max (Z.max r g) b)))).
  fold (ink (chan b) (key (chan (Z.max (Z.max r g) b)))).
  remember (Z.max (Z.max r g) b) as M eqn:EM.
  split; [| split; [reflexivity | split]].
  - destruct (ink_range M r) as [(k & Hk & Ek) (c & Hc & Ec)]; [lia | lia |].
    destruct (ink_range M g) as [_ (m & Hm & Emg)]; [lia | lia |].
    destruct (ink_range M b) as [_ (y & Hy & Ey)]; [lia | lia |].
    exists c, m, y, k.
    rewrite cmyk_calculateColorDetails by assumption. cbv zeta.
    rewrite <- EM, Ec, Emg, Ey, Ek.
    rewrite !Number_toString_decimal by assumption.
    repeat split; try lia; reflexivity.
  - intros E. apply key_one in E; [| lia].
    assert (r = 0%Z) by lia. assert (g = 0%Z) by lia. assert (b = 0%Z) by lia.
    subst r g b M. vm_compute. repeat split; reflexivity.
  - vm_compute. reflexivity.
Qed.

Lemma cmyk_components_witness :
  exists c m y k : Z,
    (0 <= c <= 100)%Z /\ (0 <= m <= 100)%Z /\ (0 <= y <= 100)%Z /\ (0 <= k <= 100)%Z
    /\ cmyk (calculateColorDetails (JS.of_Z 99) (JS.of_Z 102) (JS.of_Z 241))
       = decimal c ++ ", " ++ decimal m ++ ", " ++ decimal y ++ ", " ++ decimal k.
Proof.
  destruct (cmyk_components 99 102 241) as [(c & m & y & k & H) _]; try lia.
  exists c, m, y, k. intuition.
Defined.

(** ** Rounding of binary64 arithmetic *)

Section Rounding.

Local Open Scope Z_scope.

Lemma digits_bounds (m : positive) : 2 ^ (digits m - 1) <= Z.pos m < 2 ^ digits m.
Proof.
  unfold digits. induction m as [m IH | m IH |]; cbn [digits2_pos].
  - rewrite Pos2Z.inj_succ, (Pos2Z.inj_xI m).
    replace (Z.succ (Z.pos (digits2_pos m)) - 1) with (Z.succ (Z.pos (digits2_pos m) - 1)) by lia.
    rewrite !Z.pow_succ_r by lia.
    revert IH. generalize (2 ^ (Z.pos (digits2_pos m) - 1)) (2 ^ Z.pos (digits2_pos m)). lia.
  - rewrite Pos2Z.inj_succ, (Pos2Z.inj_xO m).
    replace (Z.succ (Z.pos (digits2_pos m)) - 1) with (Z.succ (Z.pos (digits2_pos m) - 1)) by lia.
    rewrite !Z.pow_succ_r by lia.
    revert IH. generalize (2 ^ (Z.pos (digits2_pos m) - 1)) (2 ^ Z.pos (digits2_pos m)). lia.
  - cbn. lia.
Qed.

Lemma digits_pos (m : positive) : 1 <= digits m.
Proof. unfold digits. lia. Qed.

Lemma digits_le (m : positive) (d : Z) : Z.pos m < 2 ^ d -> digits m <= d.
Proof.
  intros H. pose proof (digits_bounds m) as [L _]. pose proof (digits_pos m).
  destruct (Z.le_gt_cases 0 d) as [D | D].
  - assert (2 ^ (digits m - 1) < 2 ^ d) as P by lia.
    apply Z.pow_lt_mono_r_iff in P; lia.
  - rewrite Z.pow_neg_r in H by lia. lia.
Qed.

Lemma digits_ge (m : positive) (d : Z) : 2 ^ (d - 1) <= Z.pos m -> d <= digits m.
Proof.
  intros H. pose proof (digits_bounds m) as [_ U]. pose proof (digits_pos m).
  destruct (Z.le_gt_cases 1 d) as [D | D]; [| lia].
  assert (2 ^ (d - 1) < 2 ^ digits m) as P by lia.
  apply Z.pow_lt_mono_r_iff in P; lia.
Qed.

Lemma fexp_eq (e : Z) : fexp prec emax e = Z.max (e - 53) (-1074).
Proof. reflexivity. Qed.

Lemma shr_1_spec (x : shr_record) :
  0 <= shr_m x ->
  shr_m (shr_1 x) = shr_m x / 2
  /\ inexact (shr_1 x) = inexact x || Z.odd (shr_m x).
Proof.
  destruct x as [m r s]. cbn [shr_m]. intros H. unfold inexact.
  destruct m as [| [p | p |] | p]; cbn [shr_1 shr_m shr_r shr_s]; try lia.
  - split; [reflexivity | destruct r, s; reflexivity].
  - split; [| destruct r, s; reflexivity].
    rewrite (Pos2Z.inj_xI p). apply Z.div_unique with (r := 1); lia.
  - split; [| destruct r, s; reflexivity].
    rewrite (Pos2Z.inj_xO p). apply Z.div_unique with (r := 0); lia.
  - split; [reflexivity | destruct r, s; reflexivity].
Qed.

Lemma mod_mul_zero (m a b : Z) :
  0 < a -> 0 < b ->
  negb (m mod (a * b) =? 0) = negb (m mod a =? 0) || negb ((m / a) mod b =? 0).
Proof.
  intros A B. rewrite Z.rem_mul_r by lia.
  pose proof (Z.mod_pos_bound m a A). pose proof (Z.mod_pos_bound (m / a) b B).
  destruct (Z.eqb_spec (m mod a) 0) as [E | E];
    destruct (Z.eqb_spec ((m / a) mod b) 0) as [E' | E']; cbn.
  - rewrite E, E'. replace (0 + a * 0) with 0 by lia. reflexivity.
  - apply negb_true_iff, Z.eqb_neq. nia.
  - apply negb_true_iff, Z.eqb_neq. nia.
  - apply negb_true_iff, Z.eqb_neq. nia.
Qed.

Lemma iter_shr_1 (p : positive) : forall x : shr_record,
  0 <= shr_m x ->
  shr_m (iter_pos shr_1 p x) = shr_m x / 2 ^ Z.pos p
  /\ inexact (iter_pos shr_1 p x) = inexact x || negb (shr_m x mod 2 ^ Z.pos p =? 0).
Proof.
  induction p as [p IH | p IH |]; intros x Hx; cbn [iter_pos].
  - destruct (shr_1_spec x Hx) as [M1 I1].
    assert (H1 : 0 <= shr_m (shr_1 x)) by (rewrite M1; apply Z.div_pos; lia).
    destruct (IH _ H1) as [M2 I2].
    assert (H2 : 0 <= shr_m (iter_pos shr_1 p (shr_1 x)))
      by (rewrite M2; apply Z.div_pos; lia).
    destruct (IH _ H2) as [M3 I3].
    assert (P : 0 < 2 ^ Z.pos p) by (apply Z.pow_pos_nonneg; lia).
    rewrite (Pos2Z.inj_xI p).
    replace (2 * Z.pos p + 1) with (1 + (Z.pos p + Z.pos p)) by lia.
    rewrite !Z.pow_add_r by lia. change (2 ^ 1) with 2.
    split.
    + rewrite M3, M2, M1. rewrite !Z.div_div by lia. reflexivity.
    + rewrite I3, I2, I1, M2, M1.
      rewrite (mod_mul_zero (shr_m x) 2 (2 ^ Z.pos p * 2 ^ Z.pos p)) by lia.
      rewrite (mod_mul_zero (shr_m x / 2) (2 ^ Z.pos p) (2 ^ Z.pos p)) by lia.
      rewrite Zmod_odd. destruct (Z.odd (shr_m x)); cbn; rewrite <- ?orb_assoc; reflexivity.
  - destruct (IH _ Hx) as [M2 I2].
    assert (H2 : 0 <= shr_m (iter_pos shr_1 p x))
      by (rewrite M2; apply Z.div_pos; lia).
    destruct (IH _ H2) as [M3 I3].
    assert (P : 0 < 2 ^ Z.pos p) by (apply Z.pow_pos_nonneg; lia).
    rewrite (Pos2Z.inj_xO p).
    replace (2 * Z.pos p) with (Z.pos p + Z.pos p) by lia.
    rewrite !Z.pow_add_r by lia.
    split.
    + rewrite M3, M2. rewrite !Z.div_div by lia. reflexivity.
    + rewrite I3, I2, M2.
      rewrite (mod_mul_zero (shr_m x) (2 ^ Z.pos p) (2 ^ Z.pos p)) by lia.
      rewrite <- ?orb_assoc. reflexivity.
  - destruct (shr_1_spec x Hx) as [M1 I1]. change (2 ^ 1) with 2.
    split; [exact M1|]. rewrite I1, Zmod_odd. destruct (Z.odd (shr_m x)); reflexivity.
Qed.

Lemma loc_roundtrip (m : Z) (l : location) :
  loc_of_shr_record (shr_record_of_loc m l) = l.
Proof. destruct l as [| []]; reflexivity. Qed.

Lemma shr_m_of_loc (m : Z) (l : location) : shr_m (shr_record_of_loc m l) = m.
Proof. destruct l as [| []]; reflexivity. Qed.

Lemma loc_exact_of_inexact (y : shr_record) :
  inexact y = false -> loc_of_shr_record y = loc_Exact.
Proof. destruct y as [m [] []]; cbn; congruence. Qed.

Lemma shr_fexp_spec (m e : Z) (l : location) :
  0 <= m -> e <= fexp prec emax (Zdigits2 m + e) ->
  exists y,
    shr_fexp prec emax m e l = (y, fexp prec emax (Zdigits2 m + e))
    /\ shr_m y = m / 2 ^ (fexp prec emax (Zdigits2 m + e) - e)
    /\ (l = loc_Exact -> m mod 2 ^ (fexp prec emax (Zdigits2 m + e) - e) = 0 ->
        loc_of_shr_record y = loc_Exact).
Proof.
  intros Hm He. unfold shr_fexp.
  set (f := fexp prec emax (Zdigits2 m + e)) in *.
  unfold shr. destruct (f - e) as [| p | p] eqn:E; try lia.
  - exists (shr_record_of_loc m l). replace f with e by lia.
    split; [reflexivity|]. rewrite shr_m_of_loc. change (2 ^ 0) with 1.
    rewrite Z.div_1_r. split; [reflexivity|]. intros -> _. reflexivity.
  - exists (iter_pos shr_1 p (shr_record_of_loc m l)).
    replace (e + Z.pos p) with f by lia. split; [reflexivity|].
    destruct (iter_shr_1 p (shr_record_of_loc m l)) as [M I].
    { rewrite shr_m_of_loc. exact Hm. }
    rewrite shr_m_of_loc in M, I. split; [exact M|].
    intros -> Hz. apply loc_exact_of_inexact. rewrite I, Hz. reflexivity.
Qed.

Lemma shr_fexp_id (m e : Z) (l : location) :
  fexp prec emax (Zdigits2 m + e) <= e ->
  shr_fexp prec emax m e l = (shr_record_of_loc m l, e).
Proof.
  intros H. unfold shr_fexp, shr.
  destruct (fexp prec emax (Zdigits2 m + e) - e) eqn:E; try lia; reflexivity.
Qed.

Lemma round_nearest_even_bounds (m : Z) (l : location) :
  m <= round_nearest_even m l <= m + 1.
Proof.
  destruct l as [| []]; cbn [round_nearest_even]; try lia.
  destruct (Z.even m); lia.
Qed.

Lemma binary_round_aux_pack (m : positive) (e : Z) (l : location) :
  e <= fexp prec emax (digits m + e) ->
  exists m2,
    Z.pos m / 2 ^ (fexp prec emax (digits m + e) - e) <= m2
    /\ m2 <= Z.pos m / 2 ^ (fexp prec emax (digits m + e) - e) + 1
    /\ m2 <= 2 ^ 53
    /\ (l = loc_Exact -> Z.pos m mod 2 ^ (fexp prec emax (digits m + e) - e) = 0 ->
        m2 = Z.pos m / 2 ^ (fexp prec emax (digits m + e) - e))
    /\ binary_round_aux prec emax false (Z.pos m) e l
       = pack m2 (fexp prec emax (digits m + e)).
Proof.
  intros He.
  destruct (shr_fexp_spec (Z.pos m) e l ltac:(lia) He) as (y & Hy & My & Ly).
  change (Zdigits2 (Z.pos m)) with (digits m) in Hy, My, Ly.
  set (f := fexp prec emax (digits m + e)) in *.
  assert (Hf : -1074 <= f /\ digits m + e - 53 <= f)
    by (unfold f; rewrite fexp_eq; lia).
  set (m1 := Z.pos m / 2 ^ (f - e)) in *.
  assert (P : 0 < 2 ^ (f - e)) by (apply Z.pow_pos_nonneg; lia).
  assert (B1 : 0 <= m1 < 2 ^ 53).
  { split; [apply Z.div_pos; lia|].
    apply Z.div_lt_upper_bound; [exact P|].
    rewrite <- Z.pow_add_r by lia.
    pose proof (digits_bounds m) as [_ U]. pose proof (digits_pos m).
    eapply Z.lt_le_trans; [exact U|]. apply Z.pow_le_mono_r; lia. }
  exists (round_nearest_even (shr_m y) (loc_of_shr_record y)).
  pose proof (round_nearest_even_bounds (shr_m y) (loc_of_shr_record y)) as R.
  rewrite My in *. 
  split; [lia|]. split; [lia|]. split; [lia|]. split.
  { intros El Hz. rewrite (Ly El Hz). reflexivity. }
  unfold binary_round_aux. rewrite Hy, My.
  set (m2 := round_nearest_even m1 (loc_of_shr_record y)) in *.
  unfold pack.
  destruct (Z.eqb_spec m2 0) as [E0 | E0].
  - rewrite E0. rewrite shr_fexp_id by (cbn [Zdigits2]; rewrite fexp_eq; lia).
    reflexivity.
  - destruct (Z.ltb_spec m2 (2 ^ 53)) as [Lt | Ge].
    + destruct m2 as [| q | q] eqn:Em2; try lia.
      rewrite shr_fexp_id.
      * cbn [shr_record_of_loc shr_m Z.to_pos]. reflexivity.
      * change (Zdigits2 (Z.pos q)) with (digits q). rewrite fexp_eq.
        pose proof (digits_le q 53 Lt). lia.
    + assert (E : m2 = 2 ^ 53) by lia. rewrite E.
      destruct (shr_fexp_spec (2 ^ 53) f loc_Exact ltac:(lia)) as (y2 & Hy2 & My2 & _).
      { rewrite fexp_eq. change (Zdigits2 (2 ^ 53)) with 54. lia. }
      change (Zdigits2 (2 ^ 53)) with 54 in Hy2, My2.
      replace (fexp prec emax (54 + f)) with (f + 1) in Hy2, My2
        by (rewrite fexp_eq; lia).
      replace (f + 1 - f) with 1 in My2 by lia.
      rewrite Hy2, My2. reflexivity.
Qed.

Lemma bounded_spec (m : positive) (e : Z) :
  bounded prec emax m e = true ->
  -1074 <= e <= 971 /\ digits m <= 53 /\ (-1074 < e -> digits m = 53)
  /\ fexp prec emax (digits m + e) = e.
Proof.
  unfold bounded, canonical_mantissa. intros H.
  apply andb_true_iff in H as [C B]. apply Z.eqb_eq in C. apply Z.leb_le in B.
  fold (digits m) in C. change (emax - prec) with 971 in B.
  pose proof C as C'. rewrite fexp_eq in C'. lia.
Qed.

Lemma value_digits (m1 m2 : positive) (e1 e2 k : Z) :
  k <= e1 -> k <= e2 ->
  Z.pos m1 * 2 ^ (e1 - k) <= Z.pos m2 * 2 ^ (e2 - k) ->
  digits m1 + e1 <= digits m2 + e2.
Proof.
  intros K1 K2 H.
  pose proof (digits_bounds m1) as [L1 _]. pose proof (digits_bounds m2) as [_ U2].
  pose proof (digits_pos m1). pose proof (digits_pos m2).
  assert (P1 : 0 < 2 ^ (e1 - k)) by (apply Z.pow_pos_nonneg; lia).
  assert (P2 : 0 < 2 ^ (e2 - k)) by (apply Z.pow_pos_nonneg; lia).
  assert (A : 2 ^ (digits m1 - 1 + (e1 - k)) < 2 ^ (digits m2 + (e2 - k))).
  { rewrite !Z.pow_add_r by lia.
    apply Z.le_lt_trans with (Z.pos m1 * 2 ^ (e1 - k)).
    - apply Z.mul_le_mono_nonneg_r; lia.
    - eapply Z.le_lt_trans; [exact H|]. apply Z.mul_lt_mono_pos_r; lia. }
  apply Z.pow_lt_mono_r_iff in A; lia.
Qed.

Lemma pack_nonneg (m e : Z) : 0 <= m -> SFleb (S754_zero false) (pack m e) = true.
Proof.
  intros H. unfold pack.
  destruct (m =? 0); [reflexivity|].
  destruct (m <? 2 ^ 53); [destruct (e <=? 971) | destruct (e + 1 <=? 971)]; reflexivity.
Qed.

Lemma SFleb_finite (m1 m2 : positive) (e1 e2 : Z) :
  e1 < e2 \/ (e1 = e2 /\ Z.pos m1 <= Z.pos m2) ->
  SFleb (S754_finite false m1 e1) (S754_finite false m2 e2) = true.
Proof.
  intros H. unfold SFleb, SFcompare.
  destruct (Z.compare_spec e1 e2) as [E | E | E]; [| reflexivity | lia].
  change (Pos.compare_cont Eq m1 m2) with (Pos.compare m1 m2).
  destruct (Pos.compare_spec m1 m2); try reflexivity. lia.
Qed.

Lemma SFleb_pack_lower (mt : positive) (et m2 f : Z) :
  0 < m2 ->
  et < f \/ (et = f /\ Z.pos mt <= m2) ->
  SFleb (S754_finite false mt et) (pack m2 f) = true.
Proof.
  intros P H. unfold pack.
  destruct (Z.eqb_spec m2 0); [lia|].
  destruct (m2 <? 2 ^ 53).
  - destruct (f <=? 971); [| reflexivity].
    apply SFleb_finite. rewrite Z2Pos.id by lia. lia.
  - destruct (f + 1 <=? 971); [| reflexivity].
    apply SFleb_finite. lia.
Qed.

Lemma SFleb_pack_upper (mt : positive) (et m2 f : Z) :
  et <= 971 -> 0 <= m2 <= 2 ^ 53 ->
  (f = et /\ m2 <= Z.pos mt /\ m2 < 2 ^ 53)
  \/ (f < et /\ (f + 1 = et -> 2 ^ 52 <= Z.pos mt)) ->
  SFleb (pack m2 f) (S754_finite false mt et) = true.
Proof.
  intros B R H. unfold pack.
  destruct (Z.eqb_spec m2 0); [reflexivity|].
  destruct (Z.ltb_spec m2 (2 ^ 53)).
  - destruct (Z.leb_spec f 971); [| lia].
    apply SFleb_finite. rewrite Z2Pos.id by lia. lia.
  - destruct (Z.leb_spec (f + 1) 971); [| lia].
    apply SFleb_finite. rewrite Z2Pos.id by lia. lia.
Qed.

(** Rounding is above every representable value below the exact one. *)
Lemma round_lower (m : positive) (e : Z) (l : location) (mt : positive) (et k : Z) :
  e <= fexp prec emax (digits m + e) ->
  bounded prec emax mt et = true ->
  k <= e -> k <= et ->
  Z.pos mt * 2 ^ (et - k) <= Z.pos m * 2 ^ (e - k) ->
  SFleb (S754_finite false mt et) (binary_round_aux prec emax false (Z.pos m) e l) = true.
Proof.
  intros He Bt Ke Kt V.
  destruct (binary_round_aux_pack m e l He) as (m2 & L2 & _ & _ & _ & ->).
  destruct (bounded_spec _ _ Bt) as (Et & Dt & Nt & Ct).
  pose proof (value_digits _ _ _ _ _ Kt Ke V) as D.
  set (f := fexp prec emax (digits m + e)) in *.
  assert (Hf : -1074 <= f /\ digits m + e - 53 <= f
               /\ (-1074 < f -> f = digits m + e - 53))
    by (unfold f; rewrite fexp_eq; lia).
  assert (F : et <= f) by (rewrite <- Ct; unfold f; rewrite !fexp_eq; lia).
  assert (P : 0 < 2 ^ (f - e)) by (apply Z.pow_pos_nonneg; lia).
  assert (Pk : 0 < 2 ^ (e - k)) by (apply Z.pow_pos_nonneg; lia).
  destruct (Z.eq_dec et f) as [E | E].
  - assert (M : Z.pos mt <= Z.pos m / 2 ^ (f - e)).
    { apply Z.div_le_lower_bound; [exact P|].
      assert (Ep : 2 ^ (et - k) = 2 ^ (f - e) * 2 ^ (e - k))
        by (rewrite <- Z.pow_add_r by lia; f_equal; lia).
      rewrite Ep in V.
      apply (Z.mul_le_mono_pos_r _ _ (2 ^ (e - k)) Pk).
      revert V. generalize (2 ^ (f - e)) (2 ^ (e - k)). intros; nia. }
    apply SFleb_pack_lower; lia.
  - assert (M : 2 ^ 52 <= Z.pos m / 2 ^ (f - e)).
    { apply Z.div_le_lower_bound; [exact P|].
      rewrite <- Z.pow_add_r by lia.
      replace (f - e + 52) with (digits m - 1) by lia.
      apply digits_bounds. }
    apply SFleb_pack_lower; lia.
Qed.

(** Rounding is below every representable value above the exact one. *)
Lemma round_upper (m : positive) (e : Z) (mt : positive) (et k : Z) :
  e <= fexp prec emax (digits m + e) ->
  bounded prec emax mt et = true ->
  k <= e -> k <= et ->
  Z.pos m * 2 ^ (e - k) <= Z.pos mt * 2 ^ (et - k) ->
  SFleb (binary_round_aux prec emax false (Z.pos m) e loc_Exact) (S754_finite false mt et)
  = true.
Proof.
  intros He Bt Ke Kt V.
  destruct (binary_round_aux_pack m e loc_Exact He) as (m2 & L2 & U2 & B2 & X2 & ->).
  destruct (bounded_spec _ _ Bt) as (Et & Dt & Nt & Ct).
  pose proof (value_digits _ _ _ _ _ Ke Kt V) as D.
  set (f := fexp prec emax (digits m + e)) in *.
  assert (Hf : -1074 <= f /\ digits m + e - 53 <= f)
    by (unfold f; rewrite fexp_eq; lia).
  assert (F : f <= et) by (rewrite <- Ct; unfold f; rewrite !fexp_eq; lia).
  assert (P : 0 < 2 ^ (f - e)) by (apply Z.pow_pos_nonneg; lia).
  assert (Pk : 0 < 2 ^ (e - k)) by (apply Z.pow_pos_nonneg; lia).
  assert (N2 : 0 <= Z.pos m / 2 ^ (f - e)) by (apply Z.div_pos; lia).
  pose proof (digits_bounds mt) as [Lt Ut].
  apply SFleb_pack_upper; [lia | lia |].
  destruct (Z.eq_dec f et) as [E | E]; [left | right].
  - split; [exact E|].
    assert (Mt : Z.pos mt < 2 ^ 53).
    { eapply Z.lt_le_trans; [exact Ut|]. apply Z.pow_le_mono_r; lia. }
    assert (A : Z.pos m <= Z.pos mt * 2 ^ (f - e)).
    { assert (Ep : 2 ^ (et - k) = 2 ^ (f - e) * 2 ^ (e - k))
        by (rewrite <- Z.pow_add_r by lia; f_equal; lia).
      rewrite Ep in V.
      apply (Z.mul_le_mono_pos_r _ _ (2 ^ (e - k)) Pk).
      revert V. generalize (2 ^ (f - e)) (2 ^ (e - k)). intros; nia. }
    pose proof (Z.div_mod (Z.pos m) (2 ^ (f - e)) ltac:(lia)) as DM.
    pose proof (Z.mod_pos_bound (Z.pos m) (2 ^ (f - e)) P) as MB.
    destruct (Z.eq_dec (Z.pos m mod 2 ^ (f - e)) 0) as [Hz | NZ].
    + rewrite (X2 eq_refl Hz). split; [| nia]. nia.
    + assert (Z.pos m / 2 ^ (f - e) < Z.pos mt) by nia. lia.
  - split; [lia|]. intros E1.
    assert (digits mt = 53) by lia.
    replace 52 with (digits mt - 1) by lia. exact Lt.
Qed.

Lemma weightSF_nonneg (x : spec_float) : 0 <= weightSF x.
Proof.
  destruct x as [| | | [] m e]; cbn [weightSF]; try lia.
  all: apply Z.mul_nonneg_nonneg; [lia | apply Z.pow_nonneg; lia].
Qed.

Lemma weightSF_pos (m : positive) (e : Z) :
  -1074 <= e -> 0 < weightSF (S754_finite false m e).
Proof.
  intros H. cbn [weightSF]. apply Z.mul_pos_pos; [lia | apply Z.pow_pos_nonneg; lia].
Qed.

Lemma SFleb_zero_pack (s : bool) (m e : Z) : SFleb (S754_zero s) (pack m e) = true.
Proof.
  unfold pack. destruct (m =? 0); [reflexivity|].
  destruct (m <? 2 ^ 53); [destruct (e <=? 971) | destruct (e + 1 <=? 971)]; reflexivity.
Qed.

Lemma SFleb_finite_inv (m1 m2 : positive) (e1 e2 : Z) :
  SFleb (S754_finite false m1 e1) (S754_finite false m2 e2) = true ->
  e1 < e2 \/ (e1 = e2 /\ Z.pos m1 <= Z.pos m2).
Proof.
  unfold SFleb, SFcompare.
  destruct (Z.compare_spec e1 e2) as [E | E | E]; [| lia | discriminate].
  change (Pos.compare_cont Eq m1 m2) with (Pos.compare m1 m2).
  destruct (Pos.compare_spec m1 m2); try discriminate; lia.
Qed.

Lemma SFleb_weight (m1 m2 : positive) (e1 e2 : Z) :
  bounded prec emax m1 e1 = true -> bounded prec emax m2 e2 = true ->
  SFleb (S754_finite false m1 e1) (S754_finite false m2 e2) = true ->
  Z.pos m1 * 2 ^ (e1 + 1074) <= Z.pos m2 * 2 ^ (e2 + 1074).
Proof.
  intros B1 B2 H. apply SFleb_finite_inv in H.
  destruct (bounded_spec _ _ B1) as (E1 & D1 & N1 & _).
  destruct (bounded_spec _ _ B2) as (E2 & D2 & N2 & _).
  destruct H as [H | [-> H]].
  - pose proof (digits_bounds m1) as [_ U1]. pose proof (digits_bounds m2) as [L2 _].
    rewrite (N2 ltac:(lia)) in L2. change (53 - 1) with 52 in L2.
    assert (U : Z.pos m1 < 2 ^ 53).
    { eapply Z.lt_le_trans; [exact U1|]. apply Z.pow_le_mono_r; lia. }
    assert (P1 : 0 < 2 ^ (e1 + 1074)) by (apply Z.pow_pos_nonneg; lia).
    assert (P2 : 0 < 2 ^ (e2 + 1074)) by (apply Z.pow_pos_nonneg; lia).
    apply Z.le_trans with (2 ^ 53 * 2 ^ (e1 + 1074)).
    { apply Z.mul_le_mono_nonneg_r; lia. }
    apply Z.le_trans with (2 ^ 52 * 2 ^ (e2 + 1074)).
    { rewrite <- !Z.pow_add_r by lia. apply Z.pow_le_mono_r; lia. }
    apply Z.mul_le_mono_nonneg_r; lia.
  - apply Z.mul_le_mono_nonneg_r; [apply Z.pow_nonneg; lia | exact H].
Qed.

Lemma weight_SFleb (m1 m2 : positive) (e1 e2 : Z) :
  bounded prec emax m1 e1 = true -> bounded prec emax m2 e2 = true ->
  Z.pos m1 * 2 ^ (e1 + 1074) <= Z.pos m2 * 2 ^ (e2 + 1074) ->
  SFleb (S754_finite false m1 e1) (S754_finite false m2 e2) = true.
Proof.
  intros B1 B2 H.
  destruct (bounded_spec _ _ B1) as (E1 & D1 & N1 & C1).
  destruct (bounded_spec _ _ B2) as (E2 & D2 & N2 & C2).
  replace (e1 + 1074) with (e1 - (-1074)) in H by lia.
  replace (e2 + 1074) with (e2 - (-1074)) in H by lia.
  pose proof (value_digits m1 m2 e1 e2 (-1074) ltac:(lia) ltac:(lia) H) as D.
  assert (F : e1 <= e2) by (rewrite fexp_eq in C1, C2; lia).
  apply SFleb_finite.
  destruct (Z.eq_dec e1 e2) as [E | E]; [right | left; lia].
  split; [exact E|]. subst e2.
  assert (P : 0 < 2 ^ (e1 - -1074)) by (apply Z.pow_pos_nonneg; lia).
  apply (Z.mul_le_mono_pos_r _ _ _ P). exact H.
Qed.

Lemma ranged_SFleb (x y : spec_float) :
  ranged x -> ranged y -> weightSF x <= weightSF y -> SFleb x y = true.
Proof.
  intros [sx | mx ex Bx] [sy | my ey By] H; cbn [weightSF] in H.
  - reflexivity.
  - reflexivity.
  - pose proof (weightSF_pos mx ex ltac:(apply (bounded_spec _ _ Bx))) as P.
    cbn [weightSF] in P. lia.
  - now apply weight_SFleb.
Qed.

Lemma SFleb_ranged (x y : spec_float) :
  ranged x -> ranged y -> SFleb x y = true -> weightSF x <= weightSF y.
Proof.
  intros [sx | mx ex Bx] [sy | my ey By] H.
  - cbn. lia.
  - apply weightSF_nonneg.
  - discriminate.
  - now apply SFleb_weight.
Qed.

Lemma ranged_of_bounds (x hi : float) :
  ranged (Prim2SF hi) -> (0 <=? x)%float = true -> (x <=? hi)%float = true ->
  ranged (Prim2SF x).
Proof.
  intros Rh L U. rewrite FloatAxioms.leb_spec in L, U.
  change (Prim2SF 0) with (S754_zero false) in L.
  pose proof (FloatAxioms.Prim2SF_valid x) as V.
  destruct (Prim2SF x) as [s | [] | | [] m e]; try discriminate.
  - constructor.
  - destruct Rh; discriminate.
  - constructor. exact V.
Qed.

Lemma leb_weight (x y : float) :
  ranged (Prim2SF x) -> ranged (Prim2SF y) -> (x <=? y)%float = true ->
  weight x <= weight y.
Proof. intros Rx Ry H. rewrite FloatAxioms.leb_spec in H. now apply SFleb_ranged. Qed.

Lemma pos_iter_xO (d m : positive) : Z.pos (Pos.iter xO m d) = Z.pos m * 2 ^ Z.pos d.
Proof.
  induction d as [| d IH] using Pos.peano_ind.
  - cbn [Pos.iter]. rewrite (Pos2Z.inj_xO m). change (2 ^ 1) with 2. lia.
  - rewrite Pos.iter_succ, (Pos2Z.inj_xO (Pos.iter xO m d)), IH, Pos2Z.inj_succ.
    rewrite Z.pow_succ_r by lia. lia.
Qed.

Lemma shl_align_spec (m : positive) (e e' : Z) :
  snd (shl_align m e e') = Z.min e e'
  /\ Z.pos (fst (shl_align m e e')) = Z.pos m * 2 ^ (e - Z.min e e').
Proof.
  unfold shl_align. destruct (e' - e) as [| d | d] eqn:E; cbn [fst snd].
  - replace (Z.min e e') with e by lia. rewrite Z.sub_diag. split; lia.
  - replace (Z.min e e') with e by lia. rewrite Z.sub_diag. split; lia.
  - replace (Z.min e e') with e' by lia. split; [reflexivity|].
    rewrite pos_iter_xO. f_equal. f_equal. lia.
Qed.

Lemma digits_shift (m m' : positive) (n : Z) :
  0 <= n -> Z.pos m' = Z.pos m * 2 ^ n -> digits m' = digits m + n.
Proof.
  intros N E. pose proof (digits_bounds m) as [L U]. pose proof (digits_pos m).
  assert (P : 0 < 2 ^ n) by (apply Z.pow_pos_nonneg; lia).
  apply Z.le_antisymm.
  - apply digits_le. rewrite E, Z.pow_add_r by lia.
    apply Z.mul_lt_mono_pos_r; lia.
  - apply digits_ge. rewrite E. replace (digits m + n - 1) with (digits m - 1 + n) by lia.
    rewrite Z.pow_add_r by lia. apply Z.mul_le_mono_nonneg_r; lia.
Qed.

(** The sum of two positive finite numbers is the rounding of the exact
    sum. *)
Lemma SFadd_finite (mx my : positive) (ex ey : Z) :
  bounded prec emax mx ex = true -> bounded prec emax my ey = true ->
  exists (m : positive) (e : Z),
    SFadd prec emax (S754_finite false mx ex) (S754_finite false my ey)
    = binary_round_aux prec emax false (Z.pos m) e loc_Exact
    /\ e <= fexp prec emax (digits m + e)
    /\ -1074 <= e
    /\ Z.pos m * 2 ^ (e - -1074)
       = weightSF (S754_finite false mx ex) + weightSF (S754_finite false my ey).
Proof.
  intros Bx By.
  destruct (bounded_spec _ _ Bx) as (Ex & _). destruct (bounded_spec _ _ By) as (Ey & _).
  cbn [SFadd cond_Zopp weightSF]. set (ez := Z.min ex ey).
  destruct (shl_align_spec mx ex ez) as [_ Ax]. destruct (shl_align_spec my ey ez) as [_ Ay].
  replace (Z.min ex ez) with ez in Ax by lia. replace (Z.min ey ez) with ez in Ay by lia.
  set (ax := fst (shl_align mx ex ez)) in *. set (ay := fst (shl_align my ey ez)) in *.
  change (Z.pos ax + Z.pos ay) with (Z.pos (ax + ay)).
  cbn [binary_normalize]. unfold binary_round.
  change (Z.pos (digits2_pos (ax + ay))) with (digits (ax + ay)).
  set (f := fexp prec emax (digits (ax + ay) + ez)).
  assert (Hf : -1074 <= f) by (unfold f; rewrite fexp_eq; lia).
  destruct (shl_align_spec (ax + ay) ez f) as [As Am].
  destruct (shl_align (ax + ay) ez f) as [mz ez'] eqn:Sh. cbn [fst snd] in As, Am.
  exists mz, ez'. split; [reflexivity|].
  assert (D : digits mz = digits (ax + ay) + (ez - ez'))
    by (apply digits_shift; [lia | rewrite As; exact Am]).
  split; [| split].
  - rewrite D. replace (digits (ax + ay) + (ez - ez') + ez') with (digits (ax + ay) + ez) by lia.
    fold f. lia.
  - lia.
  - rewrite <- As in Am. rewrite Am, Pos2Z.inj_add, Ax, Ay.
    rewrite <- Z.mul_assoc, <- Z.pow_add_r by lia.
    rewrite Z.mul_add_distr_r, <- !Z.mul_assoc, <- !Z.pow_add_r by lia.
    f_equal; f_equal; f_equal; lia.
Qed.

Lemma SFadd_ranged_upper (x y t : spec_float) :
  ranged x -> ranged y -> ranged t ->
  weightSF x + weightSF y <= weightSF t ->
  SFleb (SFadd prec emax x y) t = true.
Proof.
  intros Rx Ry Rt H.
  destruct Rx as [sx | mx ex Bx]; destruct Ry as [sy | my ey By].
  - apply ranged_SFleb; [| exact Rt |].
    + destruct sx, sy; constructor.
    + destruct sx, sy; cbn; apply weightSF_nonneg.
  - apply ranged_SFleb; [constructor; exact By | exact Rt |]. cbn [SFadd].
    cbn [weightSF] in H |- *. lia.
  - apply ranged_SFleb; [constructor; exact Bx | exact Rt |]. cbn [SFadd].
    cbn [weightSF] in H |- *. lia.
  - destruct (SFadd_finite mx my ex ey Bx By) as (m & e & -> & He & Le & V).
    rewrite <- V in H.
    destruct Rt as [st | mt et Bt].
    + cbn [weightSF] in H.
      assert (0 < Z.pos m * 2 ^ (e - -1074))
        by (apply Z.mul_pos_pos; [lia | apply Z.pow_pos_nonneg; lia]).
      lia.
    + cbn [weightSF] in H. replace (et + 1074) with (et - -1074) in H by lia.
      apply (round_upper m e mt et (-1074) He Bt Le); [| exact H].
      apply (bounded_spec _ _ Bt).
Qed.

Lemma SFadd_ranged_lower (x y t : spec_float) :
  ranged x -> ranged y -> ranged t ->
  weightSF t <= weightSF x + weightSF y ->
  SFleb t (SFadd prec emax x y) = true.
Proof.
  intros Rx Ry Rt H.
  destruct Rx as [sx | mx ex Bx]; destruct Ry as [sy | my ey By].
  - apply ranged_SFleb; [exact Rt | |].
    + destruct sx, sy; constructor.
    + cbn [weightSF] in H. destruct sx, sy; cbn [SFadd weightSF]; lia.
  - apply ranged_SFleb; [exact Rt | constructor; exact By |]. cbn [SFadd].
    cbn [weightSF] in H |- *. lia.
  - apply ranged_SFleb; [exact Rt | constructor; exact Bx |]. cbn [SFadd].
    cbn [weightSF] in H |- *. lia.
  - destruct (SFadd_finite mx my ex ey Bx By) as (m & e & -> & He & Le & V).
    rewrite <- V in H.
    destruct Rt as [st | mt et Bt].
    + destruct (binary_round_aux_pack m e loc_Exact He) as (m2 & _ & _ & _ & _ & ->).
      apply SFleb_zero_pack.
    + cbn [weightSF] in H. replace (et + 1074) with (et - -1074) in H by lia.
      apply (round_lower m e loc_Exact mt et (-1074) He Bt Le); [| exact H].
      apply (bounded_spec _ _ Bt).
Qed.

Lemma SFmul_unit (mc : positive) (ec : Z) (a : spec_float) :
  bounded prec emax mc ec = true -> digits mc = 53 ->
  ranged a -> weightSF a <= 2 ^ 1074 ->
  SFleb (S754_zero false) (SFmul prec emax (S754_finite false mc ec) a) = true
  /\ SFleb (SFmul prec emax (S754_finite false mc ec) a) (S754_finite false mc ec) = true.
Proof.
  intros Bc Dc Ra Wa. destruct Ra as [s | m e Ba].
  - cbn [SFmul xorb]. split; reflexivity.
  - cbn [SFmul xorb weightSF] in *.
    destruct (bounded_spec _ _ Ba) as (Ea & _).
    assert (He : ec + e <= fexp prec emax (digits (mc * m) + (ec + e))).
    { rewrite fexp_eq.
      assert (53 <= digits (mc * m)); [| lia].
      apply digits_ge. change (53 - 1) with 52. rewrite Pos2Z.inj_mul.
      pose proof (digits_bounds mc) as [L _]. rewrite Dc in L. change (53 - 1) with 52 in L.
      revert L. generalize (2 ^ 52). intros. nia. }
    split.
    + destruct (binary_round_aux_pack _ _ loc_Exact He) as (m2 & _ & _ & _ & _ & ->).
      apply SFleb_zero_pack.
    + apply (round_upper (mc * m) (ec + e) mc ec (ec - 1074) He Bc); [lia | lia |].
      replace (ec + e - (ec - 1074)) with (e + 1074) by lia.
      replace (ec - (ec - 1074)) with 1074 by lia.
      rewrite Pos2Z.inj_mul, <- Z.mul_assoc.
      apply Z.mul_le_mono_nonneg_l; [lia | exact Wa].
Qed.

Lemma SFdiv_lower (mx my : positive) (ex ey : Z) :
  bounded prec emax mx ex = true -> bounded prec emax my ey = true ->
  digits my = 53 -> ex - ey <= 53 ->
  Z.pos my * 2 ^ (ey + 1074) <= Z.pos mx * 2 ^ (ex + 1074) ->
  SFleb (S754_finite false 4503599627370496 (-52))
        (SFdiv prec emax (S754_finite false mx ex) (S754_finite false my ey)) = true.
Proof.
  intros Bx By Dy D W.
  destruct (bounded_spec _ _ Bx) as (Ex & Dx & _). destruct (bounded_spec _ _ By) as (Ey & _).
  cbn [SFdiv xorb]. unfold SFdiv_core_binary.
  change (Zdigits2 (Z.pos mx)) with (digits mx). change (Zdigits2 (Z.pos my)) with (digits my).
  rewrite Dy.
  set (e' := Z.min (fexp prec emax (digits mx + ex - (53 + ey))) (ex - ey)).
  assert (He' : e' <= 0 /\ e' <= ex - ey
                /\ e' <= fexp prec emax (digits mx + ex - (53 + ey))).
  { unfold e'. rewrite fexp_eq. lia. }
  set (s := ex - ey - e').
  assert (Hs : 0 <= s) by (unfold s; lia).
  assert (Em : match s with
               | 0 => Z.pos mx
               | Z.pos _ => Z.shiftl (Z.pos mx) s
               | Z.neg _ => 0
               end = Z.pos mx * 2 ^ s).
  { destruct s as [| p | p] eqn:Es; try lia.
    apply Z.shiftl_mul_pow2. lia. }
  rewrite Em.
  destruct (Z.div_eucl (Z.pos mx * 2 ^ s) (Z.pos my)) as [q r] eqn:DE.
  assert (Q : q = Z.pos mx * 2 ^ s / Z.pos my) by (unfold Z.div; rewrite DE; reflexivity).
  assert (Pe : 0 < 2 ^ (- e')) by (apply Z.pow_pos_nonneg; lia).
  assert (Ps : 0 < 2 ^ s) by (apply Z.pow_pos_nonneg; lia).
  assert (Py : 0 < 2 ^ (ey + 1074)) by (apply Z.pow_pos_nonneg; lia).
  assert (Lq : 2 ^ (- e') <= q).
  { rewrite Q. apply Z.div_le_lower_bound; [lia|].
    apply (Z.mul_le_mono_pos_r _ _ (2 ^ (ey + 1074)) Py).
    assert (E1 : 2 ^ s * 2 ^ (ey + 1074) = 2 ^ (ex + 1074) * 2 ^ (- e')).
    { rewrite <- !Z.pow_add_r by lia. f_equal. unfold s. lia. }
    rewrite <- (Z.mul_assoc (Z.pos mx)), E1.
    revert W Pe. generalize (2 ^ (ey + 1074)) (2 ^ (ex + 1074)) (2 ^ (- e')).
    intros; nia. }
  destruct q as [| qp | qp]; try lia.
  assert (Dq : digits mx + s - 53 <= digits qp).
  { apply digits_ge. destruct (Z.le_gt_cases 0 (digits mx + s - 53 - 1)) as [G | G].
    - rewrite Q. apply Z.div_le_lower_bound; [lia|].
      pose proof (digits_bounds mx) as [Lx _]. pose proof (digits_bounds my) as [_ Uy].
      rewrite Dy in Uy. pose proof (digits_pos mx).
      apply Z.le_trans with (2 ^ 53 * 2 ^ (digits mx + s - 53 - 1)).
      { apply Z.mul_le_mono_nonneg_r; [apply Z.pow_nonneg|]; lia. }
      rewrite <- Z.pow_add_r by lia.
      replace (53 + (digits mx + s - 53 - 1)) with (digits mx - 1 + s) by lia.
      rewrite Z.pow_add_r by lia. apply Z.mul_le_mono_nonneg_r; lia.
    - rewrite Z.pow_neg_r by lia. lia. }
  apply (round_lower qp e' (new_location (Z.pos my) r) 4503599627370496 (-52) (e' - 52)).
  - rewrite fexp_eq. rewrite fexp_eq in He'. unfold s in Dq. lia.
  - reflexivity.
  - lia.
  - lia.
  - replace (-52 - (e' - 52)) with (- e') by lia.
    replace (e' - (e' - 52)) with 52 by lia.
    change (Z.pos 4503599627370496) with (2 ^ 52). rewrite (Z.mul_comm (Z.pos qp)).
    apply Z.mul_le_mono_nonneg_l; [apply Z.pow_nonneg; lia | exact Lq].
Qed.

Lemma ranged_one : ranged (Prim2SF 1).
Proof. constructor. reflexivity. Qed.

Lemma ranged_zero_float : ranged (Prim2SF 0).
Proof. constructor. Qed.

Lemma mul_unit (c a : float) (mc : positive) (ec : Z) :
  Prim2SF c = S754_finite false mc ec -> digits mc = 53 ->
  (0 <=? a)%float = true -> (a <=? 1)%float = true ->
  (0 <=? c * a)%float = true /\ (c * a <=? c)%float = true.
Proof.
  intros Ec Dc L U.
  assert (Ra : ranged (Prim2SF a)) by (apply (ranged_of_bounds a 1 ranged_one L U)).
  pose proof (leb_weight a 1 Ra ranged_one U) as W.
  assert (W1 : weight 1 = 2 ^ 1074) by (vm_compute; reflexivity).
  rewrite W1 in W.
  pose proof (FloatAxioms.Prim2SF_valid c) as Bc. rewrite Ec in Bc. cbn [valid_binary] in Bc.
  rewrite !FloatAxioms.leb_spec, FloatAxioms.mul_spec, Ec. change (Prim2SF 0) with (S754_zero false).
  apply SFmul_unit; assumption.
Qed.

Lemma add_upper (x y t : float) :
  ranged (Prim2SF x) -> ranged (Prim2SF y) -> ranged (Prim2SF t) ->
  weight x + weight y <= weight t -> (x + y <=? t)%float = true.
Proof.
  intros Rx Ry Rt H. rewrite FloatAxioms.leb_spec, FloatAxioms.add_spec. now apply SFadd_ranged_upper.
Qed.

Lemma add_lower (x y t : float) :
  ranged (Prim2SF x) -> ranged (Prim2SF y) -> ranged (Prim2SF t) ->
  weight t <= weight x + weight y -> (t <=? x + y)%float = true.
Proof.
  intros Rx Ry Rt H. rewrite FloatAxioms.leb_spec, FloatAxioms.add_spec. now apply SFadd_ranged_lower.
Qed.

Lemma weight_nonneg (x : float) : 0 <= weight x.
Proof. apply weightSF_nonneg. Qed.

Lemma div_lower (x y lo hi : float) (ml mh : positive) (el eh : Z) :
  Prim2SF lo = S754_finite false ml el -> Prim2SF hi = S754_finite false mh eh ->
  -1074 < el -> eh - el <= 53 ->
  (lo <=? y)%float = true -> (y <=? x)%float = true -> (x <=? hi)%float = true ->
  (1 <=? x / y)%float = true.
Proof.
  intros El Eh Nl D L1 L2 L3. rewrite FloatAxioms.leb_spec in L1, L2, L3 |- *. rewrite FloatAxioms.div_spec.
  rewrite El in L1. rewrite Eh in L3.
  change (Prim2SF 1) with (S754_finite false 4503599627370496 (-52)).
  pose proof (FloatAxioms.Prim2SF_valid x) as Vx. pose proof (FloatAxioms.Prim2SF_valid y) as Vy.
  destruct (Prim2SF y) as [sy | [] | | [] my ey]; try discriminate L1.
  - destruct (Prim2SF x) as [sx | [] | | [] mx ex]; try discriminate L2; discriminate L3.
  - destruct (Prim2SF x) as [sx | [] | | [] mx ex]; try discriminate L2; try discriminate L3.
    cbn [valid_binary] in Vx, Vy.
    pose proof (SFleb_weight _ _ _ _ Vy Vx L2) as W.
    apply SFleb_finite_inv in L1, L3.
    destruct (bounded_spec _ _ Vy) as (_ & _ & Ny & _).
    apply SFdiv_lower; try assumption; [apply Ny |]; lia.
Qed.

(** The bounds of the luminance and of the two ratios, for linearised
    channels between 0 and 1. *)
Lemma luminance_bounds (a b c : float) :
  (0 <=? a)%float = true -> (a <=? 1)%float = true ->
  (0 <=? b)%float = true -> (b <=? 1)%float = true ->
  (0 <=? c)%float = true -> (c <=? 1)%float = true ->
  let L := (0.2126 * a + 0.7152 * b + 0.0722 * c)%float in
  (0 <=? L)%float = true /\ (L <=? 1)%float = true
  /\ (1 <=? (L + 0.05) / 0.05)%float = true
  /\ (1 <=? 1.05 / (L + 0.05))%float = true.
Proof.
  intros La Ua Lb Ub Lc Uc. cbv zeta.
  destruct (mul_unit 0.2126 a 7659722246231740 (-55) eq_refl eq_refl La Ua) as [L1 U1].
  destruct (mul_unit 0.7152 b 6441948906990757 (-53) eq_refl eq_refl Lb Ub) as [L2 U2].
  destruct (mul_unit 0.0722 c 5202558289538397 (-56) eq_refl eq_refl Lc Uc) as [L3 U3].
  set (p1 := (0.2126 * a)%float) in *. set (p2 := (0.7152 * b)%float) in *.
  set (p3 := (0.0722 * c)%float) in *.
  assert (K1 : ranged (Prim2SF 0.2126)) by (constructor; reflexivity).
  assert (K2 : ranged (Prim2SF 0.7152)) by (constructor; reflexivity).
  assert (K3 : ranged (Prim2SF 0.0722)) by (constructor; reflexivity).
  assert (K4 : ranged (Prim2SF (0.2126 + 0.7152))) by (constructor; reflexivity).
  assert (K5 : ranged (Prim2SF 0.05)) by (constructor; reflexivity).
  assert (K6 : ranged (Prim2SF 1.05)) by (constructor; reflexivity).
  pose proof (ranged_of_bounds _ _ K1 L1 U1) as R1.
  pose proof (ranged_of_bounds _ _ K2 L2 U2) as R2.
  pose proof (ranged_of_bounds _ _ K3 L3 U3) as R3.
  pose proof (leb_weight _ _ R1 K1 U1) as W1.
  pose proof (leb_weight _ _ R2 K2 U2) as W2.
  pose proof (leb_weight _ _ R3 K3 U3) as W3.
  assert (C1 : weight 0.2126 + weight 0.7152 <= weight (0.2126 + 0.7152))
    by (vm_compute; discriminate).
  assert (C2 : weight (0.2126 + 0.7152) + weight 0.0722 <= weight 1)
    by (vm_compute; discriminate).
  assert (C3 : weight 1 + weight 0.05 <= weight 1.05) by (vm_compute; discriminate).
  pose proof (weight_nonneg p1). pose proof (weight_nonneg p2). pose proof (weight_nonneg p3).
  assert (L4 : (0 <=? p1 + p2)%float = true)
    by (apply add_lower; [assumption | assumption | apply ranged_zero_float |];
        change (weight 0) with 0; lia).
  assert (U4 : (p1 + p2 <=? 0.2126 + 0.7152)%float = true)
    by (apply add_upper; try assumption; lia).
  pose proof (ranged_of_bounds _ _ K4 L4 U4) as R4.
  pose proof (leb_weight _ _ R4 K4 U4) as W4.
  pose proof (weight_nonneg (p1 + p2)).
  assert (L5 : (0 <=? p1 + p2 + p3)%float = true)
    by (apply add_lower; [assumption | assumption | apply ranged_zero_float |];
        change (weight 0) with 0; lia).
  assert (U5 : (p1 + p2 + p3 <=? 1)%float = true)
    by (apply add_upper; [assumption | assumption | apply ranged_one | lia]).
  pose proof (ranged_of_bounds _ _ ranged_one L5 U5) as R5.
  pose proof (leb_weight _ _ R5 ranged_one U5) as W5.
  set (L := (p1 + p2 + p3)%float) in *.
  pose proof (weight_nonneg L).
  assert (L6 : (0.05 <=? L + 0.05)%float = true)
    by (apply add_lower; try assumption; lia).
  assert (U6 : (L + 0.05 <=? 1.05)%float = true)
    by (apply add_upper; try assumption; lia).
  split; [exact L5|]. split; [exact U5|]. split.
  - apply (div_lower (L + 0.05) 0.05 0.05 1.05 7205759403792794 4728779608739021
                     (-57) (-52) eq_refl eq_refl);
      [lia | lia | reflexivity | exact L6 | exact U6].
  - apply (div_lower 1.05 (L + 0.05) 0.05 1.05 7205759403792794 4728779608739021
                     (-57) (-52) eq_refl eq_refl);
      [lia | lia | exact L6 | exact U6 | reflexivity].
Qed.

End Rounding.

(** ** Contrast *)

Lemma linear_sweep : forall_below 256 linear_check = true.
Proof. vm_compute. reflexivity. Qed.

(** The branch [getL] takes for a channel. *)
Lemma getL_channel (Math_pow : number -> number -> number) (z : Z) :
  (0 <= z <= 255)%Z ->
  getL Math_pow (JS.of_Z z)
  = if (z <=? 10)%Z then JS.of_Z z / 255 / 12.92
    else Math_pow ((JS.of_Z z / 255 + 0.055) / 1.055) 2.4.
Proof.
  intros Hz.
  pose proof (forall_below_spec 256 _ linear_sweep z ltac:(lia)) as H.
  unfold linear_check in H. rewrite <- of_Z_nonneg in H by lia.
  apply Bool.eqb_prop in H. unfold getL. cbv zeta. rewrite H.
  destruct (Z.leb_spec z 10) as [L | L].
  - replace (Uint63.leb (Uint63.of_Z z) 10) with true; [reflexivity|].
    symmetry. apply Uint63.leb_spec. rewrite to_Z_of_Z_small by lia.
    change (Uint63.to_Z 10) with 10%Z. lia.
  - replace (Uint63.leb (Uint63.of_Z z) 10) with false; [reflexivity|].
    symmetry. apply not_true_is_false. intros C. apply Uint63.leb_spec in C.
    rewrite to_Z_of_Z_small in C by lia. change (Uint63.to_Z 10) with 10%Z in C. lia.
Qed.

Lemma unit_sweep : forall_below 256 unit_check = true.
Proof. vm_compute. reflexivity. Qed.

(** The linearised channels lie between 0 and 1, as soon as [Math.pow]
    keeps the interval from 0 to 1. *)
Lemma getL_unit (Math_pow : number -> number -> number) (z : Z) :
  (forall x, (0 <=? x) = true -> (x <=? 1) = true ->
     (0 <=? Math_pow x 2.4) = true /\ (Math_pow x 2.4 <=? 1) = true) ->
  (0 <= z <= 255)%Z ->
  (0 <=? getL Math_pow (JS.of_Z z)) = true /\ (getL Math_pow (JS.of_Z z) <=? 1) = true.
Proof.
  intros Hp Hz. rewrite getL_channel by exact Hz.
  pose proof (forall_below_spec 256 _ unit_sweep z ltac:(lia)) as H.
  unfold unit_check in H. cbv zeta in H. rewrite <- of_Z_nonneg in H by lia.
  apply andb_prop in H as [H H4]. apply andb_prop in H as [H H3].
  apply andb_prop in H as [H1 H2].
  destruct (z <=? 10)%Z; [split; assumption | apply Hp; assumption].
Qed.

(** C8. [getL] is the WCAG linearisation: a channel [c] gives
    [c / 255 / 12.92] when [c / 255 <= 0.03928], which are the channels up
    to 10, and [Math.pow((c / 255 + 0.055) / 1.055, 2.4)] otherwise; [L]
    weighs the linearised channels by 0.2126, 0.7152 and 0.0722, and the
    memo is [(L + 0.05) / 0.05] and [1.05 / (L + 0.05)] to two decimals
    and [L < 0.5].  On black [L] is 0, the ratio against black is 1,
    formatted "1.00", and the colour is dark, whatever [Math.pow] returns;
    on white, provided [Math.pow] maps 1 to 1, [L] is 1, the ratio against
    white is 1, formatted "1.00", and the colour is light.  These are the
    minima: as soon as [Math.pow] keeps the interval from 0 to 1, every
    colour has [0 <= L <= 1] and both of its ratios are at least 1. *)
Theorem contrast_black_white (Math_pow : number -> number -> number) :
  (forall c,
      getL Math_pow c
      = if c / 255 <=? 0.03928 then c / 255 / 12.92
        else Math_pow ((c / 255 + 0.055) / 1.055) 2.4)
  /\ (forall z, (0 <= z <= 255)%Z ->
      getL Math_pow (JS.of_Z z)
      = if (z <=? 10)%Z then JS.of_Z z / 255 / 12.92
        else Math_pow ((JS.of_Z z / 255 + 0.055) / 1.055) 2.4)
  /\ (forall colorData,
      let L := 0.2126 * getL Math_pow (r (rgb colorData))
               + 0.7152 * getL Math_pow (g (rgb colorData))
               + 0.0722 * getL Math_pow (b (rgb colorData)) in
      contrast Math_pow colorData
      = {| ratio := toFixed 2 ((L + 0.05) / 0.05);
           onWhite := toFixed 2 (1.05 / (L + 0.05));
           isDark := L <? 0.5 |})
  /\ (luminance Math_pow (rgb (calculateColorDetails 0 0 0)) = 0
      /\ (0 + 0.05) / 0.05 = 1
      /\ ratio (contrast Math_pow (calculateColorDetails 0 0 0)) = "1.00"
      /\ isDark (contrast Math_pow (calculateColorDetails 0 0 0)) = true)
  /\ (Math_pow 1 2.4 = 1 ->
      luminance Math_pow (rgb (calculateColorDetails 255 255 255)) = 1
      /\ 1.05 / (1 + 0.05) = 1
      /\ onWhite (contrast Math_pow (calculateColorDetails 255 255 255)) = "1.00"
      /\ isDark (contrast Math_pow (calculateColorDetails 255 255 255)) = false)
  /\ ((forall x, (0 <=? x) = true -> (x <=? 1) = true ->
         (0 <=? Math_pow x 2.4) = true /\ (Math_pow x 2.4 <=? 1) = true) ->
      forall rz gz bz : Z,
        (0 <= rz <= 255)%Z -> (0 <= gz <= 255)%Z -> (0 <= bz <= 255)%Z ->
        let c := calculateColorDetails (JS.of_Z rz) (JS.of_Z gz) (JS.of_Z bz) in
        let L := 0.2126 * getL Math_pow (JS.of_Z rz)
                 + 0.7152 * getL Math_pow (JS.of_Z gz)
                 + 0.0722 * getL Math_pow (JS.of_Z bz) in
        ratio (contrast Math_pow c) = toFixed 2 ((L + 0.05) / 0.05)
        /\ onWhite (contrast Math_pow c) = toFixed 2 (1.05 / (L + 0.05))
        /\ (0 <=? L) = true /\ (L <=? 1) = true
        /\ (1 <=? (L + 0.05) / 0.05) = true
        /\ (1 <=? 1.05 / (L + 0.05)) = true).
Proof.
  split; [reflexivity|].
  split; [intros z Hz; now apply getL_channel|].
  split; [reflexivity|].
  assert (E0 : getL Math_pow 0 = 0) by reflexivity.
  split; [| split].
  - assert (L0 : luminance Math_pow (rgb (calculateColorDetails 0 0 0)) = 0).
    { unfold luminance. cbn [rgb calculateColorDetails r g b]. rewrite E0. reflexivity. }
    split; [exact L0|]. split; [reflexivity|].
    unfold contrast. cbn [ratio isDark]. rewrite L0. split; vm_compute; reflexivity.
  - intros Hpow.
    assert (E1 : getL Math_pow 255 = 1).
    { unfold getL. cbv zeta.
      change (255 / 255) with 1.
      change (1 <=? 0.03928) with false. cbv iota.
      change ((1 + 0.055) / 1.055) with 1. exact Hpow. }
    assert (L1 : luminance Math_pow (rgb (calculateColorDetails 255 255 255)) = 1).
    { unfold luminance. cbn [rgb calculateColorDetails r g b]. rewrite E1. reflexivity. }
    split; [exact L1|]. split; [reflexivity|].
    unfold contrast. cbn [onWhite isDark]. rewrite L1. split; vm_compute; reflexivity.
  - intros Hp rz gz bz Hr Hg Hb. cbv zeta.
    destruct (getL_unit Math_pow rz Hp Hr) as [Lr Ur].
    destruct (getL_unit Math_pow gz Hp Hg) as [Lg Ug].
    destruct (getL_unit Math_pow bz Hp Hb) as [Lb Ub].
    pose proof (luminance_bounds _ _ _ Lr Ur Lg Ug Lb Ub) as B. cbv zeta in B.
    split; [reflexivity|]. split; [reflexivity|]. exact B.
Qed.

Lemma contrast_black_white_witness :
  onWhite (contrast (fun x _ => x) (calculateColorDetails 255 255 255)) = "1.00"
  /\ isDark (contrast (fun x _ => x) (calculateColorDetails 255 255 255)) = false
  /\ (let L := luminance (fun x _ => x)
                 (rgb (calculateColorDetails (JS.of_Z 99) (JS.of_Z 102) (JS.of_Z 241))) in
      (1 <=? (L + 0.05) / 0.05) = true /\ (1 <=? 1.05 / (L + 0.05)) = true).
Proof.
  destruct (contrast_black_white (fun x _ => x)) as (_ & _ & _ & _ & W & M).
  destruct (W eq_refl) as (_ & _ & W1 & W2).
  split; [exact W1|]. split; [exact W2|].
  destruct (M (fun x Lx Ux => conj Lx Ux) 99%Z 102%Z 241%Z
              ltac:(lia) ltac:(lia) ltac:(lia)) as (_ & _ & _ & _ & M1 & M2).
  split; [exact M1 | exact M2].
Defined.

(** ** The selection history *)

Lemma includes_In (x : string) (xs : list string) : includes x xs = true <-> In x xs.
Proof.
  unfold includes. rewrite existsb_exists. split.
  - intros (y & Hy & E). apply String.eqb_eq in E. now subst y.
  - intros H. exists x. split; [exact H | apply String.eqb_refl].
Qed.

Lemma record_present (history : list string) (hex : string) :
  In hex history -> record history hex = history.
Proof.
  intros H. unfold record. apply includes_In in H. now rewrite H.
Qed.

Lemma record_absent (history : list string) (hex : string) :
  ~ In hex history -> record history hex = firstn 12 (hex :: history).
Proof.
  intros H. unfold record.
  destruct (includes hex history) eqn:E; [|reflexivity].
  apply includes_In in E. contradiction.
Qed.

Lemma In_firstn (n : nat) (xs : list string) (x : string) :
  In x (firstn n xs) -> In x xs.
Proof.
  intros H. rewrite <- (firstn_skipn n xs). apply in_or_app. now left.
Qed.

Lemma record_distinct (hexes : list string) :
  NoDup hexes -> fold_left record hexes [] = firstn 12 (rev hexes).
Proof.
  induction hexes as [|x xs IH] using rev_ind; intros ND; [reflexivity|].
  rewrite fold_left_app, rev_app_distr. cbn [fold_left rev app].
  apply NoDup_remove in ND as [ND Hx]. rewrite app_nil_r in ND, Hx.
  rewrite (IH ND), record_absent.
  - rewrite !firstn_cons, firstn_firstn. reflexivity.
  - intros C. apply Hx, in_rev. exact (In_firstn _ _ _ C).
Qed.

Lemma pickColor_spec (e : MouseEvent) (canvas : HTMLCanvasElement)
    (img : HTMLImageElement) (st : State) :
  has_context canvas = true ->
  colorData (pickColor e (Some canvas) (Some img) st) = picked e canvas img
  /\ history (pickColor e (Some canvas) (Some img) st)
     = record (history st) (hex (picked e canvas img)).
Proof.
  intros Hc. unfold pickColor, record, picked. rewrite Hc. cbv zeta.
  destruct (negb _); split; reflexivity.
Qed.

(** C4. Recording a hex that is present leaves the history as it is;
    recording a new one puts it in front and keeps the first 12 entries;
    [pickColor] records the hex of the colour it picked; and 13 distinct
    values recorded one after the other from the empty history leave the 12
    most recent, newest first. *)
Theorem record_history :
  (forall history hex, In hex history -> record history hex = history)
  /\ (forall history hex, ~ In hex history ->
        record history hex = firstn 12 (hex :: history)
        /\ (List.length (record history hex) <= 12)%nat
        /\ record history hex
           = hex :: firstn 11 history)
  /\ (forall e canvas img st, has_context canvas = true ->
        history (pickColor e (Some canvas) (Some img) st)
        = record (history st) (hex (colorData (pickColor e (Some canvas) (Some img) st))))
  /\ (forall hexes, NoDup hexes ->
        fold_left record hexes [] = firstn 12 (rev hexes))
  /\ (forall hexes, NoDup hexes -> List.length hexes = 13%nat ->
        fold_left record hexes [] = rev (tl hexes)
        /\ List.length (fold_left record hexes []) = 12%nat).
Proof.
  split; [exact record_present|].
  split.
  { intros history hex H. rewrite (record_absent _ _ H).
    split; [reflexivity|]. split; [apply firstn_le_length | reflexivity]. }
  split.
  { intros e canvas img st Hc.
    destruct (pickColor_spec e canvas img st Hc) as [-> ->]. reflexivity. }
  split; [exact record_distinct|].
  intros hexes ND Hlen. rewrite (record_distinct _ ND).
  destruct hexes as [|x xs]; [discriminate|].
  cbn [tl rev]. injection Hlen as Hlen.
  assert (Hr : List.length (rev xs) = 12%nat) by now rewrite length_rev.
  assert (E : firstn 12 (rev xs ++ [x]) = rev xs).
  { rewrite firstn_app, Hr, Nat.sub_diag, firstn_O, app_nil_r.
    apply firstn_all2. lia. }
  rewrite E. split; [reflexivity | assumption].
Qed.

Lemma record_history_witness :
  record ["#000000"; "#ffffff"] "#ffffff" = ["#000000"; "#ffffff"]
  /\ record ["#000000"] "#ffffff" = ["#ffffff"; "#000000"]
  /\ fold_left record
       ["#000000"; "#000001"; "#000002"; "#000003"; "#000004"; "#000005"; "#000006";
        "#000007"; "#000008"; "#000009"; "#00000a"; "#00000b"; "#00000c"] []
     = ["#00000c"; "#00000b"; "#00000a"; "#000009"; "#000008"; "#000007"; "#000006";
        "#000005"; "#000004"; "#000003"; "#000002"; "#000001"].
Proof.
  destruct record_history as (H1 & H2 & _ & _ & H5).
  split; [| split].
  - apply H1. simpl. auto.
  - apply (H2 ["#000000"] "#ffffff"). simpl. intros [C | []]. discriminate.
  - apply (H5 ["#000000"; "#000001"; "#000002"; "#000003"; "#000004"; "#000005";
               "#000006"; "#000007"; "#000008"; "#000009"; "#00000a"; "#00000b";
               "#00000c"]); [| reflexivity].
    repeat (constructor; [simpl; intuition discriminate |]). constructor.
Defined.

(** ** Session transitions *)

(** A handler other than a click on the image leaves the history alone. *)
Lemma step_history_frame (st : State) (ev : Event) :
  (forall e canvas img, ev <> ImageClick e canvas img) ->
  history (step st ev) = history st.
Proof.
  intros Hev. destruct ev; cbn [step]; try reflexivity.
  - unfold handleKeyDown. now destruct (_ && _).
  - unfold extractPalette.
    destruct canvas as [cv|], img as [im|]; try reflexivity.
    now destruct (has_context cv).
  - now contradiction (Hev e canvas img).
  - now destruct (nth_error (palette st) i).
  - now destruct (nth_error (history st) i).
Qed.

(** A click on the image records the hex of the pixel it reads. *)
Lemma step_history_click (st : State) (e : MouseEvent)
    (canvas : option HTMLCanvasElement) (img : option HTMLImageElement) :
  history (step st (ImageClick e canvas img)) = history st
  \/ exists hex, history (step st (ImageClick e canvas img)) = record (history st) hex.
Proof.
  cbn [step]. destruct canvas as [cv|], img as [im|]; try (left; reflexivity).
  destruct (has_context cv) eqn:Hc.
  - right. exists (hex (picked e cv im)). apply (pickColor_spec e cv im st Hc).
  - left. unfold pickColor. now rewrite Hc.
Qed.

(** C5 as stated fails: after a pick, neither Escape, nor the two buttons,
    nor the load of a new image empties the history. *)
Lemma reset_keeps_history :
  let st := run initial_state example_session in
  history st = ["#102030"]
  /\ image (step st (KeyDown "Escape")) = None
  /\ history (step st (KeyDown "Escape")) = ["#102030"]
  /\ history (step st RestartProject) = ["#102030"]
  /\ history (step st ResetProject) = ["#102030"]
  /\ history (step st (FileLoaded "data:image/png;base64,AAAA")) = ["#102030"]
  /\ history (step (step st (KeyDown "Escape")) (FileLoaded "data:image/png;base64,AAAA"))
     <> [].
Proof. vm_compute. repeat split; try reflexivity. discriminate. Qed.

(** C5, amended. A new image, Escape and the two reset buttons change the
    image and leave the history as it is; no handler other than a click on
    the image changes the history; a click that reads a pixel leaves the
    history as it is when the hex of the pixel is in it, and otherwise puts
    that hex in front and keeps the 11 entries that follow; a click that
    finds no canvas, no image or no context leaves it as it is. *)
Theorem session_start_keeps_history (st : State) :
  (forall dataUrl,
      image (step st (FileLoaded dataUrl)) = Some dataUrl
      /\ history (step st (FileLoaded dataUrl)) = history st)
  /\ (forall key, history (step st (KeyDown key)) = history st)
  /\ (truthy (image st) = true -> image (step st (KeyDown "Escape")) = None)
  /\ (image (step st RestartProject) = None
      /\ history (step st RestartProject) = history st)
  /\ (image (step st ResetProject) = None
      /\ history (step st ResetProject) = history st)
  /\ (forall ev, (forall e canvas img, ev <> ImageClick e canvas img) ->
        history (step st ev) = history st)
  /\ (forall e canvas img, has_context canvas = true ->
        let picked_hex := hex (picked e canvas img) in
        (In picked_hex (history st) ->
         history (step st (ImageClick e (Some canvas) (Some img))) = history st)
        /\ (~ In picked_hex (history st) ->
            history (step st (ImageClick e (Some canvas) (Some img)))
            = picked_hex :: firstn 11 (history st)))
  /\ (forall e canvas img,
        canvas = None \/ img = None
        \/ (exists cv, canvas = Some cv /\ has_context cv = false) ->
        history (step st (ImageClick e canvas img)) = history st)
  /\ (forall ev,
        history (step st ev) = history st
        \/ exists hex, ~ In hex (history st)
                       /\ history (step st ev) = hex :: firstn 11 (history st)).
Proof.
  split; [intros; split; reflexivity|].
  split; [intros; apply step_history_frame; discriminate|].
  split.
  { intros Ht. cbn [step]. unfold handleKeyDown. rewrite Ht. reflexivity. }
  split; [split; reflexivity|].
  split; [split; reflexivity|].
  split; [apply step_history_frame|].
  split.
  { intros e canvas img Hc. cbv zeta. cbn [step].
    destruct (pickColor_spec e canvas img st Hc) as [_ ->].
    split; intros H.
    - now apply record_present.
    - rewrite (record_absent _ _ H). apply firstn_cons. }
  split.
  { intros e canvas img H. cbn [step]. unfold pickColor.
    destruct H as [-> | [-> | (cv & -> & Hc)]].
    - reflexivity.
    - now destruct canvas.
    - destruct img; [now rewrite Hc | reflexivity]. }
  intros ev.
  destruct ev; try (left; apply step_history_frame; discriminate).
  destruct (step_history_click st e canvas img) as [E | (hex & E)]; [now left|].
  rewrite E. unfold record.
  destruct (includes hex (history st)) eqn:Hin; [now left|].
  right. exists hex. split; [| reflexivity].
  intros C. apply includes_In in C. congruence.
Qed.

Lemma session_start_keeps_history_witness :
  image (step (run initial_state example_session) (KeyDown "Escape")) = None
  /\ history (step (run initial_state example_session) (KeyDown "Escape"))
     = history (run initial_state example_session)
  /\ history (step (run initial_state example_session)
                  (ImageClick {| clientX := 3; clientY := 4 |} example_drawn
                     (Some example_img)))
     = ["#102030"]
  /\ history (step initial_state
                  (ImageClick {| clientX := 3; clientY := 4 |} example_drawn
                     (Some example_img)))
     = ["#102030"].
Proof.
  destruct (session_start_keeps_history (run initial_state example_session))
    as (_ & Hk & He & _ & _ & _ & Hp & _).
  destruct (session_start_keeps_history initial_state)
    as (_ & _ & _ & _ & _ & _ & Hp0 & _).
  split; [apply He; reflexivity|]. split; [apply Hk|].
  split.
  - apply (Hp {| clientX := 3; clientY := 4 |}
              {| width := 10; height := 10; has_context := true;
                 getImageData := bitmap example_img |} example_img eq_refl).
    vm_compute. left. reflexivity.
  - apply (Hp0 {| clientX := 3; clientY := 4 |}
               {| width := 10; height := 10; has_context := true;
                  getImageData := bitmap example_img |} example_img eq_refl).
    intros C. vm_compute in C. exact C.
Defined.

(** C10. A click on a palette swatch or on a history swatch sets
    [colorData] to the converter's output for the three channels read from
    the swatch's hex and leaves the history as it is; for a hex the
    converter made from channels in [0, 255] these are the channels
    themselves; no handler but the click on the image changes the history,
    and that click records the hex of the pixel. *)
Theorem swatch_click_frame (st : State) :
  (forall i hex, nth_error (palette st) i = Some hex ->
      colorData (step st (PaletteSwatch i))
      = calculateColorDetails (parseInt16 (slice 1 3 hex)) (parseInt16 (slice 3 5 hex))
          (parseInt16 (slice 5 7 hex))
      /\ history (step st (PaletteSwatch i)) = history st)
  /\ (forall i hex, nth_error (history st) i = Some hex ->
      colorData (step st (HistorySwatch i))
      = calculateColorDetails (parseInt16 (slice 1 3 hex)) (parseInt16 (slice 3 5 hex))
          (parseInt16 (slice 5 7 hex))
      /\ history (step st (HistorySwatch i)) = history st)
  /\ (forall r g b swatch,
      (0 <= r <= 255)%Z -> (0 <= g <= 255)%Z -> (0 <= b <= 255)%Z ->
      swatch = hex (calculateColorDetails (JS.of_Z r) (JS.of_Z g) (JS.of_Z b)) ->
      colorData (swatchClick swatch st)
      = calculateColorDetails (JS.of_Z r) (JS.of_Z g) (JS.of_Z b))
  /\ (forall ev, (forall e canvas img, ev <> ImageClick e canvas img) ->
      history (step st ev) = history st)
  /\ (forall e canvas img, has_context canvas = true ->
      history (step st (ImageClick e (Some canvas) (Some img)))
      = record (history st) (hex (picked e canvas img))).
Proof.
  split.
  { intros i hex H. cbn [step]. rewrite H. split; reflexivity. }
  split.
  { intros i hex H. cbn [step]. rewrite H. split; reflexivity. }
  split.
  { intros r g b swatch Hr Hg Hb ->.
    destruct (hex_decode r g b Hr Hg Hb) as (Er & Eg & Eb).
    unfold swatchClick. cbv zeta in Er, Eg, Eb |- *.
    rewrite Er, Eg, Eb. reflexivity. }
  split; [apply step_history_frame|].
  intros e canvas img Hc. cbn [step]. apply (pickColor_spec e canvas img st Hc).
Qed.

Lemma swatch_click_frame_witness :
  let st := run initial_state example_session in
  colorData (step st (HistorySwatch 0)) = calculateColorDetails 16 32 48
  /\ history (step st (HistorySwatch 0)) = history st
  /\ colorData (step st (PaletteSwatch 4)) = calculateColorDetails 16 32 48
  /\ history (step st (PaletteSwatch 4)) = history st.
Proof.
  cbv zeta.
  destruct (swatch_click_frame (run initial_state example_session))
    as (Hp & Hh & _).
  destruct (Hh 0%nat "#102030" eq_refl) as [E1 E2].
  destruct (Hp 4%nat "#102030" eq_refl) as [E3 E4].
  rewrite E1, E2, E3, E4. repeat split; reflexivity.
Defined.

(** ** Consistency of [colorData] *)

Lemma consistent_calculateColorDetails (r g b : number) :
  consistent (calculateColorDetails r g b).
Proof. reflexivity. Qed.

Lemma step_colorData (st : State) (ev : Event) :
  colorData (step st ev) = colorData st \/ consistent (colorData (step st ev)).
Proof.
  destruct ev; cbn [step]; auto.
  - unfold handleKeyDown. destruct (_ && _); auto.
  - unfold extractPalette.
    destruct canvas as [cv|], img as [im|]; auto.
    destruct (has_context cv); auto.
  - unfold pickColor.
    destruct canvas as [cv|], img as [im|]; auto.
    destruct (has_context cv); auto.
    right. cbv zeta. destruct (negb _); apply consistent_calculateColorDetails.
  - destruct (nth_error (palette st) i); auto.
    right. apply consistent_calculateColorDetails.
  - destruct (nth_error (history st) i); auto.
    right. apply consistent_calculateColorDetails.
  - right. apply consistent_calculateColorDetails.
  - right. apply consistent_calculateColorDetails.
  - right. apply consistent_calculateColorDetails.
Qed.

(** C9. Every handler that sets [colorData] stores an output of the
    converter, which is what the converter makes of its own [rgb]; so in
    every state the session reaches [colorData] is consistent or is still
    the initial value.  The initial value is a literal: its [hex], [rgb]
    and [hsl] are those the converter makes of its [rgb], (99, 102, 241),
    but its [cmyk] is not: the literal holds "60, 58, 0, 5" where the
    converter gives "59, 58, 0, 5", so the initial [colorData] is not
    consistent. *)
Theorem colorData_consistent :
  (forall r g b, consistent (calculateColorDetails r g b))
  /\ (forall st ev,
        colorData (step st ev) = colorData st \/ consistent (colorData (step st ev)))
  /\ (forall st ev, consistent (colorData st) -> consistent (colorData (step st ev)))
  /\ (forall evs,
        colorData (run initial_state evs) = colorData initial_state
        \/ consistent (colorData (run initial_state evs)))
  /\ (let c := colorData initial_state in
      let d := calculateColorDetails (r (rgb c)) (g (rgb c)) (b (rgb c)) in
      hex c = hex d /\ rgb c = rgb d /\ hsl c = hsl d
      /\ cmyk c = "60, 58, 0, 5" /\ cmyk d = "59, 58, 0, 5"
      /\ ~ consistent c).
Proof.
  split; [exact consistent_calculateColorDetails|].
  split; [exact step_colorData|].
  split.
  { intros st ev Hc. destruct (step_colorData st ev) as [-> | H]; assumption. }
  split.
  { intros evs. unfold run.
    assert (G : forall st,
               colorData st = colorData initial_state \/ consistent (colorData st) ->
               colorData (fold_left step evs st) = colorData initial_state
               \/ consistent (colorData (fold_left step evs st))).
    { induction evs as [|ev evs IH]; intros st Hst; [exact Hst|].
      cbn [fold_left]. apply IH.
      destruct (step_colorData st ev) as [-> | H]; [exact Hst | now right]. }
    apply G. now left. }
  assert (E : calculateColorDetails 99 102 241
              = {| hex := "#6366f1";
                   rgb := {| r := 99; g := 102; b := 241 |};
                   hsl := {| h := 239; s := 84; l := 67 |};
                   cmyk := "59, 58, 0, 5" |}) by (vm_compute; reflexivity).
  cbv zeta. cbn [initial_state colorData rgb r g b]. rewrite E.
  cbn [hex rgb hsl cmyk].
  repeat split.
  unfold consistent. cbn [initial_state colorData rgb r g b]. rewrite E.
  intros C. apply (f_equal cmyk) in C. cbn [cmyk] in C. discriminate.
Qed.

Lemma colorData_consistent_witness :
  consistent (colorData (step (run initial_state example_session) (HueSlider 120))).
Proof.
  destruct colorData_consistent as (_ & _ & H & _).
  apply (H (run initial_state example_session) (HueSlider 120)).
  reflexivity.
Defined.

(** ** Palette extraction *)

Lemma sizes_sweep : forall_below 2048 sizes_check = true.
Proof. vm_compute. reflexivity. Qed.

Lemma sample_inside_size (w : Z) :
  (1 <= w <= 4194304)%Z -> sample_inside (JS.of_Z w) = true.
Proof.
  intros Hw.
  pose proof (forall_below_spec 2048 _ sizes_sweep ((w - 1) / 2048) ltac:(
    split; [apply Z.div_pos; lia | apply Z.div_lt_upper_bound; lia])) as H.
  unfold sizes_check in H.
  pose proof (forall_below_spec _ _ H ((w - 1) mod 2048)
                ltac:(apply Z.mod_pos_bound; lia)) as H'.
  cbv beta in H'. clear H.
  replace (Uint63.of_Z ((w - 1) / 2048) * 2048 + Uint63.of_Z ((w - 1) mod 2048) + 1)%uint63
    with (Uint63.of_Z w) in H'.
  - now rewrite of_Z_nonneg by lia.
  - apply Uint63.to_Z_inj.
    pose proof (Z.div_mod (w - 1) 2048 ltac:(lia)) as D.
    pose proof (Z.mod_pos_bound (w - 1) 2048 ltac:(lia)) as M.
    assert (Q : (0 <= (w - 1) / 2048 < 2048)%Z)
      by (split; [apply Z.div_pos; lia | apply Z.div_lt_upper_bound; lia]).
    assert (S : forall z, (0 <= z <= 4194304)%Z -> Uint63.to_Z (Uint63.of_Z z) = z).
    { intros z Hz. rewrite Uint63.of_Z_spec. apply Z.mod_small.
      split; [lia|]. apply Z.le_lt_trans with 4194304%Z; [lia | reflexivity]. }
    assert (B : forall z, (0 <= z <= 4194304)%Z -> (z mod Uint63.wB = z)%Z).
    { intros z Hz. apply Z.mod_small.
      split; [lia|]. apply Z.le_lt_trans with 4194304%Z; [lia | reflexivity]. }
    rewrite !Uint63.add_spec, Uint63.mul_spec, !S by lia.
    change (Uint63.to_Z 2048) with 2048%Z. change (Uint63.to_Z 1) with 1%Z.
    rewrite (B ((w - 1) / 2048 * 2048)%Z) by lia.
    rewrite (B ((w - 1) / 2048 * 2048 + (w - 1) mod 2048)%Z) by lia.
    rewrite B by lia. lia.
Qed.

Lemma sample_inside_spec (w : number) (c : number) :
  sample_inside w = true -> In c [0.2; 0.3; 0.5; 0.7; 0.8] ->
  (0 <=? w * c) = true /\ (w * c <? w) = true.
Proof.
  unfold sample_inside. rewrite forallb_forall. intros H Hc.
  specialize (H c Hc). now apply andb_prop in H.
Qed.

Lemma points_inside (img : HTMLImageElement) (w h : Z) :
  naturalWidth img = JS.of_Z w -> naturalHeight img = JS.of_Z h ->
  (1 <= w <= 4194304)%Z -> (1 <= h <= 4194304)%Z ->
  forall pt, In pt points ->
    inside img (naturalWidth img * fst pt) (naturalHeight img * snd pt) = true.
Proof.
  intros Ew Eh Hw Hh pt Hpt. unfold inside. rewrite Ew, Eh.
  pose proof (sample_inside_size w Hw) as Sw.
  pose proof (sample_inside_size h Hh) as Sh.
  assert (Hx : In (fst pt) [0.2; 0.3; 0.5; 0.7; 0.8] /\ In (snd pt) [0.2; 0.3; 0.5; 0.7; 0.8]).
  { unfold points in Hpt. cbn [In] in Hpt |- *.
    destruct Hpt as [<- | [<- | [<- | [<- | [<- | []]]]]]; cbn [fst snd]; auto 10. }
  destruct Hx as [Hx Hy].
  destruct (sample_inside_spec _ _ Sw Hx) as [-> ->].
  destruct (sample_inside_spec _ _ Sh Hy) as [-> ->].
  reflexivity.
Qed.

(** C6. With a canvas context at hand, [extractPalette] sets the palette
    to the hex values sampled at the five points, in their order: its
    length is 5 whatever the size of the image; and for an image of one
    colour, with a positive width and height (of up to 4194304 pixels),
    the five reads lie on the image and all five entries are the hex of
    that colour, kept as five. *)
Theorem extractPalette_samples (canvas : HTMLCanvasElement) (img : HTMLImageElement)
    (st : State) :
  has_context canvas = true ->
  let p := palette (snd (extractPalette (Some canvas) (Some img) st)) in
  p = map (fun pt => sample img (fst pt) (snd pt)) points
  /\ p = [sample img 0.2 0.2; sample img 0.5 0.2; sample img 0.8 0.5;
          sample img 0.3 0.8; sample img 0.7 0.7]
  /\ List.length p = 5%nat
  /\ List.length p = List.length points
  /\ (forall d,
        (forall pt, In pt points ->
           inside img (naturalWidth img * fst pt) (naturalHeight img * snd pt) = true) ->
        (forall x y, inside img x y = true -> bitmap img x y = d) ->
        p = repeat (hex (calculateColorDetails (data0 d) (data1 d) (data2 d))) 5)
  /\ (forall d (w h : Z),
        naturalWidth img = JS.of_Z w -> naturalHeight img = JS.of_Z h ->
        (1 <= w <= 4194304)%Z -> (1 <= h <= 4194304)%Z ->
        (forall x y, inside img x y = true -> bitmap img x y = d) ->
        (forall pt, In pt points ->
           inside img (naturalWidth img * fst pt) (naturalHeight img * snd pt) = true)
        /\ p = repeat (hex (calculateColorDetails (data0 d) (data1 d) (data2 d))) 5).
Proof.
  intros Hc. cbv zeta. unfold extractPalette. rewrite Hc.
  cbn [snd setPalette palette points map fst width height getImageData].
  fold (sample img 0.2 0.2). fold (sample img 0.5 0.2). fold (sample img 0.8 0.5).
  fold (sample img 0.3 0.8). fold (sample img 0.7 0.7).
  assert (U : forall d,
             (forall pt, In pt points ->
                inside img (naturalWidth img * fst pt) (naturalHeight img * snd pt) = true) ->
             (forall x y, inside img x y = true -> bitmap img x y = d) ->
             [sample img 0.2 0.2; sample img 0.5 0.2; sample img 0.8 0.5;
              sample img 0.3 0.8; sample img 0.7 0.7]
             = repeat (hex (calculateColorDetails (data0 d) (data1 d) (data2 d))) 5).
  { intros d Hin Hd. unfold sample.
    pose proof (Hin (0.2, 0.2) ltac:(cbn; auto)) as H1.
    pose proof (Hin (0.5, 0.2) ltac:(cbn; auto)) as H2.
    pose proof (Hin (0.8, 0.5) ltac:(cbn; auto)) as H3.
    pose proof (Hin (0.3, 0.8) ltac:(cbn; auto)) as H4.
    pose proof (Hin (0.7, 0.7) ltac:(cbn; auto 10)) as H5.
    cbn [fst snd] in H1, H2, H3, H4, H5.
    rewrite (Hd _ _ H1), (Hd _ _ H2), (Hd _ _ H3), (Hd _ _ H4), (Hd _ _ H5).
    reflexivity. }
  split; [reflexivity|]. split; [reflexivity|]. split; [reflexivity|].
  split; [reflexivity|]. split; [exact U|].
  intros d w h Ew Eh Hw Hh Hd.
  pose proof (points_inside img w h Ew Eh Hw Hh) as Hin.
  split; [exact Hin | exact (U d Hin Hd)].
Qed.

(** An image of 10 by 10 pixels of the colour (16, 32, 48): the palette is
    five times its hex. *)
Lemma extractPalette_samples_witness :
  palette (snd (extractPalette (Some example_canvas) (Some example_img) initial_state))
  = ["#102030"; "#102030"; "#102030"; "#102030"; "#102030"].
Proof.
  destruct (extractPalette_samples example_canvas example_img initial_state eq_refl)
    as (_ & _ & _ & _ & _ & H).
  exact (proj2 (H (Byte.x10, Byte.x20, Byte.x30, Byte.xff) 10%Z 10%Z
                  eq_refl eq_refl ltac:(lia) ltac:(lia) (fun _ _ _ => eq_refl))).
Defined.

(** ** From HSL to RGB and back *)

Lemma hslToRgb_levels (h s l : number) :
  hslToRgb h s l
  = {| r := Math_round (level (l / 100) (chroma s l) (wave h 0));
       g := Math_round (level (l / 100) (chroma s l) (wave h 8));
       b := Math_round (level (l / 100) (chroma s l) (wave h 4)) |}.
Proof. reflexivity. Qed.

(** Machine integers and their values. *)

Lemma to_Z_of_Z_hue (z : Z) : (0 <= z <= 360)%Z -> Uint63.to_Z (Uint63.of_Z z) = z.
Proof.
  intros Hz. rewrite Uint63.of_Z_spec. apply Z.mod_small.
  split; [lia|]. apply Z.le_lt_trans with 360%Z; [lia | reflexivity].
Qed.

Lemma to_Z_add_small (n k : int) :
  (Uint63.to_Z n + Uint63.to_Z k <= 1000)%Z ->
  Uint63.to_Z (n + k) = (Uint63.to_Z n + Uint63.to_Z k)%Z.
Proof.
  intros H. rewrite Uint63.add_spec. apply Z.mod_small.
  pose proof (Uint63.to_Z_bounded n). pose proof (Uint63.to_Z_bounded k).
  split; [lia|]. apply Z.le_lt_trans with 1000%Z; [lia | reflexivity].
Qed.

Lemma to_Z_sub_le (n k : int) :
  (Uint63.to_Z k <= Uint63.to_Z n)%Z ->
  Uint63.to_Z (n - k) = (Uint63.to_Z n - Uint63.to_Z k)%Z.
Proof.
  intros H. rewrite Uint63.sub_spec. apply Z.mod_small.
  pose proof (Uint63.to_Z_bounded n). pose proof (Uint63.to_Z_bounded k). lia.
Qed.

Lemma eqb_to_Z (x y : int) : (Uint63.to_Z x =? Uint63.to_Z y)%Z = Uint63.eqb x y.
Proof.
  destruct (Z.eqb_spec (Uint63.to_Z x) (Uint63.to_Z y)) as [E | N]; symmetry.
  - apply Uint63.eqb_spec. now apply Uint63.to_Z_inj.
  - apply not_true_is_false. intros C. apply Uint63.eqb_spec in C. now subst y.
Qed.


(** The HSL block on machine integers. *)

Lemma chan_to_Z (n : int) : chan (Uint63.to_Z n) = chan_int n.
Proof. unfold chan, chan_int. now rewrite <- of_uint63_of_Z. Qed.


Lemma near_spec (n x : int) :
  (Uint63.to_Z x <= 360)%Z -> near n x = true ->
  (Z.abs (Uint63.to_Z n - Uint63.to_Z x) <= 1)%Z.
Proof.
  intros Hx H. unfold near in H. apply andb_prop in H as [H1 H2].
  apply Uint63.leb_spec in H1, H2.
  pose proof (Uint63.to_Z_bounded x).
  rewrite to_Z_add_small in H1 by (change (Uint63.to_Z 1) with 1%Z; lia).
  change (Uint63.to_Z 1) with 1%Z in H1.
  rewrite to_Z_add_small in H2 by (change (Uint63.to_Z 1) with 1%Z; lia).
  change (Uint63.to_Z 1) with 1%Z in H2. lia.
Qed.

Lemma near_turn_spec (n x : int) :
  (Uint63.to_Z x <= 360)%Z -> near_turn n x = true ->
  (Uint63.to_Z n <= 360)%Z
  /\ ((Z.abs (Uint63.to_Z n - Uint63.to_Z x) <= 1)%Z
      \/ (359 <= Z.abs (Uint63.to_Z n - Uint63.to_Z x))%Z).
Proof.
  intros Hx H. unfold near_turn in H. apply andb_prop in H as [Hn H].
  apply Uint63.leb_spec in Hn. change (Uint63.to_Z 360) with 360%Z in Hn.
  split; [exact Hn|].
  apply orb_prop in H as [H | H]; [apply orb_prop in H as [H | H]|].
  - left. now apply near_spec.
  - right. apply Uint63.leb_spec in H.
    rewrite to_Z_add_small in H by (change (Uint63.to_Z 359) with 359%Z; lia).
    change (Uint63.to_Z 359) with 359%Z in H. lia.
  - right. apply Uint63.leb_spec in H.
    rewrite to_Z_add_small in H by (change (Uint63.to_Z 359) with 359%Z; lia).
    change (Uint63.to_Z 359) with 359%Z in H. lia.
Qed.

(** The table of the wave. *)

Lemma wave_table_sweep : forall_below 361 wave_table_check = true.
Proof. vm_compute. reflexivity. Qed.

Lemma wave_table_In (hue : Z) :
  (0 <= hue <= 360)%Z ->
  In (Uint63.of_Z hue,
      (wave (JS.of_Z hue) 0, wave (JS.of_Z hue) 8, wave (JS.of_Z hue) 4)) wave_table.
Proof.
  intros Hh.
  pose proof (forall_below_spec 361 _ wave_table_sweep hue ltac:(lia)) as H.
  unfold wave_table_check in H.
  rewrite <- of_Z_nonneg in H by lia.
  revert H.
  generalize (wave (JS.of_Z hue) 0) (wave (JS.of_Z hue) 8) (wave (JS.of_Z hue) 4).
  intros w0 w8 w4 H.
  destruct (nth_error wave_table (Z.to_nat hue)) as [[j [[t0 t8] t4]]|] eqn:E;
    [|discriminate].
  apply andb_prop in H as [H H4]. apply andb_prop in H as [H H8].
  apply andb_prop in H as [Hj H0].
  apply Uint63.eqb_spec in Hj. apply float_eq in H0, H8, H4. subst j t0 t8 t4.
  exact (nth_error_In _ _ E).
Qed.

(** The round trip, for every saturation, lightness and hue. *)

Lemma roundtrip_sweep :
  forall_below 101 (fun _ s => forall_below 101 (fun _ l => roundtrip_ok s l)) = true.
Proof. vm_compute. reflexivity. Qed.

(** What [hue_ok] checks, for a row of the table. *)
Lemma hue_ok_spec (l_ a : number) (lo hi hue : int) (t0 t8 t4 : number) :
  (Uint63.to_Z lo <= Uint63.to_Z hi <= 255)%Z -> (Uint63.to_Z hue <= 360)%Z ->
  hue_ok l_ a lo hi (hue, (t0, t8, t4)) = true ->
  exists n0 n8 n4 : int,
    Math_round (level l_ a t0) = of_uint63 n0
    /\ Math_round (level l_ a t8) = of_uint63 n8
    /\ Math_round (level l_ a t4) = of_uint63 n4
    /\ (Uint63.to_Z lo <= Uint63.to_Z n0 <= Uint63.to_Z hi)%Z
    /\ (Uint63.to_Z lo <= Uint63.to_Z n8 <= Uint63.to_Z hi)%Z
    /\ (Uint63.to_Z lo <= Uint63.to_Z n4 <= Uint63.to_Z hi)%Z
    /\ Z.max (Z.max (Uint63.to_Z n0) (Uint63.to_Z n8)) (Uint63.to_Z n4) = Uint63.to_Z hi
    /\ Z.min (Z.min (Uint63.to_Z n0) (Uint63.to_Z n8)) (Uint63.to_Z n4) = Uint63.to_Z lo
    /\ ((38 <= Uint63.to_Z hi - Uint63.to_Z lo)%Z ->
        exists n, Math_round (hue_turns n0 n8 n4 hi lo * 360) = of_uint63 n
                  /\ (Uint63.to_Z n <= 360)%Z
                  /\ ((Z.abs (Uint63.to_Z n - Uint63.to_Z hue) <= 1)%Z
                      \/ (359 <= Z.abs (Uint63.to_Z n - Uint63.to_Z hue))%Z)).
Proof.
  intros Hlohi Hhue'. unfold hue_ok.
  destruct (round_nat (level l_ a t0)) as [n0|] eqn:E0; [|discriminate].
  destruct (round_nat (level l_ a t8)) as [n8|] eqn:E8; [|discriminate].
  destruct (round_nat (level l_ a t4)) as [n4|] eqn:E4; [|discriminate].
  intros H.
  apply andb_prop in H as [H Hhue]. apply andb_prop in H as [H Hmin].
  apply andb_prop in H as [H Hmax].
  apply andb_prop in H as [H B4']. apply andb_prop in H as [H B4].
  apply andb_prop in H as [H B8']. apply andb_prop in H as [H B8].
  apply andb_prop in H as [B0 B0'].
  apply Uint63.leb_spec in B0, B0', B8, B8', B4, B4'.
  exists n0, n8, n4.
  split; [exact (round_nat_spec _ _ E0)|].
  split; [exact (round_nat_spec _ _ E8)|].
  split; [exact (round_nat_spec _ _ E4)|].
  split; [lia|]. split; [lia|]. split; [lia|].
  split; [|split].
  - apply orb_prop in Hmax as [Hmax | Hmax]; [apply orb_prop in Hmax as [Hmax | Hmax]|];
      apply Uint63.eqb_spec in Hmax; subst hi; lia.
  - apply orb_prop in Hmin as [Hmin | Hmin]; [apply orb_prop in Hmin as [Hmin | Hmin]|];
      apply Uint63.eqb_spec in Hmin; subst lo; lia.
  - intros Hspread. apply orb_prop in Hhue as [C | Hhue].
    + apply Uint63.ltb_spec in C. rewrite to_Z_sub_le in C by lia.
      change (Uint63.to_Z 38) with 38%Z in C. lia.
    + destruct (round_nat (hue_turns n0 n8 n4 hi lo * 360)) as [n|] eqn:En;
        [|discriminate].
      exists n. split; [exact (round_nat_spec _ _ En)|].
      now apply near_turn_spec.
Qed.

(** What [roundtrip_ok] checks, for a saturation and a lightness. *)
Lemma roundtrip_facts (sat lum : Z) :
  (0 <= sat <= 100)%Z -> (0 <= lum <= 100)%Z ->
  exists lo hi : int,
    (Uint63.to_Z lo <= Uint63.to_Z hi <= 255)%Z
    /\ Math_round (lightness (chan_int hi) (chan_int lo) * 100) = JS.of_Z lum
    /\ ((56 <= Uint63.to_Z hi - Uint63.to_Z lo)%Z ->
        exists n, Math_round (saturation (chan_int hi) (chan_int lo) * 100) = of_uint63 n
                  /\ (Z.abs (Uint63.to_Z n - sat) <= 1)%Z)
    /\ forallb (hue_ok (JS.of_Z lum / 100) (chroma (JS.of_Z sat) (JS.of_Z lum)) lo hi)
               wave_table = true.
Proof.
  intros Hs Hl.
  pose proof (forall_below_spec 101 _ roundtrip_sweep sat ltac:(lia)) as H.
  cbv beta in H.
  pose proof (forall_below_spec _ _ H lum ltac:(lia)) as H'.
  cbv beta in H'. clear H. unfold roundtrip_ok in H'. cbv zeta in H'.
  rewrite <- !of_Z_nonneg in H' by lia.
  destruct (round_nat (level (JS.of_Z lum / 100) (chroma (JS.of_Z sat) (JS.of_Z lum)) 1))
    as [lo|] eqn:Elo; [|discriminate].
  destruct (round_nat (level (JS.of_Z lum / 100) (chroma (JS.of_Z sat) (JS.of_Z lum)) (-1)))
    as [hi|] eqn:Ehi; [|discriminate].
  apply andb_prop in H' as [H' Hrows]. apply andb_prop in H' as [H' Hsat].
  apply andb_prop in H' as [H' Hlight]. apply andb_prop in H' as [Hlo Hhi].
  apply Uint63.leb_spec in Hlo, Hhi. change (Uint63.to_Z 255) with 255%Z in Hhi.
  apply float_eq in Hlight.
  exists lo, hi. split; [lia|]. split; [exact Hlight|]. split; [|exact Hrows].
  intros Hspread. apply orb_prop in Hsat as [C | Hsat].
  - apply Uint63.ltb_spec in C. rewrite to_Z_sub_le in C by lia.
    change (Uint63.to_Z 56) with 56%Z in C. lia.
  - destruct (round_nat (saturation (chan_int hi) (chan_int lo) * 100)) as [n|] eqn:En;
      [|discriminate].
    exists n. split; [exact (round_nat_spec _ _ En)|].
    apply near_spec in Hsat; rewrite to_Z_of_Z_hue in * by lia; lia.
Qed.

(** Two channels that are the same number are the same integer. *)
Lemma of_Z_channel_inj (x y : Z) :
  (0 <= x <= 255)%Z -> (0 <= y <= 255)%Z -> JS.of_Z x = JS.of_Z y -> x = y.
Proof.
  intros Hx Hy E. apply Z.eqb_eq. rewrite <- chan_eqb by assumption.
  unfold chan. rewrite E. now apply (chan_diag y).
Qed.




(** * Further properties of the code *)

(** ** Sessions keep their data well formed *)

Lemma of_byte_channel (x : Byte.byte) :
  exists z, (0 <= z <= 255)%Z /\ of_byte x = JS.of_Z z.
Proof.
  exists (Z.of_N (Strings.Byte.to_N x)). split; [|reflexivity].
  pose proof (Strings.Byte.to_N_bounded x). lia.
Qed.

(** The HSL block stays within the ranges of the sliders. *)
Lemma hsl_valid (r g b : Z) :
  (0 <= r <= 255)%Z -> (0 <= g <= 255)%Z -> (0 <= b <= 255)%Z ->
  valid_hsl (hsl (calculateColorDetails (JS.of_Z r) (JS.of_Z g) (JS.of_Z b))).
Proof.
  intros Hr Hg Hb. unfold valid_hsl.
  rewrite hsl_calculateColorDetails by assumption.
  remember (Z.max (Z.max r g) b) as M eqn:EM.
  remember (Z.min (Z.min r g) b) as m eqn:Em.
  destruct (sl_range M m) as [Hl Hs]; [lia | lia |].
  unfold hsl_of_channels. cbn [h s l].
  destruct (Z.eqb_spec M m) as [E | N]; cbn [negb fst snd].
  - repeat split; [exists 0%Z; split; [lia | reflexivity] .. | exact Hl].
  - split; [| split; [apply Hs; congruence | exact Hl]].
    destruct (Z.eqb_spec M r) as [Er | Nr].
    + replace m with (Z.min g b) by lia. rewrite Er.
      apply (hue_range r g b); lia.
    + destruct (Z.eqb_spec M g) as [Eg | Ng].
      * replace m with (Z.min b r) by lia. rewrite Eg.
        apply (hue_range g b r); lia.
      * replace m with (Z.min r g) by lia. replace M with b by lia.
        apply (hue_range b r g); lia.
Qed.

Lemma pixel_hex_pattern (x : string) : pixel_hex x -> matches_hex_pattern x = true.
Proof.
  intros (r & g & b & Hr & Hg & Hb & ->).
  destruct (hex_of_channels r g b Hr Hg Hb)
    as (r1 & r2 & g1 & g2 & b1 & b2 & Er & Eg & Eb & Hdig & _).
  unfold calculateColorDetails, hex. rewrite Er, Eg, Eb.
  cbn [append matches_hex_pattern]. exact Hdig.
Qed.

(** The converter makes a well-formed colour of three channels. *)
Lemma calculateColorDetails_valid (r g b : Z) :
  (0 <= r <= 255)%Z -> (0 <= g <= 255)%Z -> (0 <= b <= 255)%Z ->
  valid_color (calculateColorDetails (JS.of_Z r) (JS.of_Z g) (JS.of_Z b)).
Proof.
  intros Hr Hg Hb.
  destruct (hex_decode r g b Hr Hg Hb) as (Dr & Dg & Db). cbv zeta in Dr, Dg, Db.
  unfold valid_color.
  split; [|split; [now apply hsl_valid | split; [|split; [|split]]]].
  - repeat split; [exists r | exists g | exists b]; split; (lia || reflexivity).
  - apply pixel_hex_pattern. now exists r, g, b.
  - exact Dr.
  - exact Dg.
  - exact Db.
Qed.

Lemma pixel_valid (d : ImageData) :
  valid_color (calculateColorDetails (data0 d) (data1 d) (data2 d))
  /\ pixel_hex (hex (calculateColorDetails (data0 d) (data1 d) (data2 d))).
Proof.
  unfold data0, data1, data2.
  destruct (of_byte_channel (fst (fst (fst d)))) as (x & Hx & ->).
  destruct (of_byte_channel (snd (fst (fst d)))) as (y & Hy & ->).
  destruct (of_byte_channel (snd (fst d))) as (z & Hz & ->).
  split; [now apply calculateColorDetails_valid | now exists x, y, z].
Qed.

(** A click on a swatch selects the colour of the swatch. *)
Lemma swatchClick_pixel_hex (x : string) (st : State) :
  pixel_hex x ->
  valid_color (colorData (swatchClick x st)) /\ hex (colorData (swatchClick x st)) = x.
Proof.
  intros (r & g & b & Hr & Hg & Hb & ->).
  destruct (hex_decode r g b Hr Hg Hb) as (Dr & Dg & Db). cbv zeta in Dr, Dg, Db.
  unfold swatchClick. cbv zeta. rewrite Dr, Dg, Db. cbn [setColorData colorData].
  split; [now apply calculateColorDetails_valid | reflexivity].
Qed.

Lemma NoDup_firstn (n : nat) (xs : list string) : NoDup xs -> NoDup (firstn n xs).
Proof.
  intros H. rewrite <- (firstn_skipn n xs) in H.
  exact (NoDup_app_remove_r _ _ H).
Qed.

Lemma Forall_firstn_pixel (n : nat) (xs : list string) :
  Forall pixel_hex xs -> Forall pixel_hex (firstn n xs).
Proof.
  rewrite !Forall_forall. intros H x Hx. apply H. exact (In_firstn _ _ _ Hx).
Qed.

Lemma record_ok (history : list string) (x : string) :
  pixel_hex x -> Forall pixel_hex history -> NoDup history ->
  Forall pixel_hex (record history x) /\ NoDup (record history x)
  /\ ((List.length history <= 12)%nat -> (List.length (record history x) <= 12)%nat).
Proof.
  intros Hx HF HN. unfold record.
  destruct (includes x history) eqn:E; cbn [negb].
  - repeat split; auto.
  - assert (Hnot : ~ In x history).
    { intros C. apply includes_In in C. congruence. }
    split; [apply Forall_firstn_pixel; now constructor|].
    split; [apply NoDup_firstn; now constructor|].
    intros _. apply firstn_le_length.
Qed.

(** Every handler keeps the two lists of swatches well formed. *)
Lemma step_swatches_ok (st : State) (ev : Event) :
  swatches_ok st -> swatches_ok (step st ev).
Proof.
  intros (HF & HN & HL & PF & PL).
  destruct ev; cbn [step]; try (repeat split; assumption).
  - unfold handleKeyDown. destruct (_ && _); repeat split; assumption.
  - unfold extractPalette.
    destruct canvas as [cv|], img as [im|]; try (repeat split; assumption).
    destruct (has_context cv); [|repeat split; assumption].
    cbn [snd setPalette]. unfold swatches_ok. cbn [history palette].
    split; [assumption|]. split; [assumption|]. split; [assumption|].
    split; [|right; reflexivity].
    apply Forall_forall. intros x Hx. apply in_map_iff in Hx as (pt & <- & _).
    apply pixel_valid.
  - destruct canvas as [cv|], img as [im|]; try (repeat split; assumption).
    destruct (has_context cv) eqn:Hc.
    + destruct (pickColor_spec e cv im st Hc) as [_ Eh].
      assert (Ep : palette (pickColor e (Some cv) (Some im) st) = palette st).
      { unfold pickColor. rewrite Hc. cbv zeta. now destruct (negb _). }
      unfold swatches_ok. rewrite Eh, Ep.
      destruct (record_ok (history st) (hex (picked e cv im))) as (R1 & R2 & R3);
        [apply pixel_valid | assumption | assumption |].
      repeat split; auto.
    + unfold pickColor. rewrite Hc. repeat split; assumption.
  - destruct (nth_error (palette st) i); repeat split; assumption.
  - destruct (nth_error (history st) i); repeat split; assumption.
Qed.

Lemma run_swatches_ok (evs : list Event) (st : State) :
  swatches_ok st -> swatches_ok (run st evs).
Proof.
  revert st. induction evs as [|ev evs IH]; intros st H; [exact H|].
  apply (IH (step st ev)). now apply step_swatches_ok.
Qed.

Lemma initial_swatches_ok : swatches_ok initial_state.
Proof.
  unfold swatches_ok. cbn [initial_state history palette].
  split; [constructor|]. split; [constructor|]. split; [cbn; lia|].
  split; [constructor | now left].
Qed.

(** [hslToRgb] makes three channels of what the sliders can hold. *)
Lemma hslToRgb_channels (hue sat lum : Z) :
  (0 <= hue <= 360)%Z -> (0 <= sat <= 100)%Z -> (0 <= lum <= 100)%Z ->
  exists rz gz bz : Z,
    hslToRgb (JS.of_Z hue) (JS.of_Z sat) (JS.of_Z lum)
    = {| r := JS.of_Z rz; g := JS.of_Z gz; b := JS.of_Z bz |}
    /\ (0 <= rz <= 255)%Z /\ (0 <= gz <= 255)%Z /\ (0 <= bz <= 255)%Z.
Proof.
  intros Hh Hs Hl.
  rewrite hslToRgb_levels.
  destruct (roundtrip_facts sat lum Hs Hl) as (lo & hi & Hlohi & _ & _ & Hrows).
  rewrite forallb_forall in Hrows.
  pose proof (Hrows _ (wave_table_In hue Hh)) as Hrow. clear Hrows.
  revert Hrow.
  generalize (wave (JS.of_Z hue) 0) (wave (JS.of_Z hue) 8) (wave (JS.of_Z hue) 4).
  intros t0 t8 t4 Hrow.
  pose proof (Uint63.to_Z_bounded lo) as Blo.
  apply hue_ok_spec in Hrow; [| lia | rewrite to_Z_of_Z_hue; lia].
  destruct Hrow as (n0 & n8 & n4 & E0 & E8 & E4 & B0 & B8 & B4 & _).
  exists (Uint63.to_Z n0), (Uint63.to_Z n8), (Uint63.to_Z n4).
  split; [rewrite E0, E8, E4, !of_uint63_of_Z; reflexivity|].
  split; [lia|]. split; lia.
Qed.

Lemma updateFromHSL_valid (hue sat lum : Z) (st : State) :
  (0 <= hue <= 360)%Z -> (0 <= sat <= 100)%Z -> (0 <= lum <= 100)%Z ->
  valid_color (colorData (updateFromHSL (JS.of_Z hue) (JS.of_Z sat) (JS.of_Z lum) st)).
Proof.
  intros Hh Hs Hl.
  destruct (hslToRgb_channels hue sat lum Hh Hs Hl) as (rz & gz & bz & E & Hr & Hg & Hb).
  unfold updateFromHSL. cbv zeta. rewrite E. cbn [r g b setColorData colorData].
  now apply calculateColorDetails_valid.
Qed.

(** Every handler keeps [colorData] well formed, the sliders reporting
    values of their ranges. *)
Lemma step_valid_color (st : State) (ev : Event) :
  swatches_ok st -> valid_color (colorData st) -> slider_ok ev ->
  valid_color (colorData (step st ev)).
Proof.
  intros (HF & _ & _ & PF & _) Hc Hev.
  pose proof Hc as (_ & ((hz & Hhz & Eh) & (sz & Hsz & Es) & (lz & Hlz & El)) & _).
  destruct ev; cbn [step]; try assumption.
  - unfold handleKeyDown. now destruct (_ && _).
  - unfold extractPalette.
    destruct canvas as [cv|], img as [im|]; try assumption.
    now destruct (has_context cv).
  - destruct canvas as [cv|], img as [im|]; try assumption.
    destruct (has_context cv) eqn:Hctx.
    + destruct (pickColor_spec e cv im st Hctx) as [-> _]. apply pixel_valid.
    + unfold pickColor. now rewrite Hctx.
  - destruct (nth_error (palette st) i) as [x|] eqn:E; [|assumption].
    apply swatchClick_pixel_hex.
    rewrite Forall_forall in PF. apply PF. exact (nth_error_In _ _ E).
  - destruct (nth_error (history st) i) as [x|] eqn:E; [|assumption].
    apply swatchClick_pixel_hex.
    rewrite Forall_forall in HF. apply HF. exact (nth_error_In _ _ E).
  - destruct Hev as (v & Hv & ->). rewrite Es, El. now apply updateFromHSL_valid.
  - destruct Hev as (v & Hv & ->). rewrite Eh, El. now apply updateFromHSL_valid.
  - destruct Hev as (v & Hv & ->). rewrite Eh, Es. now apply updateFromHSL_valid.
Qed.

Lemma initial_valid_color : valid_color (colorData initial_state).
Proof.
  unfold valid_color, valid_rgb, valid_hsl. cbn [initial_state colorData rgb hsl hex r g b h s l].
  repeat split;
    try (vm_compute; reflexivity);
    [exists 99%Z | exists 102%Z | exists 241%Z | exists 239%Z | exists 84%Z | exists 67%Z];
    (split; [lia | reflexivity]).
Qed.

Lemma step_on_same (st : State) (ev : Event) : step_on st st ev = step st ev.
Proof. destruct ev; reflexivity. Qed.

Lemma batch_single (st : State) (ev : Event) : batch st [ev] = step st ev.
Proof. apply step_on_same. Qed.

Lemma run_batches_single (evs : list Event) (st : State) :
  run_batches st (map (fun ev => [ev]) evs) = run st evs.
Proof.
  revert st. induction evs as [|ev evs IH]; intros st; [reflexivity|].
  cbn [map run_batches run fold_left]. rewrite batch_single. apply IH.
Qed.

(** Whatever render a handler belongs to, it keeps the history within 12
    hex strings of pixels. *)
Lemma step_on_history_ok (rendered st : State) (ev : Event) :
  history_ok st -> history_ok (step_on rendered st ev).
Proof.
  intros [HF HL].
  destruct ev; cbn [step_on]; try (split; assumption).
  - destruct (_ && _); split; assumption.
  - unfold extractPalette.
    destruct canvas as [cv|], img as [im|]; try (split; assumption).
    destruct (has_context cv); split; assumption.
  - unfold pickColor_on.
    destruct canvas as [cv|], img as [im|]; try (split; assumption).
    destruct (has_context cv); [| split; assumption]. cbv zeta.
    destruct (negb _); [| split; assumption].
    unfold history_ok. cbn [setHistory setColorData history].
    split; [| apply firstn_le_length].
    apply Forall_firstn_pixel. constructor; [apply pixel_valid | exact HF].
  - destruct (nth_error (palette rendered) i); split; assumption.
  - destruct (nth_error (history rendered) i); split; assumption.
Qed.

Lemma batch_history_ok (evs : list Event) (rendered st : State) :
  history_ok st -> history_ok (fold_left (step_on rendered) evs st).
Proof.
  revert st. induction evs as [|ev evs IH]; intros st H; [exact H|].
  apply (IH (step_on rendered st ev)). now apply step_on_history_ok.
Qed.

Lemma run_batches_history_ok (batches : list (list Event)) (st : State) :
  history_ok st -> history_ok (run_batches st batches).
Proof.
  revert st. induction batches as [|evs batches IH]; intros st H; [exact H|].
  apply (IH (batch st evs)). now apply batch_history_ok.
Qed.

Lemma run_batches_swatches_ok (batches : list (list Event)) (st : State) :
  (forall evs, In evs batches -> (List.length evs <= 1)%nat) ->
  swatches_ok st -> swatches_ok (run_batches st batches).
Proof.
  revert st. induction batches as [|evs batches IH]; intros st Hb H; [exact H|].
  apply (IH (batch st evs)); [intros evs' Hin; apply Hb; now right|].
  pose proof (Hb evs (or_introl eq_refl)) as Hlen.
  destruct evs as [|ev [|ev' evs]]; [exact H | | cbn in Hlen; lia].
  rewrite batch_single. now apply step_swatches_ok.
Qed.

(** X1. The selection history holds at most 12 entries, and every entry is
    the hex string of a pixel, [#] and six lowercase hexadecimal digits,
    however the events of a session are spread over the renders.  When
    every event is handled after the re-render of the one before, which is
    the session [run] describes, no entry occurs twice.  Two clicks handled
    by the [pickColor] of one render can record a colour twice: the test
    reads the history of the render, the updater prepends to the history
    the first click has left. *)
Theorem history_invariant :
  (forall batches : list (list Event),
      let entries := history (run_batches initial_state batches) in
      (List.length entries <= 12)%nat
      /\ (forall x, In x entries -> pixel_hex x /\ matches_hex_pattern x = true)
      /\ ((forall evs, In evs batches -> (List.length evs <= 1)%nat) -> NoDup entries))
  /\ (forall evs : list Event,
      run_batches initial_state (map (fun ev => [ev]) evs) = run initial_state evs
      /\ NoDup (history (run initial_state evs)))
  /\ (let click := ImageClick {| clientX := 3; clientY := 4 |} example_drawn
                     (Some example_img) in
      history (run_batches initial_state [[click; click]]) = ["#102030"; "#102030"]
      /\ history (run_batches initial_state [[click]; [click]]) = ["#102030"]).
Proof.
  assert (I0 : history_ok initial_state) by (split; [constructor | cbn; lia]).
  split; [| split].
  - intros batches. cbv zeta.
    destruct (run_batches_history_ok batches initial_state I0) as [HF HL].
    split; [exact HL|]. split.
    + intros x Hx. rewrite Forall_forall in HF.
      split; [now apply HF | now apply pixel_hex_pattern, HF].
    + intros Hb.
      apply (run_batches_swatches_ok batches initial_state Hb initial_swatches_ok).
  - intros evs. split; [apply run_batches_single|].
    apply (run_swatches_ok evs initial_state initial_swatches_ok).
  - cbv zeta. split; vm_compute; reflexivity.
Qed.

(** X2. In every state a session reaches, the palette is empty or holds
    five entries, each the hex string of a pixel. *)
Theorem palette_invariant (evs : list Event) :
  let palette := palette (run initial_state evs) in
  (palette = [] \/ List.length palette = 5%nat)
  /\ forall x, In x palette -> pixel_hex x /\ matches_hex_pattern x = true.
Proof.
  destruct (run_swatches_ok evs initial_state initial_swatches_ok)
    as (_ & _ & _ & PF & PL).
  cbv zeta. split; [exact PL|].
  intros x Hx. rewrite Forall_forall in PF.
  split; [now apply PF | now apply pixel_hex_pattern, PF].
Qed.

Lemma run_valid_color (evs : list Event) (st : State) :
  swatches_ok st -> valid_color (colorData st) -> Forall slider_ok evs ->
  valid_color (colorData (run st evs)).
Proof.
  revert st. induction evs as [|ev evs IH]; intros st Hs Hc Hev; [exact Hc|].
  inversion Hev as [|? ? Hev1 Hev2]; subst.
  apply (IH (step st ev)); [now apply step_swatches_ok | now apply step_valid_color | exact Hev2].
Qed.

(** X3. As long as the sliders report integers of their ranges, the
    colour of every state a session reaches is well formed: integral
    channels from 0 to 255, a hue from 0 to 360, saturation and lightness
    from 0 to 100, and a hex string of the pattern that reads back as the
    channels. *)
Theorem colorData_valid (evs : list Event) :
  Forall slider_ok evs -> valid_color (colorData (run initial_state evs)).
Proof.
  intros Hev.
  exact (run_valid_color evs initial_state initial_swatches_ok initial_valid_color Hev).
Qed.

Lemma colorData_valid_witness :
  valid_color
    (colorData (run initial_state
                  (example_session ++ [LightnessSlider 40; HueSlider 360; HistorySwatch 0]))).
Proof.
  apply colorData_valid.
  repeat (constructor; [cbn [slider_ok]; try exact I|]); try constructor.
  - exists 40%Z. split; [lia | reflexivity].
  - exists 360%Z. split; [lia | reflexivity].
Defined.

(** X4. In every state a session reaches, a click on a swatch that is
    shown, of the palette or of the history, selects the colour the swatch
    shows: the hex of the new [colorData] is the hex of the swatch, and
    the colour is well formed. *)
Theorem swatch_selects_its_colour (evs : list Event) (i : nat) (x : string) :
  let st := run initial_state evs in
  (nth_error (palette st) i = Some x ->
   hex (colorData (step st (PaletteSwatch i))) = x
   /\ valid_color (colorData (step st (PaletteSwatch i))))
  /\ (nth_error (history st) i = Some x ->
      hex (colorData (step st (HistorySwatch i))) = x
      /\ valid_color (colorData (step st (HistorySwatch i)))).
Proof.
  cbv zeta.
  destruct (run_swatches_ok evs initial_state initial_swatches_ok)
    as (HF & _ & _ & PF & _).
  rewrite Forall_forall in HF, PF.
  split; intros E; cbn [step]; rewrite E.
  - destruct (swatchClick_pixel_hex x (run initial_state evs)) as [V H];
      [apply PF; exact (nth_error_In _ _ E) | now split].
  - destruct (swatchClick_pixel_hex x (run initial_state evs)) as [V H];
      [apply HF; exact (nth_error_In _ _ E) | now split].
Qed.

Lemma swatch_selects_its_colour_witness :
  hex (colorData (step (run initial_state example_session) (PaletteSwatch 2))) = "#102030"
  /\ hex (colorData (step (run initial_state example_session) (HistorySwatch 0))) = "#102030".
Proof.
  destruct (swatch_selects_its_colour example_session 2 "#102030") as [Hp _].
  destruct (swatch_selects_its_colour example_session 0 "#102030") as [_ Hh].
  split; [apply Hp | apply Hh]; reflexivity.
Defined.

(** X5. Two colours with the same hex string are the same colour: on
    channels from 0 to 255 the hex string determines the channels, so the
    history, which compares hex strings, never takes two colours for
    one. *)
Theorem hex_injective (r1 g1 b1 r2 g2 b2 : Z) :
  (0 <= r1 <= 255)%Z -> (0 <= g1 <= 255)%Z -> (0 <= b1 <= 255)%Z ->
  (0 <= r2 <= 255)%Z -> (0 <= g2 <= 255)%Z -> (0 <= b2 <= 255)%Z ->
  hex (calculateColorDetails (JS.of_Z r1) (JS.of_Z g1) (JS.of_Z b1))
  = hex (calculateColorDetails (JS.of_Z r2) (JS.of_Z g2) (JS.of_Z b2)) ->
  r1 = r2 /\ g1 = g2 /\ b1 = b2.
Proof.
  intros Hr1 Hg1 Hb1 Hr2 Hg2 Hb2 E.
  destruct (hex_decode r1 g1 b1 Hr1 Hg1 Hb1) as (Dr1 & Dg1 & Db1).
  destruct (hex_decode r2 g2 b2 Hr2 Hg2 Hb2) as (Dr2 & Dg2 & Db2).
  cbv zeta in Dr1, Dg1, Db1, Dr2, Dg2, Db2.
  rewrite E in Dr1, Dg1, Db1.
  repeat split; apply of_Z_channel_inj; congruence.
Qed.

Lemma hex_injective_witness :
  String.eqb (hex (calculateColorDetails (JS.of_Z 16) (JS.of_Z 32) (JS.of_Z 48)))
             (hex (calculateColorDetails (JS.of_Z 16) (JS.of_Z 32) (JS.of_Z 49)))
  = false.
Proof.
  destruct (String.eqb_spec
              (hex (calculateColorDetails (JS.of_Z 16) (JS.of_Z 32) (JS.of_Z 48)))
              (hex (calculateColorDetails (JS.of_Z 16) (JS.of_Z 32) (JS.of_Z 49))))
    as [E | N]; [|reflexivity].
  destruct (hex_injective 16 32 48 16 32 49) as (_ & _ & C);
    [lia | lia | lia | lia | lia | lia | exact E |].
  discriminate C.
Defined.

Lemma setColorData_same (st : State) : setColorData (colorData st) st = st.
Proof. now destruct st. Qed.

(** X6. A colour picked on the image can be selected again from the
    history: right after the pick the history shows its hex, and a click
    on that swatch leaves the state as the pick left it. *)
Theorem pick_then_history_click (e : MouseEvent) (canvas : HTMLCanvasElement)
    (img : HTMLImageElement) (st : State) :
  has_context canvas = true ->
  let st' := step st (ImageClick e (Some canvas) (Some img)) in
  exists i,
    nth_error (history st') i = Some (hex (colorData st'))
    /\ step st' (HistorySwatch i) = st'.
Proof.
  intros Hc. cbv zeta. cbn [step].
  destruct (pickColor_spec e canvas img st Hc) as [Ec Eh].
  assert (Hin : In (hex (picked e canvas img)) (record (history st) (hex (picked e canvas img)))).
  { unfold record. destruct (includes _ _) eqn:E; cbn [negb].
    - now apply includes_In.
    - rewrite firstn_cons. now left. }
  apply In_nth_error in Hin as [i Hi].
  exists i. rewrite Eh, Ec. split; [exact Hi|].
  rewrite Hi.
  destruct (pixel_valid (getImageData canvas
             ((clientX e - left (getBoundingClientRect img))
              / rect_width (getBoundingClientRect img) * naturalWidth img)
             ((clientY e - top (getBoundingClientRect img))
              / rect_height (getBoundingClientRect img) * naturalHeight img)))
    as [(_ & _ & _ & Dr & Dg & Db) _].
  fold (picked e canvas img) in Dr, Dg, Db.
  unfold swatchClick. cbv zeta. rewrite Dr, Dg, Db.
  replace (calculateColorDetails (r (rgb (picked e canvas img)))
             (g (rgb (picked e canvas img))) (b (rgb (picked e canvas img))))
    with (picked e canvas img) by reflexivity.
  rewrite <- Ec. apply setColorData_same.
Qed.

Lemma pick_then_history_click_witness :
  exists i,
    nth_error (history (run initial_state example_session)) i
    = Some (hex (colorData (run initial_state example_session)))
    /\ step (run initial_state example_session) (HistorySwatch i)
       = run initial_state example_session.
Proof.
  exact (pick_then_history_click {| clientX := 3; clientY := 4 |}
           {| width := 10; height := 10; has_context := true;
              getImageData := bitmap example_img |}
           example_img
           (run initial_state
              [FileLoaded "data:image/png;base64,iVBORw0KGgo=";
               ImageOnLoad (Some example_canvas) (Some example_img)])
           eq_refl).
Defined.

(** ** The sliders at their ends *)

Lemma chroma_zero_sweep : forall_below 101 chroma_zero_check = true.
Proof. vm_compute. reflexivity. Qed.

Lemma chroma_zero (sat lum : Z) :
  (0 <= sat <= 100)%Z -> (0 <= lum <= 100)%Z ->
  (sat = 0 \/ lum = 0 \/ lum = 100)%Z ->
  chroma (JS.of_Z sat) (JS.of_Z lum) = 0.
Proof.
  intros Hs Hl H.
  pose proof (forall_below_spec 101 _ chroma_zero_sweep sat ltac:(lia)) as S.
  pose proof (forall_below_spec 101 _ chroma_zero_sweep lum ltac:(lia)) as L.
  unfold chroma_zero_check in S, L. cbv zeta in S, L.
  rewrite <- of_Z_nonneg in S, L by lia.
  apply andb_prop in S as [S S100]. apply andb_prop in S as [_ S0].
  apply andb_prop in L as [L _]. apply andb_prop in L as [L0 _].
  apply float_eq in S100, S0, L0.
  destruct H as [-> | [-> | ->]]; assumption.
Qed.

Lemma grey_sweep : forall_below 101 grey_check = true.
Proof. vm_compute. reflexivity. Qed.

(** Without chroma, [hslToRgb] gives the grey of the lightness at every
    hue, and the converter reads hue 0, saturation 0 and the lightness off
    that grey. *)
Lemma hslToRgb_grey (hue lum : Z) (a : number) :
  (0 <= hue <= 360)%Z -> (0 <= lum <= 100)%Z -> a = 0 ->
  (exists v, (0 <= v <= 255)%Z /\ grey (JS.of_Z lum) = JS.of_Z v)
  /\ Math_round (level (JS.of_Z lum / 100) a (wave (JS.of_Z hue) 0)) = grey (JS.of_Z lum)
  /\ Math_round (level (JS.of_Z lum / 100) a (wave (JS.of_Z hue) 8)) = grey (JS.of_Z lum)
  /\ Math_round (level (JS.of_Z lum / 100) a (wave (JS.of_Z hue) 4)) = grey (JS.of_Z lum)
  /\ hsl (calculateColorDetails (grey (JS.of_Z lum)) (grey (JS.of_Z lum))
            (grey (JS.of_Z lum)))
     = {| h := 0; s := 0; l := JS.of_Z lum |}.
Proof.
  intros Hh Hl ->.
  pose proof (forall_below_spec 101 _ grey_sweep lum ltac:(lia)) as H.
  unfold grey_check in H. cbv zeta in H. rewrite <- of_Z_nonneg in H by lia.
  unfold grey.
  destruct (round_nat (JS.of_Z lum / 100 * 255)) as [v|] eqn:Ev; [|discriminate].
  apply andb_prop in H as [H Hrows]. apply andb_prop in H as [Hv Hlight].
  apply Uint63.leb_spec in Hv. change (Uint63.to_Z 255) with 255%Z in Hv.
  apply float_eq in Hlight.
  pose proof (Uint63.to_Z_bounded v) as Bv.
  rewrite forallb_forall in Hrows.
  pose proof (Hrows _ (wave_table_In hue Hh)) as Hrow. clear Hrows.
  revert Hrow.
  generalize (wave (JS.of_Z hue) 0) (wave (JS.of_Z hue) 8) (wave (JS.of_Z hue) 4).
  intros t0 t8 t4 Hrow. cbv beta iota in Hrow.
  apply andb_prop in Hrow as [Hrow H4]. apply andb_prop in Hrow as [H0 H8].
  apply float_eq in H0, H8, H4. rewrite H0, H8, H4.
  rewrite (round_nat_spec _ _ Ev), of_uint63_of_Z.
  split; [exists (Uint63.to_Z v); split; [lia | reflexivity]|].
  split; [reflexivity|]. split; [reflexivity|]. split; [reflexivity|].
  rewrite hsl_calculateColorDetails by lia.
  rewrite !Z.max_id, !Z.min_id. unfold hsl_of_channels.
  rewrite Z.eqb_refl. cbn [negb fst snd].
  rewrite chan_to_Z, Hlight. reflexivity.
Qed.

(** X7. With saturation 0, or lightness 0 or 100, [hslToRgb] gives a grey
    whatever the hue: three equal channels, the rounded lightness scaled to
    255 (0 for lightness 0, 255 for 100), which the converter reads as hue
    0, saturation 0 and the lightness given. *)
Theorem achromatic_sliders (hue sat lum : Z) :
  (0 <= hue <= 360)%Z -> (0 <= sat <= 100)%Z -> (0 <= lum <= 100)%Z ->
  (sat = 0 \/ lum = 0 \/ lum = 100)%Z ->
  let c := hslToRgb (JS.of_Z hue) (JS.of_Z sat) (JS.of_Z lum) in
  c = {| r := grey (JS.of_Z lum); g := grey (JS.of_Z lum); b := grey (JS.of_Z lum) |}
  /\ (exists v, (0 <= v <= 255)%Z /\ grey (JS.of_Z lum) = JS.of_Z v)
  /\ grey 0 = 0 /\ grey 100 = 255
  /\ hsl (calculateColorDetails (r c) (g c) (b c))
     = {| h := 0; s := 0; l := JS.of_Z lum |}.
Proof.
  intros Hh Hs Hl Hz. cbv zeta.
  rewrite hslToRgb_levels.
  destruct (hslToRgb_grey hue lum _ Hh Hl (chroma_zero sat lum Hs Hl Hz))
    as (Hv & E0 & E8 & E4 & Eback).
  rewrite E0, E8, E4. cbn [r g b].
  split; [reflexivity|]. split; [exact Hv|].
  split; [reflexivity|]. split; [reflexivity | exact Eback].
Qed.

Lemma achromatic_sliders_witness :
  let c := hslToRgb (JS.of_Z 200) (JS.of_Z 0) (JS.of_Z 50) in
  c = {| r := grey (JS.of_Z 50); g := grey (JS.of_Z 50); b := grey (JS.of_Z 50) |}
  /\ hsl (calculateColorDetails (r c) (g c) (b c)) = {| h := 0; s := 0; l := JS.of_Z 50 |}.
Proof.
  destruct (achromatic_sliders 200 0 50) as (E & _ & _ & _ & B); try lia.
  split; [exact E | exact B].
Defined.

(** X8. Once a slider has taken the chroma away (saturation 0, or
    lightness 0 or 100), the hue slider has no effect: whatever hue it
    reports, the state stays as it is. *)
Theorem grey_ignores_hue (st : State) (ev : Event) (hue : Z) :
  valid_hsl (hsl (colorData st)) ->
  ev = SaturationSlider 0 \/ ev = LightnessSlider 0 \/ ev = LightnessSlider 100 ->
  (0 <= hue <= 360)%Z ->
  let st' := step st ev in
  hsl (colorData st') = {| h := 0; s := 0; l := l (hsl (colorData st')) |}
  /\ step st' (HueSlider (JS.of_Z hue)) = st'.
Proof.
  intros ((hz & Hhz & Eh) & (sz & Hsz & Es) & (lz & Hlz & El)) Hev Hhue. cbv zeta.
  assert (G : forall h0 s0 l0 : Z,
             (0 <= h0 <= 360)%Z -> (0 <= s0 <= 100)%Z -> (0 <= l0 <= 100)%Z ->
             (s0 = 0 \/ l0 = 0 \/ l0 = 100)%Z ->
             let st' := updateFromHSL (JS.of_Z h0) (JS.of_Z s0) (JS.of_Z l0) st in
             hsl (colorData st') = {| h := 0; s := 0; l := l (hsl (colorData st')) |}
             /\ step st' (HueSlider (JS.of_Z hue)) = st').
  { intros h0 s0 l0 Hh0 Hs0 Hl0 Hz. cbv zeta.
    assert (U : forall h1 s1 st1, (0 <= h1 <= 360)%Z -> (0 <= s1 <= 100)%Z ->
                (s1 = 0 \/ l0 = 0 \/ l0 = 100)%Z ->
                updateFromHSL (JS.of_Z h1) (JS.of_Z s1) (JS.of_Z l0) st1
                = setColorData (calculateColorDetails (grey (JS.of_Z l0)) (grey (JS.of_Z l0))
                                  (grey (JS.of_Z l0))) st1).
    { intros h1 s1 st1 Hh1 Hs1 Hz1. unfold updateFromHSL. cbv zeta.
      rewrite hslToRgb_levels.
      destruct (hslToRgb_grey h1 l0 _ Hh1 Hl0 (chroma_zero s1 l0 Hs1 Hl0 Hz1))
        as (_ & E0 & E8 & E4 & _).
      rewrite E0, E8, E4. reflexivity. }
    destruct (hslToRgb_grey h0 l0 0 Hh0 Hl0 eq_refl) as (_ & _ & _ & _ & Eback).
    rewrite (U h0 s0 st Hh0 Hs0 Hz). cbn [setColorData colorData].
    rewrite Eback. cbn [l]. split; [reflexivity|].
    cbn [step colorData setColorData]. rewrite Eback. cbn [s l].
    change 0 with (JS.of_Z 0) at 1.
    rewrite (U hue 0%Z _ Hhue ltac:(lia) ltac:(now left)).
    reflexivity. }
  destruct Hev as [-> | [-> | ->]]; cbn [step]; rewrite ?Eh, ?Es, ?El.
  - apply (G hz 0%Z lz); auto; lia.
  - apply (G hz sz 0%Z); auto; lia.
  - apply (G hz sz 100%Z); auto; lia.
Qed.

Lemma grey_ignores_hue_witness :
  step (step initial_state (SaturationSlider 0)) (HueSlider (JS.of_Z 120))
  = step initial_state (SaturationSlider 0).
Proof.
  apply (grey_ignores_hue initial_state (SaturationSlider 0) 120).
  - apply initial_valid_color.
  - now left.
  - lia.
Defined.

(** X9. The two ends of the hue slider are the same hue: 360 gives the
    channels 0 gives, at every saturation and lightness. *)
Theorem hue_360_is_hue_0 :
  (forall s l, hslToRgb 360 s l = hslToRgb 0 s l)
  /\ (forall st, step st (HueSlider 360) = step st (HueSlider 0)).
Proof.
  assert (H : forall s l, hslToRgb 360 s l = hslToRgb 0 s l).
  { intros s0 l0. rewrite !hslToRgb_levels.
    replace (wave 360 0) with (wave 0 0) by (vm_compute; reflexivity).
    replace (wave 360 8) with (wave 0 8) by (vm_compute; reflexivity).
    replace (wave 360 4) with (wave 0 4) by (vm_compute; reflexivity).
    reflexivity. }
  split; [exact H|].
  intros st. cbn [step]. unfold updateFromHSL. cbv zeta. now rewrite H.
Qed.

(** ** More of the converter *)

Lemma max_ink_sweep : forall_below 256 max_ink_check = true.
Proof. vm_compute. reflexivity. Qed.

(** The ink of a channel as a percentage; 0 for the largest channel. *)
Lemma ink_percent (M x : Z) :
  (0 <= x <= M)%Z -> (M <= 255)%Z ->
  exists c, (0 <= c <= 100)%Z
            /\ Math_round (ink (chan x) (key (chan M)) * 100) = JS.of_Z c
            /\ (x = M -> c = 0%Z).
Proof.
  intros Hx HM. destruct (Z.eq_dec x M) as [-> | N].
  - pose proof (forall_below_spec 256 _ max_ink_sweep M ltac:(lia)) as H.
    unfold max_ink_check in H. rewrite chan_int_of_Z in H by lia.
    apply float_eq in H. rewrite H.
    exists 0%Z. split; [lia|]. split; reflexivity.
  - destruct (ink_range M x Hx HM) as [_ (c & Hc & Ec)].
    exists c. split; [exact Hc|]. split; [exact Ec | contradiction].
Qed.

(** X10. The ink of the largest channel is 0: in the [cmyk] string of
    every colour, the numeral of C, M or Y that belongs to a largest
    channel is "0", so one of the three always is; and for a grey all
    three are. *)
Theorem cmyk_largest_channel (r g b : Z) :
  (0 <= r <= 255)%Z -> (0 <= g <= 255)%Z -> (0 <= b <= 255)%Z ->
  exists c m y k : Z,
    cmyk (calculateColorDetails (JS.of_Z r) (JS.of_Z g) (JS.of_Z b))
    = decimal c ++ ", " ++ decimal m ++ ", " ++ decimal y ++ ", " ++ decimal k
    /\ (g <= r -> b <= r -> c = 0)%Z
    /\ (r <= g -> b <= g -> m = 0)%Z
    /\ (r <= b -> g <= b -> y = 0)%Z
    /\ (c = 0 \/ m = 0 \/ y = 0)%Z
    /\ (r = g -> g = b -> c = 0 /\ m = 0 /\ y = 0)%Z.
Proof.
  intros Hr Hg Hb.
  rewrite cmyk_calculateColorDetails by assumption. cbv zeta.
  remember (Z.max (Z.max r g) b) as M eqn:EM.
  destruct (ink_range M r) as [(k & Hk & Ek) _]; [lia | lia |].
  destruct (ink_percent M r) as (c & Hc & Ec & Zc); [lia | lia |].
  destruct (ink_percent M g) as (m & Hm & Emg & Zm); [lia | lia |].
  destruct (ink_percent M b) as (y & Hy & Ey & Zy); [lia | lia |].
  exists c, m, y, k.
  rewrite Ec, Emg, Ey, Ek, !Number_toString_decimal by assumption.
  split; [reflexivity|]. repeat split; try lia.
Qed.

Lemma cmyk_largest_channel_witness :
  exists c m y k : Z,
    cmyk (calculateColorDetails (JS.of_Z 99) (JS.of_Z 102) (JS.of_Z 241))
    = decimal c ++ ", " ++ decimal m ++ ", " ++ decimal y ++ ", " ++ decimal k
    /\ y = 0%Z.
Proof.
  destruct (cmyk_largest_channel 99 102 241) as (c & m & y & k & E & _ & _ & Hy & _);
    [lia | lia | lia |].
  exists c, m, y, k. split; [exact E | apply Hy; lia].
Defined.

(** X11. A grey has no hue and no saturation: for three equal channels
    the converter gives hue 0 and saturation 0, the guard [max !== min]
    keeping it off the division by [max - min]. *)
Theorem grey_has_no_hue (v : Z) :
  (0 <= v <= 255)%Z ->
  let c := calculateColorDetails (JS.of_Z v) (JS.of_Z v) (JS.of_Z v) in
  h (hsl c) = 0 /\ s (hsl c) = 0.
Proof.
  intros Hv. cbv zeta. rewrite hsl_calculateColorDetails by assumption.
  rewrite !Z.max_id, !Z.min_id. unfold hsl_of_channels.
  rewrite Z.eqb_refl. cbn [negb fst snd h s l].
  split; reflexivity.
Qed.

Lemma grey_has_no_hue_witness :
  h (hsl (calculateColorDetails (JS.of_Z 128) (JS.of_Z 128) (JS.of_Z 128))) = 0
  /\ s (hsl (calculateColorDetails (JS.of_Z 128) (JS.of_Z 128) (JS.of_Z 128))) = 0.
Proof.
  apply (grey_has_no_hue 128). lia.
Defined.

(** ** More of the contrast memo *)

Lemma dark_sweep : forall_below 11 dark_check = true.
Proof. vm_compute. reflexivity. Qed.

(** X12. [getL] takes its linear branch for the channels 0 to 10 and calls
    [Math.pow] for the channels 11 to 255; so for a colour whose channels
    are all at most 10 the contrast memo does not depend on [Math.pow], and
    it calls the colour dark. *)
Theorem contrast_of_dark_colours (Math_pow Math_pow' : number -> number -> number)
    (rz gz bz : Z) :
  (forall z, (0 <= z <= 255)%Z ->
     getL Math_pow (JS.of_Z z)
     = if (z <=? 10)%Z then JS.of_Z z / 255 / 12.92
       else Math_pow ((JS.of_Z z / 255 + 0.055) / 1.055) 2.4)
  /\ ((0 <= rz <= 10)%Z -> (0 <= gz <= 10)%Z -> (0 <= bz <= 10)%Z ->
      let c := calculateColorDetails (JS.of_Z rz) (JS.of_Z gz) (JS.of_Z bz) in
      contrast Math_pow c = contrast Math_pow' c
      /\ isDark (contrast Math_pow c) = true).
Proof.
  split; [intros z Hz; now apply getL_channel|].
  intros Hr Hg Hb. cbv zeta.
  assert (L : forall pow,
             luminance pow
               (rgb (calculateColorDetails (JS.of_Z rz) (JS.of_Z gz) (JS.of_Z bz)))
             = luminance (fun _ _ => 0)
                 {| r := JS.of_Z rz; g := JS.of_Z gz; b := JS.of_Z bz |}).
  { intros pow. unfold luminance. cbn [rgb calculateColorDetails r g b].
    rewrite !getL_channel by lia.
    replace (rz <=? 10)%Z with true by (symmetry; apply Z.leb_le; lia).
    replace (gz <=? 10)%Z with true by (symmetry; apply Z.leb_le; lia).
    replace (bz <=? 10)%Z with true by (symmetry; apply Z.leb_le; lia).
    reflexivity. }
  unfold contrast. rewrite (L Math_pow), (L Math_pow').
  split; [reflexivity|]. cbn [isDark].
  pose proof (forall_below_spec 11 _ dark_sweep rz ltac:(lia)) as H.
  unfold dark_check in H.
  pose proof (forall_below_spec _ _ H gz ltac:(lia)) as H1. cbv beta in H1.
  pose proof (forall_below_spec _ _ H1 bz ltac:(lia)) as H2. cbv beta in H2.
  rewrite <- !of_Z_nonneg in H2 by lia. exact H2.
Qed.

Lemma contrast_of_dark_colours_witness :
  let c := calculateColorDetails (JS.of_Z 10) (JS.of_Z 0) (JS.of_Z 7) in
  contrast (fun x _ => x) c = contrast (fun _ _ => 0) c
  /\ isDark (contrast (fun x _ => x) c) = true.
Proof.
  apply (contrast_of_dark_colours (fun x _ => x) (fun _ _ => 0) 10 0 7); lia.
Defined.

(** ** What each handler writes *)

(** X13. The footprint of the handlers: loading an image, a key and the
    two reset buttons leave the colour, the palette and the history as they
    are; the [onLoad] of the image writes the palette only; a click on the
    image leaves the image and the palette; swatches and sliders write the
    colour only; and a key that is not Escape, or Escape without an image,
    changes nothing. *)
Theorem handlers_footprint (st : State) (ev : Event) :
  match ev with
  | FileLoaded _ | KeyDown _ | RestartProject | ResetProject =>
      colorData (step st ev) = colorData st /\ palette (step st ev) = palette st
      /\ history (step st ev) = history st
  | ImageOnLoad _ _ =>
      image (step st ev) = image st /\ colorData (step st ev) = colorData st
      /\ history (step st ev) = history st
  | ImageClick _ _ _ =>
      image (step st ev) = image st /\ palette (step st ev) = palette st
  | _ =>
      image (step st ev) = image st /\ palette (step st ev) = palette st
      /\ history (step st ev) = history st
  end
  /\ (forall key, key <> "Escape" \/ truthy (image st) = false ->
        step st (KeyDown key) = st).
Proof.
  split.
  - destruct ev; cbn [step]; try (repeat split; reflexivity).
    + unfold handleKeyDown. destruct (_ && _); repeat split; reflexivity.
    + unfold extractPalette.
      destruct canvas as [cv|], img as [im|]; try (repeat split; reflexivity).
      destruct (has_context cv); repeat split; reflexivity.
    + unfold pickColor.
      destruct canvas as [cv|], img as [im|]; try (repeat split; reflexivity).
      destruct (has_context cv); [|repeat split; reflexivity].
      cbv zeta. destruct (negb _); repeat split; reflexivity.
    + destruct (nth_error (palette st) i); repeat split; reflexivity.
    + destruct (nth_error (history st) i); repeat split; reflexivity.
  - intros key H. cbn [step]. unfold handleKeyDown.
    destruct H as [N | ->]; [|now rewrite andb_false_r].
    apply String.eqb_neq in N. now rewrite N.
Qed.

(** ** Pasting and choosing a file *)

Lemma run_FileLoaded (order : list string) (st : State) :
  colorData (run st (map FileLoaded order)) = colorData st
  /\ palette (run st (map FileLoaded order)) = palette st
  /\ history (run st (map FileLoaded order)) = history st
  /\ (order = [] /\ run st (map FileLoaded order) = st
      \/ exists blob, In blob order /\ image (run st (map FileLoaded order)) = Some blob).
Proof.
  revert st. induction order as [|x xs IH] using rev_ind; intros st.
  - repeat split. now left.
  - unfold run in *. rewrite map_app, fold_left_app. cbn [map fold_left step].
    destruct (IH st) as (Ec & Ep & Eh & _).
    cbn [setImage colorData palette history image].
    repeat split; try assumption.
    right. exists x. split; [apply in_or_app; right; now left | reflexivity].
Qed.

(** X14. A paste changes nothing but the image: in whatever order the
    readers finish, the colour, the palette and the history stay as they
    are; when some clipboard item has a type containing "image" and a file,
    the image ends as the file of such an item; when none has, or the
    clipboard has no items, no reader is started and the state stays as it
    is.  The file input reads the first chosen file only. *)
Theorem paste_loads_an_image (clipboard : list DataTransferItem) (order : list string)
    (st : State) :
  Permutation order (handlePaste (Some clipboard)) ->
  let st' := run st (map FileLoaded order) in
  colorData st' = colorData st /\ palette st' = palette st /\ history st' = history st
  /\ ((exists item blob,
         In item clipboard /\ indexOf (type item) "image" <> (-1)%Z
         /\ getAsFile item = Some blob) ->
      exists item blob,
        In item clipboard /\ indexOf (type item) "image" <> (-1)%Z
        /\ getAsFile item = Some blob /\ image st' = Some blob)
  /\ ((forall item, In item clipboard ->
          indexOf (type item) "image" = (-1)%Z \/ getAsFile item = None) ->
      order = [] /\ st' = st)
  /\ handlePaste None = []
  /\ (forall file files, fileInputChange (Some (file :: files)) = [file])
  /\ fileInputChange (Some []) = [] /\ fileInputChange None = [].
Proof.
  intros Hperm. cbv zeta.
  assert (Hitem : forall blob, In blob order ->
            exists item, In item clipboard /\ indexOf (type item) "image" <> (-1)%Z
                         /\ getAsFile item = Some blob).
  { intros blob Hb. apply (Permutation_in _ Hperm) in Hb.
    cbn [handlePaste] in Hb. apply in_flat_map in Hb as (item & Hi & Hb).
    exists item. split; [exact Hi|].
    destruct (Z.eqb_spec (indexOf (type item) "image") (-1)) as [E | N];
      cbn [negb] in Hb; [contradiction|].
    split; [exact N|].
    destruct (getAsFile item) as [f|]; [|contradiction].
    destruct Hb as [-> | []]. reflexivity. }
  assert (Hread : forall item blob,
            In item clipboard -> indexOf (type item) "image" <> (-1)%Z ->
            getAsFile item = Some blob -> In blob order).
  { intros item blob Hi N E. apply (Permutation_in _ (Permutation_sym Hperm)).
    cbn [handlePaste]. apply in_flat_map. exists item. split; [exact Hi|].
    destruct (Z.eqb_spec (indexOf (type item) "image") (-1)) as [C | _];
      [contradiction|].
    cbn [negb]. rewrite E. now left. }
  destruct (run_FileLoaded order st) as (Ec & Ep & Eh & Hi).
  split; [exact Ec|]. split; [exact Ep|]. split; [exact Eh|].
  split; [|split; [|repeat split]].
  - intros (item0 & blob0 & H1 & H2 & H3).
    destruct Hi as [[E _] | (blob & Hb & E)].
    + pose proof (Hread item0 blob0 H1 H2 H3) as C. rewrite E in C. destruct C.
    + destruct (Hitem blob Hb) as (item & I1 & I2 & I3). now exists item, blob.
  - intros Hnone. destruct Hi as [[E1 E2] | (blob & Hb & _)]; [now split|].
    destruct (Hitem blob Hb) as (item & H1 & H2 & H3).
    destruct (Hnone item H1) as [C | C]; congruence.
Qed.

(** A clipboard with a text item and a PNG: the paste sets the image to
    the PNG and leaves the history of the session as it is. *)
Lemma paste_loads_an_image_witness :
  let clipboard := [ {| type := "text/plain"; getAsFile := None |};
                     {| type := "image/png";
                        getAsFile := Some "data:image/png;base64,AAAA" |} ] in
  let st := run initial_state example_session in
  let st' := run st (map FileLoaded (handlePaste (Some clipboard))) in
  image st' = Some "data:image/png;base64,AAAA" /\ history st' = history st.
Proof.
  cbv zeta.
  destruct (paste_loads_an_image
              [ {| type := "text/plain"; getAsFile := None |};
                {| type := "image/png"; getAsFile := Some "data:image/png;base64,AAAA" |} ]
              (handlePaste
                 (Some [ {| type := "text/plain"; getAsFile := None |};
                         {| type := "image/png";
                            getAsFile := Some "data:image/png;base64,AAAA" |} ]))
              (run initial_state example_session) (Permutation_refl _))
    as (_ & _ & Eh & Hsome & _).
  split; [|exact Eh].
  destruct Hsome as (item & blob & Hi & Ht & Hf & E).
  { exists {| type := "image/png"; getAsFile := Some "data:image/png;base64,AAAA" |},
           "data:image/png;base64,AAAA".
    split; [right; left; reflexivity|]. split; [|reflexivity].
    vm_compute. discriminate. }
  rewrite E. f_equal.
  destruct Hi as [<- | [<- | []]].
  - discriminate Hf.
  - cbn [getAsFile] in Hf. now injection Hf.
Defined.

(** ** Missing elements *)

Lemma step_no_canvas (st : State) (ev : Event) :
  no_canvas ev -> palette st = [] -> history st = [] ->
  palette (step st ev) = [] /\ history (step st ev) = []
  /\ (match ev with
      | HueSlider _ | SaturationSlider _ | LightnessSlider _ => True
      | _ => colorData (step st ev) = colorData st
      end).
Proof.
  intros Hev Hp Hh.
  destruct ev; cbn [step]; try (repeat split; assumption).
  - unfold handleKeyDown. destruct (_ && _); repeat split; assumption.
  - cbn [no_canvas] in Hev. unfold extractPalette.
    destruct canvas as [cv|], img as [im|]; try (repeat split; assumption).
    rewrite Hev. repeat split; assumption.
  - cbn [no_canvas] in Hev. unfold pickColor.
    destruct canvas as [cv|], img as [im|]; try (repeat split; assumption).
    rewrite Hev. repeat split; assumption.
  - rewrite Hp. destruct i; repeat split; assumption.
  - rewrite Hh. destruct i; repeat split; assumption.
Qed.

(** X15. Without a canvas to read (a ref still [null], or no 2d context)
    the handlers of the image return early: in such a session the palette
    and the history stay empty, whatever is clicked, and only the sliders
    change the colour. *)
Theorem no_canvas_no_swatches (evs : list Event) :
  Forall no_canvas evs ->
  palette (run initial_state evs) = [] /\ history (run initial_state evs) = []
  /\ (Forall (fun ev => match ev with
                        | HueSlider _ | SaturationSlider _ | LightnessSlider _ => False
                        | _ => True
                        end) evs ->
      colorData (run initial_state evs) = colorData initial_state).
Proof.
  intros Hev.
  assert (G : forall st, palette st = [] -> history st = [] ->
            palette (run st evs) = [] /\ history (run st evs) = []
            /\ (Forall (fun ev => match ev with
                                  | HueSlider _ | SaturationSlider _ | LightnessSlider _ => False
                                  | _ => True
                                  end) evs ->
                colorData (run st evs) = colorData st)).
  { induction Hev as [|ev evs Hev1 Hev2 IH]; intros st Hp Hh.
    - repeat split; assumption.
    - destruct (step_no_canvas st ev Hev1 Hp Hh) as (Hp' & Hh' & Hc).
      destruct (IH (step st ev) Hp' Hh') as (P & H & C).
      split; [exact P|]. split; [exact H|].
      intros Hs. inversion Hs as [|? ? Hs1 Hs2]; subst.
      unfold run in *. cbn [fold_left]. rewrite (C Hs2).
      destruct ev; try exact Hc; contradiction. }
  now apply G.
Qed.

Lemma no_canvas_no_swatches_witness :
  let evs := [FileLoaded "data:image/png;base64,AAAA";
              ImageOnLoad None (Some example_img);
              ImageClick {| clientX := 3; clientY := 4 |} None (Some example_img);
              PaletteSwatch 0; KeyDown "Escape"] in
  palette (run initial_state evs) = [] /\ history (run initial_state evs) = []
  /\ colorData (run initial_state evs) = colorData initial_state.
Proof.
  cbv zeta.
  destruct (no_canvas_no_swatches
              [FileLoaded "data:image/png;base64,AAAA";
               ImageOnLoad None (Some example_img);
               ImageClick {| clientX := 3; clientY := 4 |} None (Some example_img);
               PaletteSwatch 0; KeyDown "Escape"]) as (P & H & C).
  - repeat constructor.
  - split; [exact P|]. split; [exact H|]. apply C. repeat constructor.
Defined.

(** ** The order of the channels *)

Lemma max3_bounds (r g b x : Z) :
  In x [r; g; b] -> (Z.min (Z.min r g) b <= x <= Z.max (Z.max r g) b)%Z.
Proof. cbn [In]. intros [<- | [<- | [<- | []]]]; lia. Qed.

Lemma max3_In (r g b : Z) :
  In (Z.max (Z.max r g) b) [r; g; b] /\ In (Z.min (Z.min r g) b) [r; g; b].
Proof.
  cbn [In]. split.
  - destruct (Z.max_spec (Z.max r g) b) as [[_ ->] | [_ ->]]; [auto|].
    destruct (Z.max_spec r g) as [[_ ->] | [_ ->]]; auto.
  - destruct (Z.min_spec (Z.min r g) b) as [[_ ->] | [_ ->]]; [|auto].
    destruct (Z.min_spec r g) as [[_ ->] | [_ ->]]; auto.
Qed.

Lemma max3_permutation (r1 g1 b1 r2 g2 b2 : Z) :
  Permutation [r1; g1; b1] [r2; g2; b2] ->
  Z.max (Z.max r1 g1) b1 = Z.max (Z.max r2 g2) b2
  /\ Z.min (Z.min r1 g1) b1 = Z.min (Z.min r2 g2) b2.
Proof.
  intros P.
  destruct (max3_In r1 g1 b1) as [M1 m1]. destruct (max3_In r2 g2 b2) as [M2 m2].
  apply (Permutation_in _ P) in M1, m1.
  apply (Permutation_in _ (Permutation_sym P)) in M2, m2.
  apply max3_bounds in M1, m1, M2, m2. lia.
Qed.

(** X16. Saturation and lightness do not depend on which channel is
    which: the converter gives them the same values for a colour and for
    the colour with its channels in another order. *)
Theorem channel_order_keeps_sl (r1 g1 b1 r2 g2 b2 : Z) :
  (0 <= r1 <= 255)%Z -> (0 <= g1 <= 255)%Z -> (0 <= b1 <= 255)%Z ->
  Permutation [r1; g1; b1] [r2; g2; b2] ->
  let c1 := calculateColorDetails (JS.of_Z r1) (JS.of_Z g1) (JS.of_Z b1) in
  let c2 := calculateColorDetails (JS.of_Z r2) (JS.of_Z g2) (JS.of_Z b2) in
  s (hsl c1) = s (hsl c2) /\ l (hsl c1) = l (hsl c2).
Proof.
  intros Hr Hg Hb P. cbv zeta.
  destruct (max3_permutation _ _ _ _ _ _ P) as [EM Em].
  assert (B : forall x, In x [r2; g2; b2] -> (0 <= x <= 255)%Z).
  { intros x Hx. apply (Permutation_in _ (Permutation_sym P)) in Hx.
    apply max3_bounds in Hx. lia. }
  pose proof (B r2 ltac:(cbn; auto)). pose proof (B g2 ltac:(cbn; auto)).
  pose proof (B b2 ltac:(cbn; auto)).
  rewrite !hsl_calculateColorDetails by lia.
  rewrite <- EM, <- Em. unfold hsl_of_channels. cbn [s l].
  destruct (negb _); split; reflexivity.
Qed.

Lemma channel_order_keeps_sl_witness :
  s (hsl (calculateColorDetails (JS.of_Z 99) (JS.of_Z 102) (JS.of_Z 241)))
  = s (hsl (calculateColorDetails (JS.of_Z 241) (JS.of_Z 99) (JS.of_Z 102)))
  /\ l (hsl (calculateColorDetails (JS.of_Z 99) (JS.of_Z 102) (JS.of_Z 241)))
     = l (hsl (calculateColorDetails (JS.of_Z 241) (JS.of_Z 99) (JS.of_Z 102))).
Proof.
  apply (channel_order_keeps_sl 99 102 241 241 99 102); try lia.
  apply Permutation_sym. apply (Permutation_cons_append [99%Z; 102%Z] 241%Z).
Defined.

(** ** Lightness and the channels *)

Lemma member_In (t : number) (ts : list number) : member t ts = true -> In t ts.
Proof.
  unfold member. rewrite existsb_exists.
  intros (x & Hx & E). apply float_eq in E. now subst x.
Qed.

Lemma wave_values_sweep : forallb wave_values_check wave_table = true.
Proof. vm_compute. reflexivity. Qed.

Lemma wave_values_In (hue : Z) :
  (0 <= hue <= 360)%Z ->
  In (wave (JS.of_Z hue) 0) wave_values /\ In (wave (JS.of_Z hue) 8) wave_values
  /\ In (wave (JS.of_Z hue) 4) wave_values.
Proof.
  intros Hh. pose proof wave_values_sweep as H. rewrite forallb_forall in H.
  specialize (H _ (wave_table_In hue Hh)). revert H.
  generalize (wave (JS.of_Z hue) 0) (wave (JS.of_Z hue) 8) (wave (JS.of_Z hue) 4).
  intros t0 t8 t4 H. cbv beta iota in H.
  apply andb_prop in H as [H H4]. apply andb_prop in H as [H0 H8].
  repeat split; now apply member_In.
Qed.

Lemma lightness_step_sweep : forall_below 101 lightness_step_check = true.
Proof. vm_compute. reflexivity. Qed.

Lemma of_Z_succ (z : Z) : (Uint63.of_Z z + 1)%uint63 = Uint63.of_Z (z + 1).
Proof.
  apply Uint63.to_Z_inj. rewrite Uint63.add_spec, !Uint63.of_Z_spec.
  change (Uint63.to_Z 1) with 1%Z.
  now rewrite Z.add_mod_idemp_l by (compute; discriminate).
Qed.

Lemma channel_step (sat lum : Z) (t : number) :
  (0 <= sat <= 100)%Z -> (0 <= lum < 100)%Z -> In t wave_values ->
  exists n n',
    channel (Uint63.of_Z sat) (Uint63.of_Z lum) t = Some n
    /\ channel (Uint63.of_Z sat) (Uint63.of_Z (lum + 1)) t = Some n'
    /\ (Uint63.to_Z n <= Uint63.to_Z n' <= 255)%Z.
Proof.
  intros Hs Hl Ht.
  pose proof (forall_below_spec 101 _ lightness_step_sweep sat ltac:(lia)) as H.
  unfold lightness_step_check in H. rewrite forallb_forall in H.
  specialize (H t Ht).
  pose proof (forall_below_spec _ _ H lum ltac:(lia)) as H'. cbv beta in H'.
  rewrite of_Z_succ in H'.
  destruct (channel (Uint63.of_Z sat) (Uint63.of_Z lum) t) as [n|]; [|discriminate].
  destruct (channel (Uint63.of_Z sat) (Uint63.of_Z (lum + 1)) t) as [n'|]; [|discriminate].
  apply andb_prop in H' as [H1 H2]. apply Uint63.leb_spec in H1, H2.
  change (Uint63.to_Z 255) with 255%Z in H2.
  exists n, n'. repeat split; assumption.
Qed.

Lemma channel_le (sat lum : Z) (t : number) :
  (0 <= sat <= 100)%Z -> (0 <= lum < 100)%Z -> In t wave_values ->
  exists n n',
    channel (Uint63.of_Z sat) (Uint63.of_Z lum) t = Some n
    /\ channel (Uint63.of_Z sat) (Uint63.of_Z (lum + 1)) t = Some n'
    /\ (Uint63.to_Z n <= Uint63.to_Z n')%Z.
Proof.
  intros Hs Hl Ht.
  destruct (channel_step sat lum t Hs Hl Ht) as (n & n' & E & E' & H).
  exists n, n'. repeat split; try assumption. lia.
Qed.

Lemma channel_bound (sat lum : Z) (t : number) (n : int) :
  (0 <= sat <= 100)%Z -> (0 <= lum <= 100)%Z -> In t wave_values ->
  channel (Uint63.of_Z sat) (Uint63.of_Z lum) t = Some n ->
  (0 <= Uint63.to_Z n <= 255)%Z.
Proof.
  intros Hs Hl Ht E. pose proof (Uint63.to_Z_bounded n) as B.
  destruct (Z.eq_dec lum 100) as [-> | N].
  - destruct (channel_step sat 99 t Hs ltac:(lia) Ht) as (m & n' & _ & E' & H).
    change (99 + 1)%Z with 100%Z in E'. rewrite E in E'.
    injection E' as E'. subst n'. lia.
  - destruct (channel_step sat lum t Hs ltac:(lia) Ht) as (n' & m & E' & _ & H).
    rewrite E in E'. injection E' as E'. subst n'. lia.
Qed.

(** A sequence of integers that does not go down (or up) from one index to
    the next does not go down (or up) at all. *)
Lemma chain (f : Z -> option int) (up : bool) (a b : Z) :
  (forall z, (a <= z < b)%Z ->
     exists n n', f z = Some n /\ f (z + 1)%Z = Some n'
                  /\ if up then (Uint63.to_Z n <= Uint63.to_Z n')%Z
                     else (Uint63.to_Z n' <= Uint63.to_Z n)%Z) ->
  forall z1 z2, (a <= z1 <= z2)%Z -> (z2 <= b)%Z -> (a < b)%Z ->
  exists n n', f z1 = Some n /\ f z2 = Some n'
               /\ if up then (Uint63.to_Z n <= Uint63.to_Z n')%Z
                  else (Uint63.to_Z n' <= Uint63.to_Z n)%Z.
Proof.
  intros Hstep z1 z2 H1 H2 Hab.
  assert (Hdef : forall z, (a <= z <= b)%Z -> exists n, f z = Some n).
  { intros z Hz. destruct (Z.eq_dec z b) as [-> | N].
    - destruct (Hstep (b - 1)%Z ltac:(lia)) as (_ & n & _ & E & _).
      replace (b - 1 + 1)%Z with b in E by lia. now exists n.
    - destruct (Hstep z ltac:(lia)) as (n & _ & E & _). now exists n. }
  replace z2 with (z1 + Z.of_nat (Z.to_nat (z2 - z1)))%Z in * by lia.
  induction (Z.to_nat (z2 - z1)) as [|k IH].
  - destruct (Hdef z1 ltac:(lia)) as (n & E).
    exists n, n. rewrite Z.add_0_r. repeat split; try assumption.
    destruct up; lia.
  - destruct IH as (n & m & En & Em & Hnm); [lia | lia |].
    destruct (Hstep (z1 + Z.of_nat k)%Z ltac:(lia)) as (m' & n' & Em' & En' & Hmn).
    rewrite Em in Em'. injection Em' as <-.
    exists n, n'. split; [exact En|]. split.
    + rewrite <- En'. f_equal. lia.
    + destruct up; lia.
Qed.

Lemma channel_spec (sat lum : Z) (t : number) (n : int) :
  (0 <= sat)%Z -> (0 <= lum)%Z ->
  channel (Uint63.of_Z sat) (Uint63.of_Z lum) t = Some n ->
  Math_round (level (JS.of_Z lum / 100) (chroma (JS.of_Z sat) (JS.of_Z lum)) t)
  = JS.of_Z (Uint63.to_Z n).
Proof.
  intros Hs Hl E. unfold channel in E. rewrite <- !of_Z_nonneg in E by lia.
  rewrite (round_nat_spec _ _ E). apply of_uint63_of_Z.
Qed.

(** X17. Raising the lightness never lowers a channel: for integral hue
    in [0, 360], saturation in [0, 100] and lightness [lum1 <= lum2] in
    [0, 100], the channels [hslToRgb] gives are integers in [0, 255], and
    each channel at [lum1] is at most the one at [lum2]. *)
Theorem lightness_monotone (hue sat lum1 lum2 : Z) :
  (0 <= hue <= 360)%Z -> (0 <= sat <= 100)%Z -> (0 <= lum1 <= lum2)%Z -> (lum2 <= 100)%Z ->
  exists r1 g1 b1 r2 g2 b2 : Z,
    hslToRgb (JS.of_Z hue) (JS.of_Z sat) (JS.of_Z lum1)
    = {| r := JS.of_Z r1; g := JS.of_Z g1; b := JS.of_Z b1 |}
    /\ hslToRgb (JS.of_Z hue) (JS.of_Z sat) (JS.of_Z lum2)
       = {| r := JS.of_Z r2; g := JS.of_Z g2; b := JS.of_Z b2 |}
    /\ (0 <= r1 <= r2)%Z /\ (r2 <= 255)%Z
    /\ (0 <= g1 <= g2)%Z /\ (g2 <= 255)%Z
    /\ (0 <= b1 <= b2)%Z /\ (b2 <= 255)%Z.
Proof.
  intros Hh Hs Hl1 Hl2.
  rewrite !hslToRgb_levels.
  destruct (wave_values_In hue Hh) as (I0 & I8 & I4). revert I0 I8 I4.
  generalize (wave (JS.of_Z hue) 0) (wave (JS.of_Z hue) 8) (wave (JS.of_Z hue) 4).
  intros t0 t8 t4 I0 I8 I4.
  assert (G : forall t, In t wave_values ->
            exists n n' : int,
              Math_round (level (JS.of_Z lum1 / 100) (chroma (JS.of_Z sat) (JS.of_Z lum1)) t)
              = JS.of_Z (Uint63.to_Z n)
              /\ Math_round (level (JS.of_Z lum2 / 100) (chroma (JS.of_Z sat) (JS.of_Z lum2)) t)
                 = JS.of_Z (Uint63.to_Z n')
              /\ (0 <= Uint63.to_Z n <= Uint63.to_Z n')%Z
              /\ (Uint63.to_Z n' <= 255)%Z).
  { intros t Ht.
    destruct (chain (fun lum => channel (Uint63.of_Z sat) (Uint63.of_Z lum) t) true 0 100
                (fun z Hz => channel_le sat z t Hs Hz Ht) lum1 lum2)
      as (n & n' & En & En' & Hn); try lia.
    cbv beta in En, En'.
    pose proof (channel_bound sat lum1 t n Hs ltac:(lia) Ht En).
    pose proof (channel_bound sat lum2 t n' Hs ltac:(lia) Ht En').
    exists n, n'.
    rewrite (channel_spec sat lum1 t n), (channel_spec sat lum2 t n')
      by (lia || assumption).
    repeat split; lia. }
  destruct (G t0 I0) as (n0 & m0 & E0 & F0 & B0 & C0).
  destruct (G t8 I8) as (n8 & m8 & E8 & F8 & B8 & C8).
  destruct (G t4 I4) as (n4 & m4 & E4 & F4 & B4 & C4).
  exists (Uint63.to_Z n0), (Uint63.to_Z n8), (Uint63.to_Z n4),
         (Uint63.to_Z m0), (Uint63.to_Z m8), (Uint63.to_Z m4).
  rewrite E0, E8, E4, F0, F8, F4. repeat split; lia.
Qed.

(** From lightness 40 to lightness 67 at hue 239 and saturation 84, the
    channels go from (16, 19, 188) to (100, 103, 242). *)
Lemma lightness_monotone_witness :
  hslToRgb (JS.of_Z 239) (JS.of_Z 84) (JS.of_Z 40) = {| r := 16; g := 19; b := 188 |}
  /\ hslToRgb (JS.of_Z 239) (JS.of_Z 84) (JS.of_Z 67) = {| r := 100; g := 103; b := 242 |}
  /\ exists r1 g1 b1 r2 g2 b2 : Z,
       hslToRgb (JS.of_Z 239) (JS.of_Z 84) (JS.of_Z 40)
       = {| r := JS.of_Z r1; g := JS.of_Z g1; b := JS.of_Z b1 |}
       /\ hslToRgb (JS.of_Z 239) (JS.of_Z 84) (JS.of_Z 67)
          = {| r := JS.of_Z r2; g := JS.of_Z g2; b := JS.of_Z b2 |}
       /\ (0 <= r1 <= r2)%Z /\ (r2 <= 255)%Z
       /\ (0 <= g1 <= g2)%Z /\ (g2 <= 255)%Z
       /\ (0 <= b1 <= b2)%Z /\ (b2 <= 255)%Z.
Proof.
  split; [vm_compute; reflexivity|]. split; [vm_compute; reflexivity|].
  apply (lightness_monotone 239 84 40 67); lia.
Defined.

(** ** Saturation and the channels *)

Lemma saturation_step_sweep : forall_below 101 saturation_step_check = true.
Proof. vm_compute. reflexivity. Qed.

Lemma saturation_step (sat lum : Z) :
  (0 <= sat < 100)%Z -> (0 <= lum <= 100)%Z ->
  (exists n n',
      channel (Uint63.of_Z sat) (Uint63.of_Z lum) (-1) = Some n
      /\ channel (Uint63.of_Z (sat + 1)) (Uint63.of_Z lum) (-1) = Some n'
      /\ (Uint63.to_Z n <= Uint63.to_Z n')%Z)
  /\ (exists n n',
        channel (Uint63.of_Z sat) (Uint63.of_Z lum) 1 = Some n
        /\ channel (Uint63.of_Z (sat + 1)) (Uint63.of_Z lum) 1 = Some n'
        /\ (Uint63.to_Z n' <= Uint63.to_Z n)%Z).
Proof.
  intros Hs Hl.
  pose proof (forall_below_spec 101 _ saturation_step_sweep lum ltac:(lia)) as H.
  unfold saturation_step_check in H.
  pose proof (forall_below_spec _ _ H sat ltac:(lia)) as H'. cbv beta in H'.
  rewrite of_Z_succ in H'.
  destruct (channel (Uint63.of_Z sat) (Uint63.of_Z lum) (-1)) as [hi|]; [|discriminate].
  destruct (channel (Uint63.of_Z (sat + 1)) (Uint63.of_Z lum) (-1)) as [hi'|];
    [|discriminate].
  destruct (channel (Uint63.of_Z sat) (Uint63.of_Z lum) 1) as [lo|]; [|discriminate].
  destruct (channel (Uint63.of_Z (sat + 1)) (Uint63.of_Z lum) 1) as [lo'|];
    [|discriminate].
  apply andb_prop in H' as [Hhi Hlo]. apply Uint63.leb_spec in Hhi, Hlo.
  split; [exists hi, hi' | exists lo, lo']; repeat split; assumption.
Qed.

(** The largest and the smallest channel [hslToRgb] gives are those of the
    values [-1] and [1] of the wave. *)
Lemma hslToRgb_extremes (hue sat lum : Z) :
  (0 <= hue <= 360)%Z -> (0 <= sat <= 100)%Z -> (0 <= lum <= 100)%Z ->
  exists (lo hi : int) (rz gz bz : Z),
    channel (Uint63.of_Z sat) (Uint63.of_Z lum) 1 = Some lo
    /\ channel (Uint63.of_Z sat) (Uint63.of_Z lum) (-1) = Some hi
    /\ hslToRgb (JS.of_Z hue) (JS.of_Z sat) (JS.of_Z lum)
       = {| r := JS.of_Z rz; g := JS.of_Z gz; b := JS.of_Z bz |}
    /\ (0 <= rz <= 255)%Z /\ (0 <= gz <= 255)%Z /\ (0 <= bz <= 255)%Z
    /\ Z.max (Z.max rz gz) bz = Uint63.to_Z hi
    /\ Z.min (Z.min rz gz) bz = Uint63.to_Z lo.
Proof.
  intros Hh Hs Hl.
  pose proof (forall_below_spec 101 _ roundtrip_sweep sat ltac:(lia)) as H.
  cbv beta in H.
  pose proof (forall_below_spec _ _ H lum ltac:(lia)) as H'.
  cbv beta in H'. clear H. unfold roundtrip_ok in H'. cbv zeta in H'.
  fold (channel (Uint63.of_Z sat) (Uint63.of_Z lum) 1) in H'.
  fold (channel (Uint63.of_Z sat) (Uint63.of_Z lum) (-1)) in H'.
  destruct (channel (Uint63.of_Z sat) (Uint63.of_Z lum) 1) as [lo|]; [|discriminate].
  destruct (channel (Uint63.of_Z sat) (Uint63.of_Z lum) (-1)) as [hi|]; [|discriminate].
  apply andb_prop in H' as [H' Hrows]. apply andb_prop in H' as [H' _].
  apply andb_prop in H' as [H' _]. apply andb_prop in H' as [Hlo Hhi].
  apply Uint63.leb_spec in Hlo, Hhi. change (Uint63.to_Z 255) with 255%Z in Hhi.
  rewrite <- !of_Z_nonneg in Hrows by lia.
  rewrite forallb_forall in Hrows.
  pose proof (Hrows _ (wave_table_In hue Hh)) as Hrow. clear Hrows.
  rewrite hslToRgb_levels. revert Hrow.
  generalize (wave (JS.of_Z hue) 0) (wave (JS.of_Z hue) 8) (wave (JS.of_Z hue) 4).
  intros t0 t8 t4 Hrow.
  apply hue_ok_spec in Hrow; [| lia | rewrite to_Z_of_Z_hue; lia].
  destruct Hrow as (n0 & n8 & n4 & E0 & E8 & E4 & B0 & B8 & B4 & Emax & Emin & _).
  pose proof (Uint63.to_Z_bounded lo) as Blo.
  exists lo, hi, (Uint63.to_Z n0), (Uint63.to_Z n8), (Uint63.to_Z n4).
  rewrite E0, E8, E4, !of_uint63_of_Z. repeat split; assumption || lia.
Qed.

(** X18. Raising the saturation never lowers the largest channel and
    never raises the smallest: for integral hue, lightness and saturations
    [sat1 <= sat2] of the sliders' ranges, the channels [hslToRgb] gives
    are integers in [0, 255], the largest at [sat1] is at most the largest
    at [sat2], and the smallest at [sat1] is at least the smallest at
    [sat2]. *)
Theorem saturation_monotone (hue sat1 sat2 lum : Z) :
  (0 <= hue <= 360)%Z -> (0 <= sat1 <= sat2)%Z -> (sat2 <= 100)%Z -> (0 <= lum <= 100)%Z ->
  exists r1 g1 b1 r2 g2 b2 : Z,
    hslToRgb (JS.of_Z hue) (JS.of_Z sat1) (JS.of_Z lum)
    = {| r := JS.of_Z r1; g := JS.of_Z g1; b := JS.of_Z b1 |}
    /\ hslToRgb (JS.of_Z hue) (JS.of_Z sat2) (JS.of_Z lum)
       = {| r := JS.of_Z r2; g := JS.of_Z g2; b := JS.of_Z b2 |}
    /\ (0 <= r1 <= 255)%Z /\ (0 <= g1 <= 255)%Z /\ (0 <= b1 <= 255)%Z
    /\ (0 <= r2 <= 255)%Z /\ (0 <= g2 <= 255)%Z /\ (0 <= b2 <= 255)%Z
    /\ (Z.max (Z.max r1 g1) b1 <= Z.max (Z.max r2 g2) b2)%Z
    /\ (Z.min (Z.min r2 g2) b2 <= Z.min (Z.min r1 g1) b1)%Z.
Proof.
  intros Hh Hs1 Hs2 Hl.
  destruct (hslToRgb_extremes hue sat1 lum Hh ltac:(lia) Hl)
    as (lo1 & hi1 & r1 & g1 & b1 & Elo1 & Ehi1 & E1 & Br1 & Bg1 & Bb1 & M1 & m1).
  destruct (hslToRgb_extremes hue sat2 lum Hh ltac:(lia) Hl)
    as (lo2 & hi2 & r2 & g2 & b2 & Elo2 & Ehi2 & E2 & Br2 & Bg2 & Bb2 & M2 & m2).
  exists r1, g1, b1, r2, g2, b2.
  split; [exact E1|]. split; [exact E2|].
  split; [exact Br1|]. split; [exact Bg1|]. split; [exact Bb1|].
  split; [exact Br2|]. split; [exact Bg2|]. split; [exact Bb2|].
  rewrite M1, M2, m1, m2.
  destruct (chain (fun sat => channel (Uint63.of_Z sat) (Uint63.of_Z lum) (-1)) true 0 100
              (fun z Hz => proj1 (saturation_step z lum Hz Hl)) sat1 sat2)
    as (n & n' & En & En' & Hn); try lia.
  destruct (chain (fun sat => channel (Uint63.of_Z sat) (Uint63.of_Z lum) 1) false 0 100
              (fun z Hz => proj2 (saturation_step z lum Hz Hl)) sat1 sat2)
    as (k & k' & Ek & Ek' & Hk); try lia.
  cbv beta in En, En', Ek, Ek'.
  rewrite Ehi1 in En. rewrite Ehi2 in En'. rewrite Elo1 in Ek. rewrite Elo2 in Ek'.
  injection En as <-. injection En' as <-. injection Ek as <-. injection Ek' as <-.
  split; assumption.
Qed.

(** From saturation 20 to saturation 84 at hue 239 and lightness 67, the
    channels go from (154, 155, 188) to (100, 103, 242): the largest from
    188 to 242, the smallest from 154 to 100. *)
Lemma saturation_monotone_witness :
  hslToRgb (JS.of_Z 239) (JS.of_Z 20) (JS.of_Z 67) = {| r := 154; g := 155; b := 188 |}
  /\ hslToRgb (JS.of_Z 239) (JS.of_Z 84) (JS.of_Z 67) = {| r := 100; g := 103; b := 242 |}
  /\ exists r1 g1 b1 r2 g2 b2 : Z,
       hslToRgb (JS.of_Z 239) (JS.of_Z 20) (JS.of_Z 67)
       = {| r := JS.of_Z r1; g := JS.of_Z g1; b := JS.of_Z b1 |}
       /\ hslToRgb (JS.of_Z 239) (JS.of_Z 84) (JS.of_Z 67)
          = {| r := JS.of_Z r2; g := JS.of_Z g2; b := JS.of_Z b2 |}
       /\ (0 <= r1 <= 255)%Z /\ (0 <= g1 <= 255)%Z /\ (0 <= b1 <= 255)%Z
       /\ (0 <= r2 <= 255)%Z /\ (0 <= g2 <= 255)%Z /\ (0 <= b2 <= 255)%Z
       /\ (Z.max (Z.max r1 g1) b1 <= Z.max (Z.max r2 g2) b2)%Z
       /\ (Z.min (Z.min r2 g2) b2 <= Z.min (Z.min r1 g1) b1)%Z.
Proof.
  split; [vm_compute; reflexivity|]. split; [vm_compute; reflexivity|].
  apply (saturation_monotone 239 20 84 67); lia.
Defined.

(** ** The sector of the hue *)

Lemma round_between_spec (lo hi : int) (x : number) :
  round_between lo hi x = true ->
  exists z, (Uint63.to_Z lo <= z <= Uint63.to_Z hi)%Z /\ Math_round x = JS.of_Z z.
Proof.
  unfold round_between. destruct (round_nat x) as [n|] eqn:E; [|discriminate].
  intros H. apply andb_prop in H as [H1 H2]. apply Uint63.leb_spec in H1, H2.
  exists (Uint63.to_Z n). split; [lia|].
  rewrite (round_nat_spec _ _ E). apply of_uint63_of_Z.
Qed.

Lemma hue_sector_sweep : forall_below 256 hue_sector_check = true.
Proof. vm_compute. reflexivity. Qed.

Lemma int_ltb_of_Z (x y : Z) :
  (0 <= x <= 255)%Z -> (0 <= y <= 255)%Z ->
  Uint63.ltb (Uint63.of_Z x) (Uint63.of_Z y) = (x <? y)%Z.
Proof.
  intros Hx Hy. destruct (Z.ltb_spec x y) as [L | L].
  - apply Uint63.ltb_spec. rewrite !to_Z_of_Z_small by lia. exact L.
  - apply not_true_is_false. intros C. apply Uint63.ltb_spec in C.
    rewrite !to_Z_of_Z_small in C by lia. lia.
Qed.

Lemma int_eqb_of_Z (x y : Z) :
  (0 <= x <= 255)%Z -> (0 <= y <= 255)%Z ->
  Uint63.eqb (Uint63.of_Z x) (Uint63.of_Z y) = (x =? y)%Z.
Proof.
  intros Hx Hy. rewrite <- eqb_to_Z, !to_Z_of_Z_small by lia. reflexivity.
Qed.

Lemma hue_sector_range (mx x y : Z) :
  (0 <= x <= mx)%Z -> (0 <= y <= mx)%Z -> (mx <= 255)%Z -> (Z.min x y < mx)%Z ->
  let n := (chan x - chan y) / (chan mx - chan (Z.min x y)) in
  (exists z, Math_round (turn (if (x <? y)%Z then 6 else 0) n * 360) = JS.of_Z z
             /\ if (x <? y)%Z then (300 <= z <= 360)%Z else (0 <= z <= 60)%Z)
  /\ ((y < mx)%Z ->
      exists z, (60 <= z <= 180)%Z /\ Math_round (turn 2 n * 360) = JS.of_Z z)
  /\ ((x < mx)%Z -> (y < mx)%Z ->
      exists z, (180 <= z <= 300)%Z /\ Math_round (turn 4 n * 360) = JS.of_Z z).
Proof.
  intros Hx Hy Hmx Hmin.
  pose proof (forall_below_spec 256 _ hue_sector_sweep mx ltac:(lia)) as H.
  unfold hue_sector_check in H. rewrite chan_int_of_Z in H by lia.
  pose proof (forall_below_spec _ _ H x ltac:(lia)) as H1.
  cbv beta zeta in H1. rewrite chan_int_of_Z in H1 by lia.
  pose proof (forall_below_spec _ _ H1 y ltac:(lia)) as H2.
  cbv beta zeta in H2. rewrite chan_int_of_Z in H2 by lia.
  clear H H1.
  rewrite !int_ltb_of_Z, !int_eqb_of_Z in H2 by lia.
  replace (chan (Z.min x y)) with (if (x <? y)%Z then chan x else chan y)
    by (destruct (Z.ltb_spec x y); f_equal; lia).
  cbv zeta.
  apply orb_prop in H2 as [E | H2].
  { apply andb_prop in E as [Ex Ey]. apply Z.eqb_eq in Ex, Ey. lia. }
  apply andb_prop in H2 as [H2 Hb]. apply andb_prop in H2 as [Hr Hg].
  split; [|split].
  - destruct (x <? y)%Z; apply round_between_spec in Hr as (z & Hz & E);
      exists z; (split; [exact E | exact Hz]).
  - intros Hy'. apply orb_prop in Hg as [C | Hg]; [apply Z.eqb_eq in C; lia|].
    exact (round_between_spec _ _ _ Hg).
  - intros Hx' Hy'. apply orb_prop in Hb as [C | Hb].
    + apply orb_prop in C as [C | C]; apply Z.eqb_eq in C; lia.
    + exact (round_between_spec _ _ _ Hb).
Qed.

(** X19. The hue lies in the sector of the largest channel: for channels
    in [0, 255], when red is largest the hue is from 0 to 60 if green is at
    least blue and from 300 to 360 otherwise; when green is largest and red
    is not, it is from 60 to 180; when blue alone is largest, from 180 to
    300. *)
Theorem hue_sector (rz gz bz : Z) :
  (0 <= rz <= 255)%Z -> (0 <= gz <= 255)%Z -> (0 <= bz <= 255)%Z ->
  exists hz : Z,
    h (hsl (calculateColorDetails (JS.of_Z rz) (JS.of_Z gz) (JS.of_Z bz))) = JS.of_Z hz
    /\ (gz <= rz -> bz <= rz -> bz <= gz -> 0 <= hz <= 60)%Z
    /\ (gz <= rz -> bz <= rz -> gz < bz -> 300 <= hz <= 360)%Z
    /\ (rz < gz -> bz <= gz -> 60 <= hz <= 180)%Z
    /\ (rz < bz -> gz < bz -> 180 <= hz <= 300)%Z.
Proof.
  intros Hr Hg Hb.
  rewrite hsl_calculateColorDetails by assumption.
  remember (Z.max (Z.max rz gz) bz) as M eqn:EM.
  remember (Z.min (Z.min rz gz) bz) as m eqn:Em.
  unfold hsl_of_channels. cbn [h].
  destruct (Z.eqb_spec M m) as [E | N]; cbn [negb fst].
  - exists 0%Z. split; [reflexivity|]. repeat split; lia.
  - destruct (Z.eqb_spec M rz) as [Er | Nr].
    + replace m with (Z.min gz bz) by lia. rewrite Er.
      destruct (hue_sector_range rz gz bz) as ((z & E & Hz) & _); try lia.
      cbv zeta in E. exists z. split; [exact E|].
      destruct (Z.ltb_spec gz bz); repeat split; lia.
    + destruct (Z.eqb_spec M gz) as [Eg | Ng].
      * replace m with (Z.min bz rz) by lia. rewrite Eg.
        destruct (hue_sector_range gz bz rz) as (_ & H2 & _); try lia.
        destruct H2 as (z & Hz & E); [lia|].
        exists z. split; [exact E|]. repeat split; lia.
      * replace m with (Z.min rz gz) by lia. replace M with bz by lia.
        destruct (hue_sector_range bz rz gz) as (_ & _ & H3); try lia.
        destruct H3 as (z & Hz & E); [lia | lia |].
        exists z. split; [exact E|]. repeat split; lia.
Qed.

Lemma hue_sector_witness :
  exists hz : Z,
    h (hsl (calculateColorDetails (JS.of_Z 99) (JS.of_Z 102) (JS.of_Z 241))) = JS.of_Z hz
    /\ (180 <= hz <= 300)%Z.
Proof.
  destruct (hue_sector 99 102 241) as (hz & E & _ & _ & _ & H); [lia | lia | lia |].
  exists hz. split; [exact E | apply H; lia].
Defined.
